(** * Nebula Research front end (frontend/src/App.jsx): session and run
      orchestration, autocorrect debounce, progress display.

    The React component is embedded as a state record and one function per
    event handler.  Every handler runs to completion before the next event
    is taken (the browser's event loop), so a handler is a function from
    state to state, and the queued functional updates [setX(prev => ...)]
    are applied in the order they were queued.  A handler reads the state of
    the render it belongs to, which is the state it starts from.

    Conventions of the embedding:
    - a string is a [ustring], the sequence of its UTF-16 code units, as
      JavaScript has it: [.length], [.slice], [===] and the regular
      expressions (none has the flag [u]) work on code units; the white space
      class of [\s] and of [String.prototype.trim] is the one of ECMAScript,
      the code points of WhiteSpace and of LineTerminator, all of which are
      single code units; a literal of this file is read as UTF-8;
    - numbers are rationals [Q]: every finite double is a rational, and the
      comparisons, [Math.max] and [Math.min] used by the code are exact on
      them; where the code computes with numbers (the threshold of a step of
      the loader) the operations are those of binary64, taken from the
      Standard Library's [SpecFloat];
    - time is the clock in milliseconds, read by [Date.now()] and
      [performance.now()] alike; it moves when the environment lets time pass;
    - handles of timers, streams and requests are positions in the browser's
      tables of the objects created so far, so a handle is never reused;
    - the browser runs a timeout when it is due, delivers the events of an
      event source only while it is open, and answers a request once.

    Left out, as they take no part in the properties below: the cells
    [copiedId], [showResearch] and [renaming] of the view, the effect that
    saves the sessions after each change (the storage helpers are embedded on
    their own), and the clean-up on unmount. *)

From Stdlib Require Import List Bool Arith ZArith NArith QArith Qround Lia.
From Stdlib Require Import DecimalPos DecimalN SpecFloat.
From Stdlib.Strings Require Import Byte.
Import ListNotations.

Close Scope Q_scope.

(** ** Strings *)

(** A JavaScript string is a sequence of UTF-16 code units; [length],
    [slice], the regular expressions without the flag [u] and [===] all work
    on code units. *)
Definition codeunit : Type := N.
Bind Scope N_scope with codeunit.

Inductive ustring : Type :=
| EmptyUString
| UString (c : codeunit) (r : ustring).

Module UString.

Fixpoint length (s : ustring) : nat :=
  match s with
  | EmptyUString => O
  | UString _ r => S (length r)
  end.

Fixpoint append (a b : ustring) : ustring :=
  match a with
  | EmptyUString => b
  | UString c r => UString c (append r b)
  end.

(** [a === b]. *)
Fixpoint eqb (a b : ustring) : bool :=
  match a, b with
  | EmptyUString, EmptyUString => true
  | UString c r, UString d t => N.eqb c d && eqb r t
  | _, _ => false
  end.

(** The code unit at position [n], if there is one. *)
Fixpoint get (n : nat) (s : ustring) {struct s} : option codeunit :=
  match s with
  | EmptyUString => None
  | UString c r => match n with O => Some c | S k => get k r end
  end.

(** [s.slice(n, n + m)]. *)
Fixpoint substring (n m : nat) (s : ustring) : ustring :=
  match n, m, s with
  | O, O, _ => EmptyUString
  | O, S m', EmptyUString => s
  | O, S m', UString c r => UString c (substring O m' r)
  | S n', _, EmptyUString => s
  | S n', _, UString _ r => substring n' m r
  end.

(** [b.startsWith(a)]. *)
Fixpoint prefix (a b : ustring) : bool :=
  match a with
  | EmptyUString => true
  | UString c r =>
      match b with
      | EmptyUString => false
      | UString d t => N.eqb c d && prefix r t
      end
  end.

(** The code units of a code point: itself below 0x10000, a surrogate pair
    from there on. *)
Definition units (cp : N) (r : ustring) : ustring :=
  if (cp <? 65536)%N then UString cp r
  else UString (55296 + (cp - 65536) / 1024)%N
         (UString (56320 + (cp - 65536) mod 1024)%N r).

Definition cont (b : Byte.byte) : option N :=
  let n := Byte.to_N b in
  if ((128 <=? n) && (n <? 192))%N then Some (n - 128)%N else None.

(** The text that a literal of the file stands for: the literal is read as
    UTF-8. *)
Fixpoint of_utf8 (l : list Byte.byte) : option ustring :=
  match l with
  | [] => Some EmptyUString
  | b :: l1 =>
      let n := Byte.to_N b in
      if (n <? 128)%N then option_map (UString n) (of_utf8 l1)
      else
        match l1 with
        | [] => None
        | b1 :: l2 =>
            if (n <? 192)%N then None
            else if (n <? 224)%N then
              match cont b1 with
              | Some c1 =>
                  option_map (units ((n - 192) * 64 + c1)) (of_utf8 l2)
              | None => None
              end
            else
              match l2 with
              | [] => None
              | b2 :: l3 =>
                  if (n <? 240)%N then
                    match cont b1, cont b2 with
                    | Some c1, Some c2 =>
                        option_map
                          (units (((n - 224) * 64 + c1) * 64 + c2))
                          (of_utf8 l3)
                    | _, _ => None
                    end
                  else
                    match l3 with
                    | [] => None
                    | b3 :: l4 =>
                        match cont b1, cont b2, cont b3 with
                        | Some c1, Some c2, Some c3 =>
                            if (n <? 248)%N then
                              option_map
                                (units ((((n - 240) * 64 + c1) * 64 + c2) * 64 + c3))
                                (of_utf8 l4)
                            else None
                        | _, _, _ => None
                        end
                    end
              end
        end
  end.

(** Texts of ASCII characters are displayed as literals. *)
Fixpoint to_utf8 (s : ustring) : option (list Byte.byte) :=
  match s with
  | EmptyUString => Some []
  | UString c r =>
      if (c <? 128)%N
      then match Byte.of_N c, to_utf8 r with
           | Some b, Some l => Some (b :: l)
           | _, _ => None
           end
      else None
  end.

End UString.


Declare Scope ustring_scope.
Delimit Scope ustring_scope with ustring.
Bind Scope ustring_scope with ustring.
String Notation ustring UString.of_utf8 UString.to_utf8 : ustring_scope.
Infix "++" := UString.append (right associativity, at level 60) : ustring_scope.

Local Open Scope ustring_scope.
Local Open Scope nat_scope.

(** ** Utilities (the [utils] block of the source) *)

Module Util.

(** The class [\s] and the white space of [trim]: TAB, LF, VT, FF, CR,
    SPACE, U+00A0, U+1680, U+2000 to U+200A, U+2028, U+2029, U+202F, U+205F,
    U+3000 and U+FEFF. *)
Definition is_space (c : codeunit) : bool :=
  (((9 <=? c) && (c <=? 13)) || (c =? 32) || (c =? 160) || (c =? 5760)
   || ((8192 <=? c) && (c <=? 8202)) || (c =? 8232) || (c =? 8233)
   || (c =? 8239) || (c =? 8287) || (c =? 12288) || (c =? 65279))%N.

(** [s.replace(/\s+/g, " ")]: every maximal run of white space becomes one
    space.  [in_run] tells that the previous character was white space. *)
Fixpoint collapse_ws (in_run : bool) (s : ustring) : ustring :=
  match s with
  | EmptyUString => EmptyUString
  | UString c r =>
      if is_space c
      then (if in_run then collapse_ws true r
            else UString 32 (collapse_ws true r))
      else UString c (collapse_ws false r)
  end.

Fixpoint trimStart (s : ustring) : ustring :=
  match s with
  | EmptyUString => EmptyUString
  | UString c r => if is_space c then trimStart r else s
  end.

Fixpoint trimEnd (s : ustring) : ustring :=
  match s with
  | EmptyUString => EmptyUString
  | UString c r =>
      match trimEnd r with
      | EmptyUString => if is_space c then EmptyUString else UString c EmptyUString
      | r' => UString c r'
      end
  end.

(** [String.prototype.trim]. *)
Definition str_trim (s : ustring) : ustring := trimEnd (trimStart s).

(** [const trim = (s) => (s || "").replace(/\s+/g, " ").trim();] *)
Definition trim (s : ustring) : ustring := str_trim (collapse_ws false s).

(** JavaScript truthiness of a string. *)
Definition truthy (s : ustring) : bool :=
  match s with EmptyUString => false | _ => true end.

(** [a || b] on strings. *)
Definition or_else (a b : ustring) : ustring := if truthy a then a else b.

(** [const titleOf = (s) => (trim(s).slice(0, 64) || "Untitled");] *)
Definition titleOf (s : ustring) : ustring :=
  or_else (UString.substring 0 64 (trim s)) "Untitled".

(** The decimal digits of a number, most significant first. *)
Fixpoint digits (d : Decimal.uint) : ustring :=
  match d with
  | Decimal.Nil => EmptyUString
  | Decimal.D0 r => UString 48 (digits r)
  | Decimal.D1 r => UString 49 (digits r)
  | Decimal.D2 r => UString 50 (digits r)
  | Decimal.D3 r => UString 51 (digits r)
  | Decimal.D4 r => UString 52 (digits r)
  | Decimal.D5 r => UString 53 (digits r)
  | Decimal.D6 r => UString 54 (digits r)
  | Decimal.D7 r => UString 55 (digits r)
  | Decimal.D8 r => UString 56 (digits r)
  | Decimal.D9 r => UString 57 (digits r)
  end.

(** Decimal text of a natural number, as a template literal prints it. *)
Definition dec (n : N) : ustring := digits (N.to_uint n).

(** [const uid = () => `m_${Date.now()}_${uidCounter++}`;]
    The clock value and the counter are passed in; the caller stores the
    incremented counter. *)
Definition uid (now counter : N) : ustring * N :=
  ("m_" ++ dec now ++ "_" ++ dec counter, (counter + 1)%N).

End Util.

(** ** The loader view ([ClaudeLoader]) *)

Module Loader.
Local Open Scope ustring_scope.
Local Open Scope Q_scope.

(** [progress || 0]: zero is the only falsy finite number. *)
Definition orZero (p : Q) : Q := if Qeq_bool p 0 then 0 else p.

Definition Math_min (a b : Q) : Q := if Qle_bool a b then a else b.
Definition Math_max (a b : Q) : Q := if Qle_bool a b then b else a.

(** The clamp of the percentage label:
    [Math.max(0, Math.min(100, progress || 0))]. *)
Definition clampPct (progress : Q) : Q :=
  Math_max 0 (Math_min 100 (orZero progress)).

(** [Number.prototype.toFixed(0)]: the nearest integer, the larger one of
    two equally near, taken on the absolute value with the sign in front. *)
Definition nearest (x : Q) : Z := Qfloor (x + (1 # 2)).

Definition toFixed0 (x : Q) : ustring :=
  if Qle_bool 0 x then Util.dec (Z.to_N (nearest x))
  else "-" ++ Util.dec (Z.to_N (nearest (- x))).

(** The text of the percentage label:
    [{Math.max(0,Math.min(100,progress||0)).toFixed(0)}%]. *)
Definition pctLabel (progress : Q) : ustring :=
  toFixed0 (clampPct progress) ++ "%".

(** *** The step list

    The threshold of a step is computed with numbers, that is, in binary64:
    [i + 1] and [plan.steps.length] are integers, which are doubles as they
    are, and each of [/], [*] and [-] rounds its result to the nearest
    double. *)

Definition prec : Z := 53.
Definition emax : Z := 1024.

(** The double of a natural number (the number itself below 2^53). *)
Definition double_of_nat (k : nat) : spec_float :=
  binary_normalize prec emax (Z.of_nat k) 0 false.

(** [const stepPct = ((i + 1) / plan.steps.length) * 100;] *)
Definition stepPct (i n : nat) : spec_float :=
  SFmul prec emax
    (SFdiv prec emax (double_of_nat (i + 1)) (double_of_nat n))
    (double_of_nat 100).

(** [stepPct - 1]. *)
Definition threshold (i n : nat) : spec_float :=
  SFsub prec emax (stepPct i n) (double_of_nat 1).

(** The rational that a finite double stands for: [(-1)^s * m * 2^e]. *)
Definition value_of (s : bool) (m : positive) (e : Z) : Q :=
  let z := if s then Zneg m else Zpos m in
  match e with
  | Z0 => z # 1
  | Zpos k => (z * Z.pow_pos 2 k) # 1
  | Zneg k => z # (Pos.pow 2 k)
  end.

(** [p >= f] for a finite number [p] and a double [f]: the comparison is the
    one of the values; nothing finite reaches [Infinity], everything reaches
    [-Infinity], and a comparison with [NaN] is false. *)
Definition reaches (p : Q) (f : spec_float) : bool :=
  match f with
  | S754_zero _ => Qle_bool 0 p
  | S754_finite s m e => Qle_bool (value_of s m e) p
  | S754_infinity s => s
  | S754_nan => false
  end.

(** [const done = (progress || 0) >= stepPct - 1;] *)
Definition done (progress : Q) (i n : nat) : bool :=
  reaches (orZero progress) (threshold i n).

(** [steps.map((s, i) => ...)] from index [i], with the flag of each
    step. *)
Fixpoint map_flags (flag : nat -> bool) (i : nat) (steps : list ustring)
  : list (bool * ustring) :=
  match steps with
  | [] => []
  | s :: r => (flag i, s) :: map_flags flag (S i) r
  end.

(** [plan.steps.map((s, i) => ...)], from index [i]. *)
Definition map_steps (progress : Q) (n i : nat) (steps : list ustring)
  : list (bool * ustring) :=
  map_flags (fun k => done progress k n) i steps.

(** The step list of the loader: rendered only when
    [plan?.steps?.length > 0]; each item carries its [done] flag. *)
Definition stepItems (steps : list ustring) (progress : Q)
  : list (bool * ustring) :=
  if (0 <? List.length steps)%nat
  then map_steps progress (List.length steps) 0 steps
  else [].

(** *** The rule of the specification

    The specification states the rule with the threshold
    [((i+1)/N)*100 - 1] as a real number.  These definitions follow its
    words, in exact arithmetic, to be compared with the ones above. *)

Definition stepPct_exact (i n : nat) : Q :=
  (inject_Z (Z.of_nat (i + 1)) / inject_Z (Z.of_nat n)) * 100.

Definition done_exact (progress : Q) (i n : nat) : bool :=
  Qle_bool (stepPct_exact i n - 1) (orZero progress).

Definition stepItems_exact (steps : list ustring) (progress : Q)
  : list (bool * ustring) :=
  if (0 <? List.length steps)%nat
  then map_flags (fun k => done_exact progress k (List.length steps)) 0 steps
  else [].

End Loader.

(** ** Persistence ([loadSessions], [saveSessions]) *)

Module Storage.

(** Exceptions the storage helpers can meet. *)
Inductive exn : Type :=
| SecurityError        (* storage access refused by the browser *)
| QuotaExceededError   (* [setItem] beyond the quota *)
| SyntaxError          (* [JSON.parse] of malformed text *)
| TypeError.           (* [JSON.stringify] of a cyclic value *)

(** The completion of a JavaScript expression: a value, or a throw. *)
Inductive completion (A : Type) : Type :=
| Normal (a : A)
| Throw (e : exn).
Arguments Normal {A} a.
Arguments Throw {A} e.

Definition bind {A B} (c : completion A) (k : A -> completion B)
  : completion B :=
  match c with Normal a => k a | Throw e => Throw e end.

(** [try { body } catch { handler }]. *)
Definition try_catch {A} (body : completion A) (handler : completion A)
  : completion A :=
  match body with Normal a => Normal a | Throw _ => handler end.

Definition returns {A} (c : completion A) : Prop := exists a, c = Normal a.

(** [window.localStorage] as the Web Storage interface defines it: a
    key/value table; access can be refused as a whole, and a write that does
    not fit the quota throws and stores nothing. *)
Record LocalStorage : Type := mkLS {
  items : list (ustring * ustring);
  accessible : bool;
  quota : nat
}.

Fixpoint lookup (k : ustring) (l : list (ustring * ustring)) : option ustring :=
  match l with
  | [] => None
  | (k', v) :: r => if UString.eqb k k' then Some v else lookup k r
  end.

Fixpoint store (k v : ustring) (l : list (ustring * ustring))
  : list (ustring * ustring) :=
  match l with
  | [] => [(k, v)]
  | (k', v') :: r =>
      if UString.eqb k k' then (k, v) :: r else (k', v') :: store k v r
  end.

(** [localStorage.getItem(k)]; [None] is [null]. *)
Definition getItem (k : ustring) (ls : LocalStorage)
  : completion (option ustring) :=
  if accessible ls then Normal (lookup k (items ls)) else Throw SecurityError.

(** [localStorage.setItem(k, v)]. *)
Definition setItem (k v : ustring) (ls : LocalStorage)
  : completion unit * LocalStorage :=
  if negb (accessible ls) then (Throw SecurityError, ls)
  else if quota ls <? UString.length v then (Throw QuotaExceededError, ls)
  else (Normal tt, mkLS (store k v (items ls)) (accessible ls) (quota ls)).

Definition STORAGE_KEY : ustring := "nebula_sessions_v5".

Section Helpers.
(** The values of the language and its JSON codec are parameters: the
    helpers only pass values through. *)
Variable value : Type.
Variable empty_array : value.
Variable JSON_parse : ustring -> completion value.
Variable JSON_stringify : value -> completion ustring.

(** [x || "[]"] on a string or [null]. *)
Definition or_brackets (x : option ustring) : ustring :=
  match x with
  | Some s => Util.or_else s "[]"
  | None => "[]"
  end.

(** [const loadSessions = () => { try{ return JSON.parse(
    localStorage.getItem(STORAGE_KEY)||"[]"); }catch{ return []; } };] *)
Definition loadSessions (ls : LocalStorage) : completion value :=
  try_catch
    (bind (getItem STORAGE_KEY ls) (fun x => JSON_parse (or_brackets x)))
    (Normal empty_array).

(** [const saveSessions = (s) => { try{ localStorage.setItem(STORAGE_KEY,
    JSON.stringify(s)); }catch{} };]  The result pairs the completion of
    the call with the storage it leaves. *)
Definition saveSessions (s : value) (ls : LocalStorage)
  : completion unit * LocalStorage :=
  match JSON_stringify s with
  | Throw _ => (Normal tt, ls)
  | Normal text =>
      match setItem STORAGE_KEY text ls with
      | (Throw _, ls') => (Normal tt, ls')
      | (Normal u, ls') => (Normal u, ls')
      end
  end.

End Helpers.

End Storage.

(** ** Data model *)

Inductive Mode : Type := fast | thorough.
Inductive Role : Type := user | assistant.
Inductive Status : Type := idle | thinking | done | error | stopped.

Module Message.
Record t : Type := mk {
  id : ustring;
  role : Role;
  content : ustring;
  citations : option (list ustring)   (* absent on user messages *)
}.
End Message.

(** The [type] tags of trace entries. *)
Inductive trace_type : Type :=
| t_plan | t_status | t_queries | t_search | t_read | t_extract
| t_rationale | t_error.

(** The [data] of a trace entry: the parsed payload, kept as received. *)
Inductive payload : Type :=
| PlanData (intent : option ustring) (steps : option (list ustring))
| StatusData (state : option ustring)
| Json (text : ustring)
| ErrorData (message : ustring).

Record TraceEvent : Type := mkTrace { type : trace_type; data : payload }.

Module Session.
Record t : Type := mk {
  id : ustring;
  title : ustring;
  mode : Mode;
  messages : list Message.t;
  trace : list TraceEvent;
  createdAt : N
}.
End Session.

Record Plan : Type := mkPlan { intent : option ustring; steps : list ustring }.

(** The applied-correction record [{original, corrected}] of the pill. *)
Record Correction : Type := mkAc { original : ustring; corrected : ustring }.

(** The named events of the stream, with their parsed payloads.  [malformed]
    is a named event (other than [error]) whose data is not JSON: its
    listener throws in [JSON.parse], before any update. *)
Inductive stream_event : Type :=
| ev_plan (intent : option ustring) (steps : option (list ustring))
| ev_progress (pct : option Q)        (* [None]: [d.pct] is not a number *)
| ev_status (state : option ustring)
| ev_queries (d : ustring)
| ev_search (d : ustring)
| ev_read (d : ustring)
| ev_extract (d : ustring)
| ev_rationale (d : ustring)
| ev_final (answer : ustring) (citations : option (list ustring))
| ev_error
| malformed.

(** ** The component state *)

(** Closures handed to [setTimeout]. *)
Inductive callback : Type :=
| cb_autocorrect (text : ustring)   (* the debounced request of [text] *)
| cb_resetProgress.                (* [()=> setProgress(0)] *)

Record Timeout : Type := mkTimeout { due : N; cb : callback; pending : bool }.

(** An [EventSource]: the session id its listeners captured, the query
    parameters it was opened with, and whether it still delivers events. *)
Record Stream : Type := mkStream {
  owner : ustring; sq : ustring; smode : Mode; open : bool
}.

(** An autocorrect request: the text it was issued for (the closure's
    [text]) and whether its response is still awaited. *)
Record Fetch : Type := mkFetch { ftext : ustring; inflight : bool }.

(** [useState] cells holding the sessions. *)
Record Store : Type := mkStore {
  sessions : list Session.t;
  currentId : option ustring;
  mode : Mode
}.

(** [useState] cells of the run. *)
Record Run : Type := mkRun {
  status : Status;
  elapsed : Q;
  plan : Plan;
  progress : Q;
  statusLine : ustring
}.

(** [useState] cells of the composer and of autocorrect. *)
Record Composer : Type := mkComposer {
  question : ustring;
  autoCorrectOn : bool;
  suggestion : ustring;
  suggestLoading : bool;
  ac : option Correction
}.

(** [useRef] cells; [None] is [null].  Timer ids are positive numbers in the
    browser, so the test [if (ref.current)] is the test for non-null. *)
Record Refs : Type := mkRefs {
  suggestTimerRef : option nat;
  esRef : option nat;
  runIdRef : option ustring;
  timerRef : option nat;
  t0Ref : N
}.

(** What lives outside the component: the clock (milliseconds), the module
    variable [uidCounter], and the browser's tables of timeouts, intervals
    (live or cleared), event sources and requests. *)
Record Env : Type := mkEnv {
  now : N;
  uidCounter : N;
  timeouts : list Timeout;
  intervals : list bool;
  streams : list Stream;
  fetches : list Fetch
}.

Record State : Type := mkState {
  store : Store;
  run : Run;
  composer : Composer;
  refs : Refs;
  env : Env
}.

(** *** State setters *)

(** The setters take the record apart, so that a setter applied to a state
    that is not yet known as a record stays as it is. *)

Definition on_store (f : Store -> Store) (st : State) : State :=
  let 'mkState s r c rf e := st in mkState (f s) r c rf e.
Definition on_run (f : Run -> Run) (st : State) : State :=
  let 'mkState s r c rf e := st in mkState s (f r) c rf e.
Definition on_composer (f : Composer -> Composer) (st : State) : State :=
  let 'mkState s r c rf e := st in mkState s r (f c) rf e.
Definition on_refs (f : Refs -> Refs) (st : State) : State :=
  let 'mkState s r c rf e := st in mkState s r c (f rf) e.
Definition on_env (f : Env -> Env) (st : State) : State :=
  let 'mkState s r c rf e := st in mkState s r c rf (f e).

(** [setSessions(prev => f(prev))]. *)
Definition setSessions (f : list Session.t -> list Session.t) : State -> State :=
  on_store (fun '(mkStore ss c m) => mkStore (f ss) c m).
Definition setCurrentId (c : option ustring) : State -> State :=
  on_store (fun '(mkStore ss _ m) => mkStore ss c m).
Definition setMode (m : Mode) : State -> State :=
  on_store (fun '(mkStore ss c _) => mkStore ss c m).

Definition setStatus (x : Status) : State -> State :=
  on_run (fun '(mkRun _ el pl pr sl) => mkRun x el pl pr sl).
Definition setElapsed (x : Q) : State -> State :=
  on_run (fun '(mkRun stt _ pl pr sl) => mkRun stt x pl pr sl).
Definition setPlan (x : Plan) : State -> State :=
  on_run (fun '(mkRun stt el _ pr sl) => mkRun stt el x pr sl).
Definition setProgress (x : Q) : State -> State :=
  on_run (fun '(mkRun stt el pl _ sl) => mkRun stt el pl x sl).
Definition setStatusLine (x : ustring) : State -> State :=
  on_run (fun '(mkRun stt el pl pr _) => mkRun stt el pl pr x).

Definition setQuestion (x : ustring) : State -> State :=
  on_composer (fun '(mkComposer _ on sg ld a) => mkComposer x on sg ld a).
Definition setAutoCorrectOn (x : bool) : State -> State :=
  on_composer (fun '(mkComposer qu _ sg ld a) => mkComposer qu x sg ld a).
Definition setSuggestion (x : ustring) : State -> State :=
  on_composer (fun '(mkComposer qu on _ ld a) => mkComposer qu on x ld a).
Definition setSuggestLoading (x : bool) : State -> State :=
  on_composer (fun '(mkComposer qu on sg _ a) => mkComposer qu on sg x a).
Definition setAc (x : option Correction) : State -> State :=
  on_composer (fun '(mkComposer qu on sg ld _) => mkComposer qu on sg ld x).

Definition set_suggestTimerRef (x : option nat) : State -> State :=
  on_refs (fun '(mkRefs _ es rid tr t0) => mkRefs x es rid tr t0).
Definition set_esRef (x : option nat) : State -> State :=
  on_refs (fun '(mkRefs str _ rid tr t0) => mkRefs str x rid tr t0).
Definition set_runIdRef (x : option ustring) : State -> State :=
  on_refs (fun '(mkRefs str es _ tr t0) => mkRefs str es x tr t0).
Definition set_timerRef (x : option nat) : State -> State :=
  on_refs (fun '(mkRefs str es rid _ t0) => mkRefs str es rid x t0).
Definition set_t0Ref (x : N) : State -> State :=
  on_refs (fun '(mkRefs str es rid tr _) => mkRefs str es rid tr x).

Definition set_now (x : N) : State -> State :=
  on_env (fun '(mkEnv _ u ts iv sm fs) => mkEnv x u ts iv sm fs).
Definition set_uidCounter (x : N) : State -> State :=
  on_env (fun '(mkEnv nw _ ts iv sm fs) => mkEnv nw x ts iv sm fs).
Definition set_timeouts (x : list Timeout) : State -> State :=
  on_env (fun '(mkEnv nw u _ iv sm fs) => mkEnv nw u x iv sm fs).
Definition set_intervals (x : list bool) : State -> State :=
  on_env (fun '(mkEnv nw u ts _ sm fs) => mkEnv nw u ts x sm fs).
Definition set_streams (x : list Stream) : State -> State :=
  on_env (fun '(mkEnv nw u ts iv _ fs) => mkEnv nw u ts iv x fs).
Definition set_fetches (x : list Fetch) : State -> State :=
  on_env (fun '(mkEnv nw u ts iv sm _) => mkEnv nw u ts iv sm x).

(** *** The browser's tables *)

(** Replace the entry at position [n], if there is one. *)
Fixpoint update {A} (n : nat) (f : A -> A) (l : list A) : list A :=
  match l, n with
  | [], _ => []
  | x :: r, O => f x :: r
  | x :: r, S k => x :: update k f r
  end.

(** [setTimeout(cb, delay)]: the new handle and the new state. *)
Definition setTimeout (c : callback) (delay : N) (st : State) : nat * State :=
  let h := List.length (timeouts (env st)) in
  (h, set_timeouts
        (timeouts (env st) ++ [mkTimeout (now (env st) + delay)%N c true])%list st).

(** [clearTimeout(h)]. *)
Definition clearTimeout (h : nat) (st : State) : State :=
  set_timeouts
    (update h (fun t => mkTimeout (due t) (cb t) false) (timeouts (env st))) st.

(** [setInterval(tick, 100)]. *)
Definition setInterval (st : State) : nat * State :=
  let h := List.length (intervals (env st)) in
  (h, set_intervals (intervals (env st) ++ [true])%list st).

(** [clearInterval(h)]. *)
Definition clearInterval (h : nat) (st : State) : State :=
  set_intervals (update h (fun _ => false) (intervals (env st))) st.

(** [new EventSource(url)] with the listeners of a run that captured [id]. *)
Definition newEventSource (id q : ustring) (m : Mode) (st : State) : nat * State :=
  let h := List.length (streams (env st)) in
  (h, set_streams (streams (env st) ++ [mkStream id q m true])%list st).

(** [es.close()]. *)
Definition close (h : nat) (st : State) : State :=
  set_streams
    (update h (fun s => mkStream (owner s) (sq s) (smode s) false)
       (streams (env st))) st.

(** [fetch(url)] of the autocorrect endpoint for [text]. *)
Definition fetch (text : ustring) (st : State) : State :=
  set_fetches (fetches (env st) ++ [mkFetch text true])%list st.

Definition timeout_pending (h : nat) (st : State) : bool :=
  match nth_error (timeouts (env st)) h with
  | Some t => pending t
  | None => false
  end.

Definition interval_live (h : nat) (st : State) : bool :=
  nth h (intervals (env st)) false.

Definition stream_open (h : nat) (st : State) : bool :=
  match nth_error (streams (env st)) h with
  | Some s => open s
  | None => false
  end.

Definition fetch_inflight (h : nat) (st : State) : bool :=
  match nth_error (fetches (env st)) h with
  | Some f => inflight f
  | None => false
  end.

(** ** The handlers of [App] *)

(** [const current = useMemo(()=> sessions.find(s=>s.id===currentId) || null,
    [sessions, currentId]);] *)
Definition current (st : State) : option Session.t :=
  match currentId (store st) with
  | Some c => find (fun s => UString.eqb (Session.id s) c) (sessions (store st))
  | None => None
  end.

(** One call of [uid()]. *)
Definition fresh_uid (st : State) : ustring * State :=
  let '(u, c) := Util.uid (now (env st)) (uidCounter (env st)) in
  (u, set_uidCounter c st).

Definition startTimer (st : State) : State :=
  let st1 := set_t0Ref (now (env st)) st in
  let st2 := match timerRef (refs st1) with
             | Some h => clearInterval h st1
             | None => st1
             end in
  let '(h, st3) := setInterval st2 in
  set_timerRef (Some h) st3.

Definition stopTimer (st : State) : State :=
  match timerRef (refs st) with
  | Some h => clearInterval h st
  | None => st
  end.

Definition ensureSession (prompt : ustring) (st : State) : ustring * State :=
  match current st with
  | Some c => (Session.id c, st)
  | None =>
      let '(id, st1) := fresh_uid st in
      let s := Session.mk id (Util.titleOf (Util.or_else prompt "New chat"))
                 (mode (store st1)) [] [] (now (env st1)) in
      (id, setCurrentId (Some id) (setSessions (cons s) st1))
  end.

Definition newChat (st : State) : State :=
  setQuestion "" (setElapsed 0 (setStatus idle (setCurrentId None st))).

(** [x?.id || null] on the result of [find]. *)
Definition id_or_null (x : option Session.t) : option ustring :=
  match x with
  | Some s => if Util.truthy (Session.id s) then Some (Session.id s) else None
  | None => None
  end.

Definition other_than (id : ustring) (s : Session.t) : bool :=
  negb (UString.eqb (Session.id s) id).

(** [const deleteSession=(id)=>{ setSessions(prev=>prev.filter(s=>s.id!==id));
    if(currentId===id) setCurrentId(sessions.find(s=>s.id!==id)?.id||null); };]
    [sessions] and [currentId] are the values of the render the handler
    belongs to, that is, of the state it starts from. *)
Definition deleteSession (id : ustring) (st : State) : State :=
  let st1 := setSessions (filter (other_than id)) st in
  match currentId (store st) with
  | Some c =>
      if UString.eqb c id
      then setCurrentId (id_or_null (find (other_than id) (sessions (store st)))) st1
      else st1
  | None => st1
  end.

(** [prev.map(s => s.id===id ? f(s) : s)]. *)
Definition map_session (id : ustring) (f : Session.t -> Session.t)
  : list Session.t -> list Session.t :=
  map (fun s => if UString.eqb (Session.id s) id then f s else s).

Definition renameSession (id name : ustring) : State -> State :=
  setSessions (map_session id (fun s =>
    Session.mk (Session.id s) (Util.titleOf name) (Session.mode s)
      (Session.messages s) (Session.trace s) (Session.createdAt s))).

(** [const appendTrace=(id,ev)=> setSessions(prev=>prev.map(s=>s.id===id?
    {...s,trace:[...(s.trace||[]),ev]}:s));] *)
Definition appendTrace (id : ustring) (ev : TraceEvent) : State -> State :=
  setSessions (map_session id (fun s =>
    Session.mk (Session.id s) (Session.title s) (Session.mode s)
      (Session.messages s) (Session.trace s ++ [ev])%list (Session.createdAt s))).

(** [prev.map(s => s.id===id ? f(uid(), s) : s)]: the updaters that call
    [uid()] once for each session they rewrite.  The counter is threaded. *)
Fixpoint map_fresh (id : ustring) (f : ustring -> Session.t -> Session.t)
    (nw ctr : N) (l : list Session.t) : list Session.t * N :=
  match l with
  | [] => ([], ctr)
  | s :: r =>
      if UString.eqb (Session.id s) id
      then let '(u, c1) := Util.uid nw ctr in
           let '(r', c2) := map_fresh id f nw c1 r in
           (f u s :: r', c2)
      else let '(r', c2) := map_fresh id f nw ctr r in
           (s :: r', c2)
  end.

Definition setSessions_fresh (id : ustring)
    (f : ustring -> Session.t -> Session.t) (st : State) : State :=
  let '(l, c) := map_fresh id f (now (env st)) (uidCounter (env st))
                   (sessions (store st)) in
  set_uidCounter c (setSessions (fun _ => l) st).

Definition stopped_by_user : TraceEvent :=
  mkTrace t_status (StatusData (Some "Stopped by user")).

(** [function stopRun()]. *)
Definition stopRun (st : State) : State :=
  let st1 := match esRef (refs st) with
             | Some h => set_esRef None (close h st)
             | None => st
             end in
  let st2 := stopTimer st1 in
  let st3 := setStatus stopped st2 in
  match runIdRef (refs st3) with
  | Some id => if Util.truthy id then appendTrace id stopped_by_user st3 else st3
  | None => st3
  end.

Definition is_thinking (st : State) : bool :=
  match status (run st) with thinking => true | _ => false end.

(** [const onKey = (e) => { if (e.key === "Escape" && status === "thinking")
    stopRun(); };] for the Escape key. *)
Definition onEscape (st : State) : State :=
  if is_thinking st then stopRun st else st.

(** [function requestAutocorrect(text)]: the synchronous part. *)
Definition requestAutocorrect (text : ustring) (st : State) : State :=
  if negb (autoCorrectOn (composer st)) then setSuggestion "" st
  else
    let st1 := match suggestTimerRef (refs st) with
               | Some h => clearTimeout h st
               | None => st
               end in
    let '(h, st2) := setTimeout (cb_autocorrect text) 300 st1 in
    set_suggestTimerRef (Some h) st2.

(** The body of a timeout, up to its first [await]. *)
Definition run_callback (c : callback) (st : State) : State :=
  match c with
  | cb_autocorrect text => fetch text (setSuggestLoading true st)
  | cb_resetProgress => setProgress 0 st
  end.

(** The suggestion a response carries for the request of [text]:
    [(j?.suggestion || "").trim()], kept when it is non-empty and differs from
    [text.trim()]; a failed request or an unreadable body is [res = None]. *)
Definition suggestion_of (text : ustring) (res : option (option ustring)) : ustring :=
  match res with
  | Some j =>
      let sugg := Util.str_trim
                    (Util.or_else (match j with Some x => x | None => "" end) "") in
      if Util.truthy sugg && negb (UString.eqb sugg (Util.str_trim text))
      then sugg else ""
  | None => ""
  end.

(** The rest of the debounced callback, run when the response of request [h]
    arrives. *)
Definition onResponse (h : nat) (res : option (option ustring)) (st : State)
  : State :=
  match nth_error (fetches (env st)) h with
  | Some f =>
      if inflight f
      then
        let st1 := set_fetches
                     (update h (fun f => mkFetch (ftext f) false)
                        (fetches (env st))) st in
        setSuggestLoading false (setSuggestion (suggestion_of (ftext f) res) st1)
      else st
  | None => st
  end.

(** The [onChange] of the textarea. *)
Definition onChange (v : ustring) (st : State) : State :=
  let st1 := setQuestion v st in
  if 3 <=? UString.length (Util.trim v)
  then requestAutocorrect (Util.trim v) st1
  else setSuggestion "" st1.

(** The autocorrect resolution at the head of [send]: the effective query
    and the value given to [setAc]. *)
Definition resolve (on : bool) (sugg raw : ustring) : ustring * option Correction :=
  if on && Util.truthy sugg && negb (UString.eqb sugg raw)
  then (sugg, Some (mkAc raw sugg))
  else (raw, None).

(** The updater of [send]: title from the first query, the user message
    appended, the trace emptied. *)
Definition begin_turn (q : ustring) (u : ustring) (s : Session.t) : Session.t :=
  Session.mk (Session.id s)
    (match Session.messages s with
     | [] => Util.titleOf q
     | _ => Session.title s
     end)
    (Session.mode s)
    (Session.messages s ++ [Message.mk u user q None])%list
    []
    (Session.createdAt s).

(** [function send()]. *)
Definition send (st : State) : State :=
  let raw := Util.trim (question (composer st)) in
  if negb (Util.truthy raw) then st
  else
    let '(q, a) := resolve (autoCorrectOn (composer st))
                     (suggestion (composer st)) raw in
    let st1 := setSuggestion "" (setAc a st) in
    let '(id, st2) := ensureSession q st1 in
    let st3 := set_runIdRef (Some id) st2 in
    let st4 := setSessions_fresh id (begin_turn q) st3 in
    let st5 := startTimer
                 (setStatusLine ""
                   (setProgress 0
                     (setPlan (mkPlan None [])
                       (setElapsed 0 (setStatus thinking (setQuestion "" st4)))))) in
    let st6 := match esRef (refs st5) with
               | Some h => set_esRef None (close h st5)
               | None => st5
               end in
    let '(es, st7) := newEventSource id q (mode (store st)) st6 in
    set_esRef (Some es) st7.

(** The updater of the [final] listener. *)
Definition add_answer (answer : ustring) (cits : option (list ustring))
    (u : ustring) (s : Session.t) : Session.t :=
  Session.mk (Session.id s) (Session.title s) (Session.mode s)
    (Session.messages s ++ [Message.mk u assistant answer cits])%list
    (Session.trace s) (Session.createdAt s).

Definition network_error : TraceEvent :=
  mkTrace t_error (ErrorData "Network/server error").

(** The listeners that [send] registers on the event source [es]; [id] is
    the session id of that call of [send].  They run whenever the browser
    dispatches an event of [es] to them. *)
Definition listener (id : ustring) (es : nat) (e : stream_event) (st : State)
  : State :=
  match e with
  | ev_plan i ss =>
      appendTrace id (mkTrace t_plan (PlanData i ss))
        (setPlan (mkPlan i (match ss with Some l => l | None => [] end)) st)
  | ev_progress p =>
      match p with Some x => setProgress x st | None => st end
  | ev_status x =>
      appendTrace id (mkTrace t_status (StatusData x))
        (setStatusLine (match x with Some t => t | None => "" end) st)
  | ev_queries d => appendTrace id (mkTrace t_queries (Json d)) st
  | ev_search d => appendTrace id (mkTrace t_search (Json d)) st
  | ev_read d => appendTrace id (mkTrace t_read (Json d)) st
  | ev_extract d => appendTrace id (mkTrace t_extract (Json d)) st
  | ev_rationale d => appendTrace id (mkTrace t_rationale (Json d)) st
  | ev_final answer cits =>
      let st1 := setSessions_fresh id (add_answer answer cits) st in
      let st2 := close es (stopTimer (setStatus done (setProgress 100 st1))) in
      snd (setTimeout cb_resetProgress 800 st2)
  | ev_error =>
      close es (stopTimer (setStatus error (appendTrace id network_error st)))
  | malformed => st
  end.

(** The browser's dispatch: an event source that was closed delivers
    nothing. *)
Definition deliver (h : nat) (e : stream_event) (st : State) : State :=
  match nth_error (streams (env st)) h with
  | Some s => if open s then listener (owner s) h e st else st
  | None => st
  end.

(** The interval callback
    [()=> setElapsed((performance.now()-t0Ref.current)/1000)]. *)
Definition onTick (h : nat) (st : State) : State :=
  if interval_live h st
  then setElapsed (Z.of_N (now (env st) - t0Ref (refs st)) # 1000) st
  else st.

(** The pending timeout that is due at [nw] and has the least due time (the
    oldest of equals), searched from position [i]. *)
Fixpoint next_due (nw : N) (i : nat) (l : list Timeout) : option (nat * N) :=
  match l with
  | [] => None
  | t :: r =>
      let rest := next_due nw (S i) r in
      if pending t && (due t <=? nw)%N
      then match rest with
           | Some (j, d) => if (d <? due t)%N then Some (j, d) else Some (i, due t)
           | None => Some (i, due t)
           end
      else rest
  end.

(** Run the due timeouts in the order of their due times. *)
Fixpoint fire_due (fuel : nat) (st : State) : State :=
  match fuel with
  | O => st
  | S k =>
      match next_due (now (env st)) 0 (timeouts (env st)) with
      | Some (h, _) =>
          match nth_error (timeouts (env st)) h with
          | Some t => fire_due k (run_callback (cb t) (clearTimeout h st))
          | None => st
          end
      | None => st
      end
  end.

(** [d] milliseconds pass. *)
Definition advance (d : N) (st : State) : State :=
  let st1 := set_now (now (env st) + d)%N st in
  fire_due (List.length (timeouts (env st1))) st1.

(** The effect on [mode]:
    [if(!currentId) return; setSessions(prev=>prev.map(s=>s.id===currentId?
    {...s,mode}:s));], run when the mode button changed the mode. *)
Definition pickMode (m : Mode) (st : State) : State :=
  let same := match mode (store st), m with
              | fast, fast | thorough, thorough => true
              | _, _ => false
              end in
  if same then st
  else
    let st1 := setMode m st in
    match currentId (store st1) with
    | Some c =>
        if Util.truthy c
        then setSessions (map_session c (fun s =>
               Session.mk (Session.id s) (Session.title s) m
                 (Session.messages s) (Session.trace s) (Session.createdAt s))) st1
        else st1
    | None => st1
    end.

(** ** Events and the transition function *)

Inductive event : Type :=
(* the user *)
| TextChange (v : ustring)
| Submit                      (* Enter in the textarea, or the Send button *)
| StopClick
| EscapeKey
| NewChat
| Select (id : ustring)
| Delete (id : ustring)
| Rename (id name : ustring)
| PickMode (m : Mode)
| ToggleAutocorrect
| UseSuggestion
| DismissSuggestion
| UseOriginal
| KeepCorrection
(* the environment *)
| Advance (ms : N)
| Tick (h : nat)
| Response (r : nat) (res : option (option ustring))
| StreamEvent (h : nat) (e : stream_event).

(** The history column shows one entry, with its buttons, for each session
    of the list. *)
Definition listed (id : ustring) (st : State) : bool :=
  existsb (fun s => UString.eqb (Session.id s) id) (sessions (store st)).

Definition step (ev : event) (st : State) : State :=
  match ev with
  | TextChange v => onChange v st
  | Submit => send st
  | StopClick => if is_thinking st then stopRun st else st
  | EscapeKey => onEscape st
  | NewChat => newChat st
  | Select id => if listed id st then setCurrentId (Some id) st else st
  | Delete id => if listed id st then deleteSession id st else st
  | Rename id name => if listed id st then renameSession id name st else st
  | PickMode m => pickMode m st
  | ToggleAutocorrect =>
      setAutoCorrectOn (negb (autoCorrectOn (composer st))) st
  | UseSuggestion =>
      if Util.truthy (suggestion (composer st))
         && negb (suggestLoading (composer st))
      then setQuestion (suggestion (composer st)) st else st
  | DismissSuggestion =>
      if Util.truthy (suggestion (composer st))
         && negb (suggestLoading (composer st))
      then setSuggestion "" st else st
  | UseOriginal =>
      match ac (composer st) with
      | Some a => setAc None (setQuestion (original a) st)
      | None => st
      end
  | KeepCorrection => setAc None st
  | Advance d => advance d st
  | Tick h => onTick h st
  | Response r res => onResponse r res st
  | StreamEvent h e => deliver h e st
  end.

(** The events of a list, oldest first. *)
Definition run_events (evs : list event) (st : State) : State :=
  fold_left (fun s ev => step ev s) evs st.

(** The state of the first render: the stored sessions, the first of them
    selected ([sessions[0]?.id || null]), its mode or ["thorough"]. *)
Definition init (stored : list Session.t) (t : N) : State :=
  let cid := id_or_null (hd_error stored) in
  let cur := match cid with
             | Some c => find (fun s => UString.eqb (Session.id s) c) stored
             | None => None
             end in
  mkState
    (mkStore stored cid
       (match cur with Some s => Session.mode s | None => thorough end))
    (mkRun idle 0 (mkPlan None []) 0 "")
    (mkComposer "" true "" false None)
    (mkRefs None None None None 0)
    (mkEnv t 0 [] [] [] []).

(** ** How the browser's tables grow *)

(** [l'] continues [l]: every handle of [l] is still a handle of [l'], and
    an entry that was dead (a cleared timer, a closed stream, an answered
    request) is still dead. *)
Definition table_ext {A : Type} (live : A -> bool) (l l' : list A) : Prop :=
  forall h x,
    nth_error l h = Some x ->
    exists x', nth_error l' h = Some x' /\ (live x = false -> live x' = false).

Definition env_ext (e e' : Env) : Prop :=
  table_ext pending (timeouts e) (timeouts e')
  /\ table_ext (fun b : bool => b) (intervals e) (intervals e')
  /\ table_ext open (streams e) (streams e')
  /\ table_ext inflight (fetches e) (fetches e').

Definition ext (st st' : State) : Prop := env_ext (env st) (env st').

(** ** The invariant of the refs *)

(** What holds of the refs in every state the component can reach: they
    name objects that exist; a thinking run has a stream and a ticker; and
    the only stream that can be open, and the only interval that can be
    live, are the ones the refs name. *)
Definition wf (st : State) : Prop :=
  (forall h, esRef (refs st) = Some h -> h < List.length (streams (env st)))
  /\ (forall t, timerRef (refs st) = Some t ->
                t < List.length (intervals (env st)))
  /\ (forall h, suggestTimerRef (refs st) = Some h ->
                h < List.length (timeouts (env st)))
  /\ (is_thinking st = true ->
      esRef (refs st) <> None /\ timerRef (refs st) <> None)
  /\ (forall h, stream_open h st = true -> esRef (refs st) = Some h)
  /\ (forall t, interval_live t st = true -> timerRef (refs st) = Some t).

(** Steps that touch neither the refs nor the streams and intervals, start
    no run, and keep every timeout handle. *)
Definition same_run (st st' : State) : Prop :=
  refs st' = refs st
  /\ (is_thinking st' = true -> is_thinking st = true)
  /\ streams (env st') = streams (env st)
  /\ intervals (env st') = intervals (env st)
  /\ List.length (timeouts (env st')) = List.length (timeouts (env st)).

(** ** The debounce of autocorrect *)

Definition is_ac (c : callback) : bool :=
  match c with cb_autocorrect _ => true | cb_resetProgress => false end.

(** A timeout that is pending and due at the time [nw]. *)
Definition is_due (nw : N) (t : Timeout) : bool :=
  pending t && (due t <=? nw)%N.

Definition count_due (nw : N) (l : list Timeout) : nat :=
  List.length (filter (is_due nw) l).

(** A timeout as [clearTimeout] leaves it. *)
Definition kill (t : Timeout) : Timeout := mkTimeout (due t) (cb t) false.

(** What the fetch table gains when the callback [c] runs. *)
Definition issued (c : callback) : list Fetch :=
  match c with
  | cb_autocorrect text => [mkFetch text true]
  | cb_resetProgress => []
  end.

(** No autocorrect request waits in a timer other than the one that
    [suggestTimerRef] names. *)
Definition one_debounce (st : State) : Prop :=
  forall i t,
    nth_error (timeouts (env st)) i = Some t ->
    pending t = true -> is_ac (cb t) = true ->
    suggestTimerRef (refs st) = Some i.

(** The request for [x] waits in the timer of [suggestTimerRef], due at
    [at_time], and autocorrect is on. *)
Definition armed (st : State) (x : ustring) (at_time : N) : Prop :=
  autoCorrectOn (composer st) = true
  /\ one_debounce st
  /\ exists k,
       suggestTimerRef (refs st) = Some k
       /\ nth_error (timeouts (env st)) k
          = Some (mkTimeout at_time (cb_autocorrect x) true).

(** A burst of typing: each text after a gap. *)
Fixpoint burst (l : list (N * ustring)) : list event :=
  match l with
  | [] => []
  | (gap, v) :: r => Advance gap :: TextChange v :: burst r
  end.

(** The text a burst that started with [v] ends with. *)
Fixpoint final_text (v : ustring) (l : list (N * ustring)) : ustring :=
  match l with
  | [] => v
  | (_, w) :: r => final_text w r
  end.

(** A text change within the quiet period of the one before, with a text
    that autocorrect takes. *)
Definition quick (gv : N * ustring) : Prop :=
  (fst gv < 300)%N /\ 3 <= UString.length (Util.trim (snd gv)).

(** ** The autocorrect suggestion as the specification describes it *)

(** A suggestion together with the text it was computed for. *)
Record AutocorrectSuggestion : Type := mkSuggestion {
  queriedText : ustring;
  suggestedText : ustring
}.

(** The resolution of the specification: the suggestion replaces the text
    only when it was computed for this very text and differs from it. *)
Definition resolve_spec (on : bool) (s : option AutocorrectSuggestion)
    (raw : ustring) : ustring * option Correction :=
  match s with
  | Some a =>
      if on && UString.eqb (queriedText a) raw
         && negb (UString.eqb (suggestedText a) raw)
      then (suggestedText a, Some (mkAc raw (suggestedText a)))
      else (raw, None)
  | None => (raw, None)
  end.

(** The content of the message a session ends with. *)
Definition last_content (s : Session.t) : option ustring :=
  option_map Message.content
    (nth_error (Session.messages s) (List.length (Session.messages s) - 1)).

(** ** Requirements of the specification that the code is tested against *)

(** The run state holds a clamped progress value: at one state, after a
    progress event carrying [p]. *)
Definition progress_clamped_in_state (st : State) (p : Q) : Prop :=
  (0 <= progress (run (listener "s" 0 (ev_progress (Some p)) st)) <= 100)%Q.

(** The step rule sees the clamped value: at one percentage, step and plan
    length. *)
Definition step_rule_uses_clamped (p : Q) (i n : nat) : Prop :=
  Loader.done p i n = Loader.done (Loader.clampPct p) i n.

(** The step rule is the one of the specification, at one percentage, step
    and plan length: the flag the code computes is the flag of the rule with
    the exact threshold. *)
Definition step_rule_exact (p : Q) (i n : nat) : Prop :=
  Loader.done p i n = Loader.done_exact p i n.

(** The value of the threshold the code computes, when it is finite. *)
Definition threshold_value (i n : nat) : option Q :=
  match Loader.threshold i n with
  | S754_zero _ => Some 0%Q
  | S754_finite s m e => Some (Loader.value_of s m e)
  | S754_infinity _ => None
  | S754_nan => None
  end.

(** The number [v] is within [eps] of the exact threshold of step [i]. *)
Definition near_exact (eps : Q) (i n : nat) (v : Q) : bool :=
  Qle_bool (Loader.stepPct_exact i n - 1 - eps) v
  && Qle_bool v (Loader.stepPct_exact i n - 1 + eps).

(** The computed thresholds of the [k] steps from step [i] on, in a plan of
    [n] steps: each is a finite number within [eps] of the exact one and not
    below the one before it, [prev] before the first; the last one is at
    most 99. *)
Fixpoint thresholds_checked (eps : Q) (n i : nat) (prev : Q) (k : nat) : bool :=
  match k with
  | O => Qle_bool prev 99
  | S k' =>
      match threshold_value i n with
      | Some v =>
          near_exact eps i n v && Qle_bool prev v
          && thresholds_checked eps n (S i) v k'
      | None => false
      end
  end.

Definition plan_checked (eps : Q) (n : nat) : bool :=
  thresholds_checked eps n 0 (-1) n.

(** The distance within which the computed thresholds of plans of at most
    100 steps stay from the exact ones. *)
Definition threshold_eps : Q := 1 # 10000000000000.

(** [stopRun] is idempotent, at one state: a second call changes nothing,
    and a call without a thinking run changes nothing. *)
Definition stop_twice_same (st : State) : Prop :=
  stopRun (stopRun st) = stopRun st.

Definition stop_idle_noop (st : State) : Prop :=
  is_thinking st = false -> stopRun st = st.

(** The listeners guard against stale events, at one state: an event handled
    by the listeners of a stream other than the current one changes neither
    the run state nor the sessions. *)
Definition stale_event_ignored (st : State) (id : ustring) (h : nat)
    (e : stream_event) : Prop :=
  esRef (refs st) <> Some h ->
  run (listener id h e st) = run st
  /\ sessions (store (listener id h e st)) = sessions (store st).

(** Superseded autocorrect results are discarded, at one state: the
    response of a request that is not the latest one issued leaves the
    suggestion on display as it is. *)
Definition stale_response_discarded (st : State) (r : nat)
    (res : option (option ustring)) : Prop :=
  S r < List.length (fetches (env st)) ->
  suggestion (composer (step (Response r res) st)) = suggestion (composer st).

(** Submit follows the resolution of the specification, at one state, for
    the suggestion [a] on display: the sessions of the submitted run end with
    the effective query of the specification, and the pill shows its
    correction record. *)
Definition submit_follows_spec (st : State) (a : AutocorrectSuggestion) : Prop :=
  suggestion (composer st) = suggestedText a ->
  let r := resolve_spec (autoCorrectOn (composer st)) (Some a)
             (Util.trim (question (composer st))) in
  ac (composer (send st)) = snd r
  /\ forall s, In s (sessions (store (send st))) ->
               Some (Session.id s) = runIdRef (refs (send st)) ->
               last_content s = Some (fst r).

(** What a repeated [stopRun] adds to the state the first call left. *)
Definition stop_again (rid : option ustring) (st : State) : State :=
  match rid with
  | Some id => if Util.truthy id then appendTrace id stopped_by_user st else st
  | None => st
  end.

(** ** Scenarios *)

(** Two runs started one after the other in the same session. *)
Definition two_runs : State :=
  run_events [TextChange "q1"; Submit; TextChange "q2"; Submit] (init [] 1000).

(** A suggestion on display for the text in the composer. *)
Definition suggested : State :=
  setSuggestion "what is ai" (setQuestion "waht is ai" (init [] 1000)).

(** The user types a text, its suggestion arrives, the user types on and
    submits before the next suggestion request is due. *)
Definition typed_on : State :=
  run_events
    [TextChange "waht is ai"; Advance 300;
     Response 0 (Some (Some "what is ai"));
     TextChange "waht is ai now"]
    (init [] 1000).

(** Two requests in flight at once; the later one is answered first. *)
Definition overlapping : State :=
  run_events
    [TextChange "abc"; Advance 300; TextChange "abcd"; Advance 300;
     Response 1 (Some (Some "abcde"))]
    (init [] 0).

(** The user types three letters and deletes one within the quiet period. *)
Definition shortened : State :=
  run_events [TextChange "abc"; Advance 100; TextChange "ab"] (init [] 0).

(** The user types three letters, switches autocorrect off and types on,
    all within the quiet period. *)
Definition switched_off : State :=
  run_events [TextChange "abc"; ToggleAutocorrect; TextChange "abcd"] (init [] 0).

(** A codec that reads the text of the empty array only and prints a list by
    its length; it stands for the JSON codec in closed examples. *)
Definition parse_brackets_only (s : ustring) : Storage.completion (list nat) :=
  if UString.eqb s "[]" then Storage.Normal [] else Storage.Throw Storage.SyntaxError.

Definition print_length (l : list nat) : Storage.completion ustring :=
  Storage.Normal (Util.dec (N.of_nat (List.length l))).

(** A codec that reads the JSON texts [[]] and [null]: [Some l] is the array
    [l], [None] is [null], a value that is not a list. *)
Definition parse_null_or_brackets (s : ustring)
  : Storage.completion (option (list nat)) :=
  if UString.eqb s "[]" then Storage.Normal (Some [])
  else if UString.eqb s "null" then Storage.Normal None
  else Storage.Throw Storage.SyntaxError.

(** Stored data that is not a session list yields the empty list: at one
    storage, with the codec above. *)
Definition corrupt_yields_empty (ls : Storage.LocalStorage) : Prop :=
  Storage.loadSessions (option (list nat)) (Some []) parse_null_or_brackets ls
  = Storage.Normal (Some []).

(** A storage that holds the text [null] under the key of the sessions. *)
Definition stored_null : Storage.LocalStorage :=
  Storage.mkLS [(Storage.STORAGE_KEY, "null")] true 100.


(** * Definitions for the further properties

    Predicates and fixtures for the properties of the utilities, of the
    session list, of the run and of autocorrect proved in the last part, and
    the embeddings of the functions of the answer view
    (frontend/src/components/ClaudeAnswer.jsx: [quickTake],
    [normalizeMarkdown]) and of the guard of the correction pill
    (src/components/AutoCorrectPill.jsx).  A regular expression is embedded
    as the scan it stands for, over the code units of the text: none of the
    expressions has the flag [u]. *)

(** ** Tidy texts *)

(** White space occurs in [s] only as single spaces; [in_run] tells that the
    character before [s] was white space. *)
Fixpoint spaced (in_run : bool) (s : ustring) : bool :=
  match s with
  | EmptyUString => true
  | UString c r =>
      if Util.is_space c
      then N.eqb c 32 && negb in_run && spaced true r
      else spaced false r
  end.

(** The first character of [s], if any, is not white space. *)
Definition head_ok (s : ustring) : bool :=
  match s with
  | EmptyUString => true
  | UString c _ => negb (Util.is_space c)
  end.

(** The last character of [s], if any, is not white space. *)
Fixpoint last_ok (s : ustring) : bool :=
  match s with
  | EmptyUString => true
  | UString c EmptyUString => negb (Util.is_space c)
  | UString _ r => last_ok r
  end.

(** Every character of [s] is white space. *)
Fixpoint blank (s : ustring) : bool :=
  match s with
  | EmptyUString => true
  | UString c r => Util.is_space c && blank r
  end.

(** ** Identifiers *)

Definition is_digit (c : codeunit) : bool :=
  ((48 <=? c) && (c <=? 57))%N.

(** A text of decimal digits. *)
Fixpoint all_digits (s : ustring) : bool :=
  match s with
  | EmptyUString => true
  | UString c r => is_digit c && all_digits r
  end.

(** The JSON codec on the two truth values; it stands for the JSON codec in
    closed examples. *)
Definition parse_flag (s : ustring) : Storage.completion bool :=
  if UString.eqb s "true" then Storage.Normal true
  else if UString.eqb s "false" then Storage.Normal false
  else Storage.Throw Storage.SyntaxError.

Definition print_flag (b : bool) : Storage.completion ustring :=
  Storage.Normal (if b then "true" else "false").

(** ** How the session list moves *)

(** The identifiers of the sessions, in the order of the list. *)
Definition ids (st : State) : list ustring :=
  map Session.id (sessions (store st)).

(** [s'] is the session [s] at a later time: the same identifier and time of
    creation, and the messages of [s], in order, possibly with more after
    them. *)
Definition grows (s s' : Session.t) : Prop :=
  Session.id s' = Session.id s
  /\ Session.createdAt s' = Session.createdAt s
  /\ exists more, Session.messages s' = (Session.messages s ++ more)%list.

(** The session an event asks to delete. *)
Definition deleted_by (ev : event) : option ustring :=
  match ev with Delete id => Some id | _ => None end.

(** The three ways in which an event moves the session list: every session
    stays, at its place; the sessions of one identifier are taken out; or
    one new session, named by the next [uid], is put in front and selected. *)
Inductive store_move (del : option ustring) (st st' : State) : Prop :=
| move_keep :
    Forall2 grows (sessions (store st)) (sessions (store st')) ->
    (forall c, currentId (store st') = Some c ->
               currentId (store st) = Some c \/ In c (ids st')) ->
    store_move del st st'
| move_delete (id : ustring) :
    del = Some id ->
    sessions (store st') = filter (other_than id) (sessions (store st)) ->
    (forall c, currentId (store st') = Some c ->
               c <> id /\ (currentId (store st) = Some c \/ In c (ids st'))) ->
    store_move del st st'
| move_new (s0 : Session.t) :
    Session.id s0 = fst (Util.uid (now (env st)) (uidCounter (env st))) ->
    Session.messages s0 = [] ->
    Forall2 grows (s0 :: sessions (store st)) (sessions (store st')) ->
    currentId (store st') = Some (Session.id s0) ->
    (uidCounter (env st) < uidCounter (env st'))%N ->
    store_move del st st'.

(** A move of the session list, with the clock and the counter of [uid]
    going forward only. *)
Definition moves (del : option ustring) (st st' : State) : Prop :=
  store_move del st st'
  /\ (now (env st) <= now (env st'))%N
  /\ (uidCounter (env st) <= uidCounter (env st'))%N.

(** The selection, if any, names a session of the list. *)
Definition selected_listed (st : State) : Prop :=
  forall c, currentId (store st) = Some c -> In c (ids st).

(** [x] was made by [uid], before the time [t0] or with a counter value
    below [ctr]. *)
Definition generated (t0 ctr : N) (x : ustring) : Prop :=
  exists n c, x = fst (Util.uid n c) /\ ((n < t0)%N \/ (c < ctr)%N).

(** The sessions have identifiers of their own, made by [uid] before the
    page was loaded at [t0] or since then. *)
Definition ids_inv (t0 : N) (st : State) : Prop :=
  (t0 <= now (env st))%N
  /\ NoDup (ids st)
  /\ Forall (generated t0 (uidCounter (env st))) (ids st).

(** A session made by an earlier visit, which ended before [t0]. *)
Definition made_before (t0 : N) (s : Session.t) : Prop :=
  exists n c, Session.id s = fst (Util.uid n c) /\ (n < t0)%N.

(** ** What a run leaves behind *)

(** The trace entries that the listener of a stream event appends. *)
Definition trace_of (e : stream_event) : list TraceEvent :=
  match e with
  | ev_plan i ss => [mkTrace t_plan (PlanData i ss)]
  | ev_progress _ => []
  | ev_status x => [mkTrace t_status (StatusData x)]
  | ev_queries d => [mkTrace t_queries (Json d)]
  | ev_search d => [mkTrace t_search (Json d)]
  | ev_read d => [mkTrace t_read (Json d)]
  | ev_extract d => [mkTrace t_extract (Json d)]
  | ev_rationale d => [mkTrace t_rationale (Json d)]
  | ev_final _ _ => []
  | ev_error => [network_error]
  | malformed => []
  end.

(** The stream events whose listeners close the stream. *)
Definition ends_run (e : stream_event) : bool :=
  match e with
  | ev_final _ _ | ev_error => true
  | _ => false
  end.

(** A session with more trace entries after the ones it has. *)
Definition with_trace (more : list TraceEvent) (s : Session.t) : Session.t :=
  Session.mk (Session.id s) (Session.title s) (Session.mode s)
    (Session.messages s) (Session.trace s ++ more)%list (Session.createdAt s).

(** The events that end the run in progress: a stop while it is thinking,
    and the final or error event of a stream that is open. *)
Definition run_ends (ev : event) (st : State) : bool :=
  match ev with
  | StopClick | EscapeKey => is_thinking st
  | StreamEvent h e => stream_open h st && ends_run e
  | _ => false
  end.

(** A thinking run holds the stream and the ticker that the refs name, and
    an open stream writes to the session that [runIdRef] names. *)
Definition run_inv (st : State) : Prop :=
  wf st
  /\ (is_thinking st = true ->
      exists h t, esRef (refs st) = Some h /\ stream_open h st = true
                  /\ timerRef (refs st) = Some t /\ interval_live t st = true)
  /\ (forall h s, nth_error (streams (env st)) h = Some s -> open s = true ->
                  runIdRef (refs st) = Some (owner s)).

(** The status an event that ends the run leaves. *)
Definition end_status (ev : event) : Status :=
  match ev with
  | StreamEvent _ (ev_final _ _) => done
  | StreamEvent _ _ => error
  | _ => stopped
  end.

(** ** The pill of an applied correction ([AutoCorrectPill]) *)

Module AutoCorrectPill.

(** [if (!corrected || corrected === original) return null;]: whether the
    pill renders anything. *)
Definition shown (original corrected : ustring) : bool :=
  negb (negb (Util.truthy corrected) || UString.eqb corrected original).

End AutoCorrectPill.

(** The pill as [App] renders it: [{ac && (<AutoCorrectPill
    original={ac.original} corrected={ac.corrected} ... />)}]. *)
Definition pill_shown (st : State) : bool :=
  match ac (composer st) with
  | Some a => AutoCorrectPill.shown (original a) (corrected a)
  | None => false
  end.

(** ** What the composer shows *)

(** A text without white space at either end, as [String.prototype.trim]
    returns it. *)
Definition trimmed (s : ustring) : bool := head_ok s && last_ok s.

(** Some request of the table is still awaited. *)
Definition inflight_somewhere (fs : list Fetch) : Prop :=
  exists h f, nth_error fs h = Some f /\ inflight f = true.

(** The conditions of [composer_inv] below, on the cells and the table of
    requests. *)
Definition cells_ok (c : Composer) (fs : list Fetch) : Prop :=
  (forall a, ac c = Some a ->
             AutoCorrectPill.shown (original a) (corrected a) = true
             /\ Util.trim (original a) = original a
             /\ original a <> "")
  /\ trimmed (suggestion c) = true
  /\ (suggestLoading c = true -> inflight_somewhere fs).

(** What holds of the autocorrect cells: a correction record on display is
    one that the pill shows, its original text is tidy; the suggestion has no
    white space at either end; and the loading flag is up only while a
    request is awaited. *)
Definition composer_inv (st : State) : Prop :=
  (forall a, ac (composer st) = Some a ->
             AutoCorrectPill.shown (original a) (corrected a) = true
             /\ Util.trim (original a) = original a
             /\ original a <> "")
  /\ trimmed (suggestion (composer st)) = true
  /\ (suggestLoading (composer st) = true ->
      exists h, fetch_inflight h st = true).

(** ** Between "Use original" and the next submit *)

(** The events that neither change the text of the composer on their own
    nor deliver the response of an autocorrect request: everything but
    typing, a submit, "New chat" and a response. *)
Definition quiet (ev : event) : bool :=
  match ev with
  | TextChange _ | Submit | NewChat | Response _ _ => false
  | _ => true
  end.

(** The composer holds the text [raw], with no suggestion and no correction
    on display. *)
Definition holds_text (raw : ustring) (st : State) : Prop :=
  question (composer st) = raw
  /\ suggestion (composer st) = ""
  /\ ac (composer st) = None.

(** After a submit of [typed_on] that applied a correction and a click on
    "Use original", the request that was waiting in the debounce timer at
    the time of the submit is issued and answered, and the user submits. *)
Definition late_response : State :=
  run_events
    [Submit; UseOriginal; Advance 300;
     Response 1 (Some (Some "what is ai now")); Submit]
    typed_on.

(** ** The summary line of an answer ([ClaudeAnswer], [quickTake]) *)

Module ClaudeAnswer.

(** The class [[.!?]]. *)
Definition is_stop (c : codeunit) : bool :=
  N.eqb c 46 || N.eqb c 33 || N.eqb c 63.

(** The pattern [.]: any code unit but a line terminator (LF, CR, U+2028,
    U+2029). *)
Definition is_dot (c : codeunit) : bool :=
  negb (N.eqb c 10 || N.eqb c 13 || N.eqb c 8232 || N.eqb c 8233).

(** [s] starts with [n] characters that [.] matches. *)
Fixpoint dots (n : nat) (s : ustring) : bool :=
  match n with
  | O => true
  | S k =>
      match s with
      | EmptyUString => false
      | UString c r => is_dot c && dots k r
      end
  end.

(** [/^(.{k}[.!?])\s/] matches [s]: [k] characters, a stop at position [k]
    and white space after it. *)
Definition ends_at (k : nat) (s : ustring) : bool :=
  dots k s
  && match UString.get k s, UString.get (S k) s with
     | Some c, Some d => is_stop c && Util.is_space d
     | _, _ => false
     end.

(** The lazy quantifier takes the least count that lets the rest match:
    the least [k] among the [n] counts from [lo] on. *)
Fixpoint first_end (n lo : nat) (s : ustring) : option nat :=
  match n with
  | O => None
  | S m => if ends_at lo s then Some lo else first_end m (S lo) s
  end.

(** [plain.match(/^(.{40,220}?[.!?])\s/)]: the group [m[1]] of the match, if
    there is one. *)
Definition sentence (plain : ustring) : option ustring :=
  option_map (fun k => UString.substring 0 (S k) plain) (first_end 181 40 plain).

(** [function quickTake(md) { if (!md) return "";
      const plain = md.replace(/\s+/g, " ").trim();
      const m = plain.match(/^(.{40,220}?[.!?])\s/);
      return (m ? m[1] : plain.slice(0, 220)).trim(); }] *)
Definition quickTake (md : ustring) : ustring :=
  if negb (Util.truthy md) then ""
  else
    let plain := Util.str_trim (Util.collapse_ws false md) in
    Util.str_trim
      (match sentence plain with
       | Some m1 => m1
       | None => UString.substring 0 220 plain
       end).

End ClaudeAnswer.

(** The last character of a text. *)
Definition last_char (s : ustring) : option codeunit :=
  UString.get (UString.length s - 1) s.

(** The text [s] has a sentence end at position [k]: one of the characters
    [.], [!] and [?] there, and white space right after it. *)
Definition sentence_end (k : nat) (s : ustring) : Prop :=
  exists c d : codeunit,
    UString.get k s = Some c /\ UString.get (S k) s = Some d
    /\ (c = 46 \/ c = 33 \/ c = 63)%N /\ Util.is_space d = true.

(** ** Linked citations ([ClaudeAnswer], [normalizeMarkdown]) *)

Module Markdown.

(** The longest run of digits at the head of [s], and the rest. *)
Fixpoint span_digits (s : ustring) : ustring * ustring :=
  match s with
  | EmptyUString => (EmptyUString, EmptyUString)
  | UString c r =>
      if is_digit c
      then let '(d, rest) := span_digits r in (UString c d, rest)
      else (EmptyUString, s)
  end.

(** [/\[(\d+)\]/] at the head of [s]: the group, and the length of the
    match. *)
Definition cite_at (s : ustring) : option (ustring * nat) :=
  match s with
  | UString c r =>
      if N.eqb c 91
      then match span_digits r with
           | (UString d ds, UString e _) =>
               if N.eqb e 93
               then Some (UString d ds, UString.length (UString d ds) + 2)
               else None
           | _ => None
           end
      else None
  | EmptyUString => None
  end.

(** [parseInt(n, 10)] of a text of digits. *)
Fixpoint digits_value (acc : N) (s : ustring) : N :=
  match s with
  | EmptyUString => acc
  | UString c r => digits_value (acc * 10 + (c - 48)) r
  end.

Definition parseInt (n : ustring) : N := digits_value 0 n.

(** [citations?.[parseInt(n, 10) - 1] || ""]. *)
Definition url_of (n : ustring) (citations : list ustring) : ustring :=
  match parseInt n with
  | N0 => ""
  | Npos p =>
      match nth_error citations (Pos.to_nat p - 1) with
      | Some u => Util.or_else u ""
      | None => ""
      end
  end.

(** The callback of the replacement:
    [(m, n) => { ...; return url ? `[${n}](${url})` : m; }]. *)
Definition link (n : ustring) (citations : list ustring) : ustring :=
  let url := url_of n citations in
  if Util.truthy url then "[" ++ n ++ "](" ++ url ++ ")"
  else "[" ++ n ++ "]".

(** [md.replace(/\[(\d+)\]/g, ...)]: the matches are taken from left to
    right, each search starting where the last match ended.  [skip] counts
    the characters of the current match that are still to be passed. *)
Fixpoint linked (skip : nat) (citations : list ustring) (s : ustring) : ustring :=
  match s with
  | EmptyUString => EmptyUString
  | UString c r =>
      match skip with
      | S k => linked k citations r
      | O =>
          match cite_at s with
          | Some (n, len) => link n citations ++ linked (len - 1) citations r
          | None => UString c (linked 0 citations r)
          end
      end
  end.

(** The canonical form of a code unit under the flag [i], as far as the
    marker is concerned: a letter of [a-z] stands for its capital.  A code
    unit from 128 on is never made equal to a character of the marker, which
    is ASCII: the canonical form of such a unit is not below 128. *)
Definition upper (c : codeunit) : codeunit :=
  (if (97 <=? c) && (c <=? 122) then c - 32 else c)%N.

(** The literal [p] matches at the head of [s], case ignored. *)
Fixpoint starts_ci (p s : ustring) : bool :=
  match p with
  | EmptyUString => true
  | UString a p' =>
      match s with
      | EmptyUString => false
      | UString b s' => N.eqb (upper a) (upper b) && starts_ci p' s'
      end
  end.

(** The text of [/_\((?:not supported by the provided sources)\)_/]. *)
Definition marker : ustring := "_(not supported by the provided sources)_".

(** The replacement: two asterisks, the warning sign (U+26A0 U+FE0E),
    [ unverified] and two asterisks. *)
Definition unverified : ustring :=
  "**" ++ UString 9888 (UString 65038 " unverified**").

(** [linked.replace(/_\(...\)_/gi, ...)]. *)
Fixpoint softened (skip : nat) (s : ustring) : ustring :=
  match s with
  | EmptyUString => EmptyUString
  | UString c r =>
      match skip with
      | S k => softened k r
      | O =>
          if starts_ci marker s
          then unverified ++ softened (UString.length marker - 1) r
          else UString c (softened 0 r)
      end
  end.

(** [function normalizeMarkdown(md, citations)]. *)
Definition normalizeMarkdown (md : ustring) (citations : list ustring) : ustring :=
  if negb (Util.truthy md) then ""
  else softened 0 (linked 0 citations md).

(** The character [c] occurs in [s]. *)
Fixpoint occurs (c : codeunit) (s : ustring) : bool :=
  match s with
  | EmptyUString => false
  | UString d r => N.eqb c d || occurs c r
  end.

End Markdown.

(** The text starts with a reference: an opening bracket, one decimal digit
    or more, a closing bracket. *)
Definition starts_reference (s : ustring) : Prop :=
  exists n rest : ustring,
    n <> "" /\ all_digits n = true /\ s = "[" ++ n ++ "]" ++ rest.

(** Two texts are equal up to the case of the letters a to z. *)
Fixpoint eq_ci (a b : ustring) : bool :=
  match a, b with
  | EmptyUString, EmptyUString => true
  | UString x a', UString y b' =>
      N.eqb (Markdown.upper x) (Markdown.upper y) && eq_ci a' b'
  | _, _ => false
  end.

(** The text starts with the marker of an unsupported statement, in any
    case of its letters. *)
Definition starts_marker (s : ustring) : Prop :=
  exists m rest : ustring, eq_ci Markdown.marker m = true /\ s = m ++ rest.

(** An answer with two references, one of them to a source that is not
    there, and the marker in capitals. *)
Definition sample_answer : ustring :=
  "See [1] and [3]: x_y _(NOT supported by the provided sources)_.".
(** * Properties *)

(** ** Strings *)

Module UStringFacts.

Lemma eqb_refl (s : ustring) : UString.eqb s s = true.
Proof.
  induction s as [| c r IH]; simpl; [ reflexivity | ].
  rewrite N.eqb_refl. exact IH.
Qed.

Lemma eqb_eq (a b : ustring) : UString.eqb a b = true <-> a = b.
Proof.
  split; [ | intros ->; apply eqb_refl ].
  revert b. induction a as [| c r IH]; intros [| d t]; simpl;
    try discriminate; [ reflexivity | ].
  intros H. apply andb_prop in H. destruct H as [Hc Hr].
  apply N.eqb_eq in Hc. apply IH in Hr. congruence.
Qed.

Lemma eqb_neq (a b : ustring) : UString.eqb a b = false <-> a <> b.
Proof.
  destruct (UString.eqb a b) eqn:E.
  - apply eqb_eq in E. split; [ discriminate | congruence ].
  - split; [ | reflexivity ]. intros _ H. apply eqb_eq in H. congruence.
Qed.

Lemma eq_dec (a b : ustring) : {a = b} + {a <> b}.
Proof.
  destruct (UString.eqb a b) eqn:E.
  - left. apply eqb_eq, E.
  - right. apply eqb_neq, E.
Qed.

Lemma append_assoc (a b c : ustring) : (a ++ b) ++ c = a ++ (b ++ c).
Proof. induction a; simpl; [ reflexivity | f_equal; assumption ]. Qed.

Lemma length_append (a b : ustring) :
  UString.length (a ++ b) = UString.length a + UString.length b.
Proof. induction a; simpl; [ reflexivity | f_equal; assumption ]. Qed.

End UStringFacts.

(** ** The utilities and the loader on examples *)

Example trim_collapses : Util.trim "  waht   is ai  " = "waht is ai".
Proof. reflexivity. Qed.

Example uid_text : Util.uid 1700 3 = ("m_1700_3", 4%N).
Proof. reflexivity. Qed.

Example label_60 : Loader.pctLabel (121 # 2)%Q = "61%".
Proof. reflexivity. Qed.

Example steps_4_60 :
  Loader.stepItems ["a"; "b"; "c"; "d"] 60%Q
  = [(true, "a"); (true, "b"); (false, "c"); (false, "d")].
Proof. reflexivity. Qed.


(** Take a state apart into its fields. *)
Ltac destruct_state st :=
  destruct st as [[ss cid md] [stt el pl pr sl] [qu on sg ld acv]
                    [str esr rid tr t0] [nw u ts iv sm fs]].

(** ** Progress display and step completion *)

Section LoaderFacts.
Import Loader.
Local Open Scope Q_scope.

Lemma orZero_eq (p : Q) : orZero p == p.
Proof.
  unfold orZero. destruct (Qeq_bool p 0) eqn:E.
  - apply Qeq_bool_iff in E. symmetry. exact E.
  - reflexivity.
Qed.

Lemma Math_min_le_l (a b : Q) : Math_min a b <= a.
Proof.
  unfold Math_min. destruct (Qle_bool a b) eqn:E.
  - apply Qle_refl.
  - apply Qlt_le_weak, Qnot_le_lt. intro H.
    apply Qle_bool_iff in H. congruence.
Qed.

Lemma Math_max_ge_l (a b : Q) : a <= Math_max a b.
Proof.
  unfold Math_max. destruct (Qle_bool a b) eqn:E.
  - apply Qle_bool_iff. exact E.
  - apply Qle_refl.
Qed.

Lemma Math_max_lub (a b c : Q) : a <= c -> b <= c -> Math_max a b <= c.
Proof. unfold Math_max. destruct (Qle_bool a b); auto. Qed.

Lemma clampPct_range (p : Q) : 0 <= clampPct p <= 100.
Proof.
  unfold clampPct. split.
  - apply Math_max_ge_l.
  - apply Math_max_lub; [ discriminate | apply Math_min_le_l ].
Qed.

Lemma nearest_range (x : Q) : 0 <= x <= 100 -> (0 <= nearest x <= 100)%Z.
Proof.
  intros [H0 H1]. unfold nearest. split.
  - change 0%Z with (Qfloor 0). apply Qfloor_resp_le.
    apply Qle_trans with x; [ exact H0 | ].
    rewrite <- (Qplus_0_r x) at 1. apply Qplus_le_r. discriminate.
  - change 100%Z with (Qfloor (100 + (1 # 2))). apply Qfloor_resp_le.
    apply Qplus_le_l. exact H1.
Qed.

Lemma nth_error_map_flags (flag : nat -> bool) (l : list ustring) :
  forall k i,
    nth_error (map_flags flag k l) i
    = option_map (fun s => (flag (k + i)%nat, s)) (nth_error l i).
Proof.
  induction l as [| s r IH]; intros k i.
  - destruct i; reflexivity.
  - destruct i as [| i]; simpl.
    + rewrite Nat.add_0_r. reflexivity.
    + rewrite IH. rewrite Nat.add_succ_r. reflexivity.
Qed.

Lemma nth_error_map_steps (p : Q) (n : nat) (l : list ustring) :
  forall k i,
    nth_error (map_steps p n k l) i
    = option_map (fun s => (done p (k + i) n, s)) (nth_error l i).
Proof. intros k i. apply (nth_error_map_flags (fun j => done p j n)). Qed.

Lemma done_exact_iff (p : Q) (i n : nat) :
  done_exact p i n = true <->
  inject_Z (Z.of_nat (i + 1)) / inject_Z (Z.of_nat n) * 100 - 1 <= p.
Proof.
  unfold done_exact, stepPct_exact. rewrite Qle_bool_iff. rewrite orZero_eq.
  reflexivity.
Qed.

Lemma Qle_bool_compat_r (a p q : Q) : p == q -> Qle_bool a p = Qle_bool a q.
Proof.
  intros E. destruct (Qle_bool a q) eqn:H.
  - apply Qle_bool_iff. rewrite E. apply Qle_bool_iff, H.
  - destruct (Qle_bool a p) eqn:H'; [ | reflexivity ].
    apply Qle_bool_iff in H'. rewrite E in H'. apply Qle_bool_iff in H'.
    congruence.
Qed.

(** The comparison does not see the difference between a number and
    [number || 0]. *)
Lemma reaches_orZero (p : Q) (f : spec_float) :
  reaches (orZero p) f = reaches p f.
Proof.
  destruct f as [s | s | | s m e]; simpl; try reflexivity;
    apply Qle_bool_compat_r, orZero_eq.
Qed.

Lemma done_reaches (p : Q) (i n : nat) : done p i n = reaches p (threshold i n).
Proof. unfold done. apply reaches_orZero. Qed.

Lemma reaches_value (p : Q) (i n : nat) (v : Q) :
  threshold_value i n = Some v -> (done p i n = true <-> v <= p).
Proof.
  rewrite done_reaches. unfold threshold_value.
  destruct (threshold i n) as [s | s | | s m e]; try discriminate;
    intros E; injection E as <-; simpl; apply Qle_bool_iff.
Qed.

Lemma reaches_mono (p p' : Q) (f : spec_float) :
  p <= p' -> reaches p f = true -> reaches p' f = true.
Proof.
  intros Hpp. destruct f as [s | s | | s m e]; simpl; try (exact (fun H => H));
    rewrite !Qle_bool_iff; intros H; eapply Qle_trans; eassumption.
Qed.

Lemma nth_error_stepItems (steps : list ustring) (p : Q) (i : nat) :
  nth_error (stepItems steps p) i
  = option_map (fun s => (done p i (List.length steps), s))
      (nth_error steps i).
Proof.
  unfold stepItems. destruct steps as [| s r].
  - destruct i; reflexivity.
  - cbn [List.length Nat.ltb Nat.leb]. apply (nth_error_map_steps p _ (s :: r) 0 i).
Qed.

Lemma nth_error_stepItems_exact (steps : list ustring) (p : Q) (i : nat) :
  nth_error (stepItems_exact steps p) i
  = option_map (fun s => (done_exact p i (List.length steps), s))
      (nth_error steps i).
Proof.
  unfold stepItems_exact. destruct steps as [| s r].
  - destruct i; reflexivity.
  - cbn [List.length Nat.ltb Nat.leb].
    apply (nth_error_map_flags
             (fun k => done_exact p k (List.length (s :: r))) (s :: r) 0 i).
Qed.

Lemma forallb_seq (f : nat -> bool) (a n i : nat) :
  forallb f (seq a n) = true -> (a <= i < a + n)%nat -> f i = true.
Proof.
  intros H Hi. rewrite forallb_forall in H. apply H. apply in_seq. exact Hi.
Qed.

Lemma thresholds_checked_spec (eps : Q) (n k : nat) :
  forall (i : nat) (prev : Q),
    thresholds_checked eps n i prev k = true ->
    prev <= 99
    /\ (forall j, (i <= j < i + k)%nat ->
          exists v, threshold_value j n = Some v
                    /\ near_exact eps j n v = true /\ prev <= v /\ v <= 99)
    /\ (forall j j' v v', (i <= j)%nat -> (j <= j')%nat -> (j' < i + k)%nat ->
          threshold_value j n = Some v -> threshold_value j' n = Some v' ->
          v <= v').
Proof.
  induction k as [| k IH]; intros i prev; cbn [thresholds_checked].
  - intros H. apply Qle_bool_iff in H.
    split; [ exact H | split ]; intros; lia.
  - destruct (threshold_value i n) as [v0 |] eqn:E0; [ | discriminate ].
    intros H. apply andb_prop in H. destruct H as [H Hrest].
    apply andb_prop in H. destruct H as [Hnear Hprev].
    apply Qle_bool_iff in Hprev.
    destruct (IH (S i) v0 Hrest) as [H99 [Hall Hord]].
    split; [ eapply Qle_trans; eassumption | split ].
    + intros j Hj. destruct (Nat.eq_dec j i) as [-> | Hne].
      * exists v0. auto.
      * destruct (Hall j ltac:(lia)) as [v [Ev [Hn [Hv0 Hv]]]].
        exists v. split; [ exact Ev | split; [ exact Hn | split ] ];
          [ eapply Qle_trans; eassumption | exact Hv ].
    + intros j j' v v' Hij Hjj Hj' Ev Ev'.
      destruct (Nat.eq_dec j i) as [-> | Hne].
      * rewrite E0 in Ev. injection Ev as <-.
        destruct (Nat.eq_dec j' i) as [-> | Hne'].
        -- rewrite E0 in Ev'. injection Ev' as <-. apply Qle_refl.
        -- destruct (Hall j' ltac:(lia)) as [w [Ew [_ [Hw _]]]].
           rewrite Ew in Ev'. injection Ev' as <-. exact Hw.
      * apply (Hord j j' v v'); try assumption; lia.
Qed.

(** The thresholds of the plans of at most 100 steps, computed. *)
Lemma plans_checked_100 :
  forallb (plan_checked threshold_eps) (seq 1 100) = true.
Proof. vm_compute. reflexivity. Qed.

Lemma plan_checked_100 (n : nat) :
  (1 <= n <= 100)%nat -> plan_checked threshold_eps n = true.
Proof.
  intros Hn. apply (forallb_seq _ 1 100 n plans_checked_100). lia.
Qed.

Lemma threshold_near (i n : nat) :
  (1 <= n <= 100)%nat -> (i < n)%nat ->
  exists v,
    threshold_value i n = Some v
    /\ stepPct_exact i n - 1 - threshold_eps <= v
    /\ v <= stepPct_exact i n - 1 + threshold_eps.
Proof.
  intros Hn Hi.
  destruct (thresholds_checked_spec _ _ _ _ _ (plan_checked_100 n Hn))
    as [_ [Hall _]].
  destruct (Hall i ltac:(lia)) as [v [Ev [Hc _]]].
  unfold near_exact in Hc.
  apply andb_prop in Hc. destruct Hc as [H1 H2].
  apply Qle_bool_iff in H1, H2. exists v. auto.
Qed.

(** In a plan of at most 100 steps the computed thresholds do not decrease
    from a step to a later one, and none exceeds 99. *)
Lemma threshold_ordered (i j n : nat) :
  (n <= 100)%nat -> (j <= i)%nat -> (i < n)%nat ->
  exists a b,
    threshold_value j n = Some a /\ threshold_value i n = Some b
    /\ a <= b /\ b <= 99.
Proof.
  intros Hn Hji Hi.
  destruct (thresholds_checked_spec _ _ _ _ _
              (plan_checked_100 n ltac:(lia))) as [_ [Hall Hord]].
  destruct (Hall j ltac:(lia)) as [a [Ea _]].
  destruct (Hall i ltac:(lia)) as [b [Eb [_ [_ Hb]]]].
  exists a, b. split; [ exact Ea | split; [ exact Eb | split ] ];
    [ apply (Hord j i a b); try assumption; lia | exact Hb ].
Qed.

End LoaderFacts.

(** C4, as stated, fails.  The code computes the threshold in binary64, and
    the computed threshold can lie above the exact one: with 20 steps the
    threshold of step 10 is 54.00000000000001, so that at progress 54 the
    code leaves the step not done, where the rule with the exact threshold
    ((10+1)/20)*100 - 1 = 54 marks it done. *)
Lemma exact_rule_differs :
  ~ step_rule_exact 54%Q 10 20
  /\ Loader.done 54%Q 10 20 = false
  /\ Loader.done_exact 54%Q 10 20 = true
  /\ Loader.threshold 10 20 = S754_finite false 7599824371187713 (-47).
Proof.
  split; [ | split; [ | split ] ]; try (vm_compute; reflexivity).
  unfold step_rule_exact. vm_compute. discriminate.
Qed.

(** C4, amended.  For a plan of N >= 1 steps and any progress value, the
    loader marks step i (counted from 0) done exactly when progress >= T,
    where T is the double that the code computes for ((i+1)/N)*100 - 1, each
    operation rounded to binary64.  For a plan of at most 100 steps T is a
    finite number within 10^-13 of the exact value of the expression, so that
    the flag is the one of the exact rule unless the progress value lies that
    close to the exact threshold.  With four steps and progress 60 the first
    two steps are done and the last two are not. *)
Theorem step_done_rule :
  (forall (steps : list ustring) (progress : Q) (i : nat),
      1 <= List.length steps -> i < List.length steps ->
      let N := List.length steps in
      let exact := (inject_Z (Z.of_nat (i + 1)) / inject_Z (Z.of_nat N)
                    * 100 - 1)%Q in
      exists (b : bool) (s : ustring),
        nth_error steps i = Some s /\
        nth_error (Loader.stepItems steps progress) i = Some (b, s) /\
        b = Loader.reaches progress (Loader.threshold i N) /\
        (N <= 100 ->
         exists T : Q,
           threshold_value i N = Some T
           /\ (exact - threshold_eps <= T)%Q
           /\ (T <= exact + threshold_eps)%Q
           /\ (b = true <-> (T <= progress)%Q)
           /\ ((exact + threshold_eps <= progress)%Q -> b = true)
           /\ ((progress < exact - threshold_eps)%Q -> b = false)))
  /\ (forall a b c d : ustring,
        Loader.stepItems [a; b; c; d] 60%Q
        = [(true, a); (true, b); (false, c); (false, d)]).
Proof.
  split.
  - intros steps progress i HN Hi N exact.
    destruct (nth_error steps i) as [s |] eqn:Es.
    + exists (Loader.done progress i N), s.
      split; [ reflexivity | split; [ | split ] ].
      * rewrite nth_error_stepItems, Es. reflexivity.
      * apply done_reaches.
      * intros H100.
        destruct (threshold_near i N ltac:(lia) Hi) as [T [HT [Hlo Hhi]]].
        exists T.
        pose proof (reaches_value progress i N T HT) as Hiff.
        split; [ exact HT | split; [ exact Hlo | split; [ exact Hhi | ] ] ].
        split; [ exact Hiff | split ].
        -- intros Hp. apply Hiff. eapply Qle_trans; eassumption.
        -- intros Hp. destruct (Loader.done progress i N) eqn:Ed;
             [ exfalso | reflexivity ].
           pose proof (proj1 Hiff eq_refl) as Hge.
           apply (Qlt_not_le _ _ Hp). eapply Qle_trans; eassumption.
    + apply nth_error_None in Es. lia.
  - intros a b c d. reflexivity.
Qed.

Lemma step_done_rule_witness :
  let exact := (inject_Z (Z.of_nat (10 + 1)) / inject_Z (Z.of_nat 20)
                * 100 - 1)%Q in
  exists (b : bool) (s : ustring),
    nth_error (repeat "step" 20) 10 = Some s /\
    nth_error (Loader.stepItems (repeat "step" 20) 54%Q) 10 = Some (b, s) /\
    b = Loader.reaches 54%Q (Loader.threshold 10 20) /\
    (20 <= 100 ->
     exists T : Q,
       threshold_value 10 20 = Some T
       /\ (exact - threshold_eps <= T)%Q
       /\ (T <= exact + threshold_eps)%Q
       /\ (b = true <-> (T <= 54)%Q)
       /\ ((exact + threshold_eps <= 54)%Q -> b = true)
       /\ ((54 < exact - threshold_eps)%Q -> b = false)).
Proof.
  apply (proj1 step_done_rule (repeat "step" 20) 54%Q 10); simpl; lia.
Defined.

(** The progress listener stores the percentage as it was received. *)
Lemma progress_listener_stores (id : ustring) (es : nat) (p : Q) (st : State) :
  progress (run (listener id es (ev_progress (Some p)) st)) = p.
Proof. destruct_state st. reflexivity. Qed.



(** ** Persistence *)

Section StorageFacts.
Import Storage.
Variable value : Type.
Variable empty_array : value.
Variable JSON_parse : ustring -> completion value.
Variable JSON_stringify : value -> completion ustring.
Hypothesis parse_brackets : JSON_parse "[]" = Normal empty_array.

Let load := loadSessions value empty_array JSON_parse.
Let save := saveSessions value JSON_stringify.

Lemma load_returns (ls : LocalStorage) : returns (load ls).
Proof.
  unfold load, loadSessions, getItem, returns.
  destruct (accessible ls); simpl.
  - destruct (JSON_parse (or_brackets _)); eexists; reflexivity.
  - eexists; reflexivity.
Qed.

Lemma load_unreadable (ls : LocalStorage) :
  accessible ls = false -> load ls = Normal empty_array.
Proof.
  intros H. unfold load, loadSessions, getItem. rewrite H. reflexivity.
Qed.

Lemma load_absent (ls : LocalStorage) :
  lookup STORAGE_KEY (items ls) = None -> load ls = Normal empty_array.
Proof.
  intros H. unfold load, loadSessions, getItem.
  destruct (accessible ls); simpl; [ | reflexivity ].
  rewrite H. simpl. rewrite parse_brackets. reflexivity.
Qed.

Lemma load_corrupt (ls : LocalStorage) (t : ustring) (e : exn) :
  lookup STORAGE_KEY (items ls) = Some t -> JSON_parse t = Throw e ->
  load ls = Normal empty_array.
Proof.
  intros H Ht. unfold load, loadSessions, getItem.
  destruct (accessible ls); simpl; [ | reflexivity ].
  rewrite H. simpl. destruct t as [| c r]; unfold Util.or_else; simpl.
  - rewrite parse_brackets. reflexivity.
  - rewrite Ht. reflexivity.
Qed.

Lemma save_returns (s : value) (ls : LocalStorage) :
  fst (save s ls) = Normal tt.
Proof.
  unfold save, saveSessions.
  destruct (JSON_stringify s) as [text | e]; [ | reflexivity ].
  destruct (setItem STORAGE_KEY text ls) as [[[] | e] ls']; reflexivity.
Qed.

Lemma setItem_throw_keeps (k v : ustring) (ls : LocalStorage) (e : exn) :
  fst (setItem k v ls) = Throw e -> snd (setItem k v ls) = ls.
Proof.
  unfold setItem. destruct (negb (accessible ls)); [ reflexivity | ].
  destruct (quota ls <? UString.length v); [ reflexivity | ].
  simpl. discriminate.
Qed.

Lemma save_failure_keeps (s : value) (ls : LocalStorage) :
  (exists e, JSON_stringify s = Throw e) \/
  (exists text e, JSON_stringify s = Normal text /\
                  fst (setItem STORAGE_KEY text ls) = Throw e) ->
  snd (save s ls) = ls.
Proof.
  unfold save, saveSessions. intros [[e H] | [text [e [H Hs]]]]; rewrite H.
  - reflexivity.
  - pose proof (setItem_throw_keeps _ _ _ _ Hs) as Hk.
    destruct (setItem STORAGE_KEY text ls) as [[u | e'] ls']; simpl in *.
    + discriminate.
    + exact Hk.
Qed.

Lemma load_parsed (ls : LocalStorage) (t : ustring) (v : value) :
  accessible ls = true ->
  lookup STORAGE_KEY (items ls) = Some t -> t <> "" ->
  JSON_parse t = Normal v ->
  load ls = Normal v.
Proof.
  intros Ha Hl Hne Hp. unfold load, loadSessions, getItem.
  rewrite Ha. cbn [bind]. rewrite Hl. unfold or_brackets, Util.or_else.
  destruct t as [| c r]; [ congruence | ].
  cbn [Util.truthy]. rewrite Hp. reflexivity.
Qed.

Lemma load_empty_text (ls : LocalStorage) :
  lookup STORAGE_KEY (items ls) = Some "" -> load ls = Normal empty_array.
Proof.
  intros Hl. unfold load, loadSessions, getItem.
  destruct (accessible ls); [ | reflexivity ].
  cbn [bind]. rewrite Hl. unfold or_brackets, Util.or_else.
  cbn [Util.truthy]. rewrite parse_brackets. reflexivity.
Qed.

End StorageFacts.




(** ** Sessions *)

Lemma other_than_true (id : ustring) (s : Session.t) :
  other_than id s = true <-> Session.id s <> id.
Proof.
  unfold other_than. rewrite negb_true_iff. apply UStringFacts.eqb_neq.
Qed.

Lemma truthy_nonempty (s : ustring) : s <> "" -> Util.truthy s = true.
Proof. destruct s; [ congruence | reflexivity ]. Qed.

Lemma sessions_deleteSession (id : ustring) (st : State) :
  sessions (store (deleteSession id st))
  = filter (other_than id) (sessions (store st)).
Proof.
  destruct_state st. unfold deleteSession. simpl.
  destruct cid as [c |]; [ | reflexivity ].
  destruct (UString.eqb c id); reflexivity.
Qed.

Lemma currentId_deleteSession_current (id : ustring) (st : State) :
  currentId (store st) = Some id ->
  currentId (store (deleteSession id st))
  = id_or_null (find (other_than id) (sessions (store st))).
Proof.
  destruct_state st. simpl. intros H. unfold deleteSession. simpl.
  rewrite H, UStringFacts.eqb_refl. reflexivity.
Qed.

Lemma filter_none_other (id : ustring) (l : list Session.t) :
  (forall s, In s l -> Session.id s = id) -> filter (other_than id) l = [].
Proof.
  induction l as [| s r IH]; intros Hall; [ reflexivity | ].
  simpl. replace (other_than id s) with false.
  - apply IH. intros x Hx. apply Hall. right. exact Hx.
  - symmetry. unfold other_than.
    rewrite (Hall s (or_introl eq_refl)), UStringFacts.eqb_refl. reflexivity.
Qed.

(** C9.  Deleting the selected session removes it from the list and moves
    the selection to a session that remains, when there is one, and to none
    otherwise.  Session ids are the non-empty texts that [uid] makes. *)
Theorem delete_selected_session :
  forall (st : State) (id : ustring),
    currentId (store st) = Some id ->
    Forall (fun s => Session.id s <> "") (sessions (store st)) ->
    let st' := deleteSession id st in
    sessions (store st') = filter (other_than id) (sessions (store st))
    /\ (forall s, In s (sessions (store st')) -> Session.id s <> id)
    /\ ((exists s, In s (sessions (store st)) /\ Session.id s <> id) ->
        exists s', In s' (sessions (store st')) /\
                   Session.id s' <> id /\
                   currentId (store st') = Some (Session.id s'))
    /\ ((forall s, In s (sessions (store st)) -> Session.id s = id) ->
        sessions (store st') = [] /\ currentId (store st') = None).
Proof.
  intros st id Hcur Hids st'. subst st'.
  rewrite sessions_deleteSession, (currentId_deleteSession_current _ _ Hcur).
  split; [ reflexivity | split; [ | split ] ].
  - intros s Hs. apply filter_In in Hs. apply other_than_true, Hs.
  - intros [s [Hin Hne]].
    destruct (find (other_than id) (sessions (store st))) as [s' |] eqn:Ef.
    + apply find_some in Ef. destruct Ef as [Hin' Hot].
      exists s'. split; [ | split ].
      * apply filter_In. split; assumption.
      * apply other_than_true, Hot.
      * simpl. rewrite truthy_nonempty; [ reflexivity | ].
        rewrite Forall_forall in Hids. apply Hids, Hin'.
    + exfalso. apply (find_none _ _ Ef) in Hin.
      apply other_than_true in Hne. congruence.
  - intros Hall. split.
    + apply filter_none_other. exact Hall.
    + destruct (find (other_than id) (sessions (store st))) as [s' |] eqn:Ef;
        [ | reflexivity ].
      apply find_some in Ef. destruct Ef as [Hin Hot].
      apply other_than_true in Hot. elim Hot. apply Hall, Hin.
Qed.

Lemma delete_selected_session_witness :
  let a := Session.mk "m_1_0" "first" thorough [] [] 1 in
  let b := Session.mk "m_2_1" "second" fast [] [] 2 in
  let st := setCurrentId (Some "m_1_0") (init [a; b] 5) in
  sessions (store (deleteSession "m_1_0" st)) = [b]
  /\ currentId (store (deleteSession "m_1_0" st)) = Some "m_2_1".
Proof.
  intros a b st.
  assert (Hids : Forall (fun s => Session.id s <> "") (sessions (store st))).
  { repeat constructor; discriminate. }
  destruct (delete_selected_session st "m_1_0" eq_refl Hids)
    as [Hl [_ [Hsel _]]].
  split; [ exact Hl | ].
  destruct Hsel as [s' [Hin [_ Hc]]].
  - exists b. split; [ right; left; reflexivity | discriminate ].
  - rewrite Hc. rewrite Hl in Hin. simpl in Hin.
    destruct Hin as [<- | []]. reflexivity.
Defined.

Lemma map_session_absent (id : ustring) (f : Session.t -> Session.t)
    (l : list Session.t) :
  (forall s, In s l -> Session.id s <> id) -> map_session id f l = l.
Proof.
  unfold map_session. induction l as [| s r IH]; intros H; [ reflexivity | ].
  simpl. replace (UString.eqb (Session.id s) id) with false.
  - f_equal. apply IH. intros x Hx. apply H. right. exact Hx.
  - symmetry. apply UStringFacts.eqb_neq. apply H. left. reflexivity.
Qed.

Lemma map_fresh_absent (id : ustring) (f : ustring -> Session.t -> Session.t)
    (nw ctr : N) (l : list Session.t) :
  (forall s, In s l -> Session.id s <> id) -> map_fresh id f nw ctr l = (l, ctr).
Proof.
  induction l as [| s r IH]; intros H; [ reflexivity | ].
  simpl. replace (UString.eqb (Session.id s) id) with false.
  - rewrite IH; [ reflexivity | ]. intros x Hx. apply H. right. exact Hx.
  - symmetry. apply UStringFacts.eqb_neq. apply H. left. reflexivity.
Qed.

Lemma appendTrace_absent (id : ustring) (ev : TraceEvent) (st : State) :
  (forall s, In s (sessions (store st)) -> Session.id s <> id) ->
  appendTrace id ev st = st.
Proof.
  intros H. destruct_state st. simpl in H.
  unfold appendTrace, setSessions, on_store. simpl.
  rewrite (map_session_absent _ _ _ H). reflexivity.
Qed.

Lemma setSessions_fresh_absent (id : ustring)
    (f : ustring -> Session.t -> Session.t) (st : State) :
  (forall s, In s (sessions (store st)) -> Session.id s <> id) ->
  setSessions_fresh id f st = st.
Proof.
  intros H. destruct_state st. simpl in H.
  unfold setSessions_fresh. simpl. rewrite (map_fresh_absent _ _ _ _ _ H).
  reflexivity.
Qed.

(** C10.  A trace event or a final answer addressed to a session id that is
    not in the list changes no session: [appendTrace] returns the state it
    was given, and every listener of a run whose session is gone leaves the
    session list, the selection and the uid counter as they were. *)
Theorem absent_owner_discarded :
  forall (st : State) (id : ustring),
    (forall s, In s (sessions (store st)) -> Session.id s <> id) ->
    (forall ev, appendTrace id ev st = st)
    /\ (forall es e, store (listener id es e st) = store st)
    /\ (forall es answer cits,
          let st' := listener id es (ev_final answer cits) st in
          sessions (store st') = sessions (store st)
          /\ uidCounter (env st') = uidCounter (env st)
          /\ status (run st') = done).
Proof.
  intros st id H. split; [ | split ].
  - intros ev. apply appendTrace_absent. exact H.
  - intros es e.
    destruct e as [i sp | p | x | d | d | d | d | d | answer cits | | ];
      unfold listener;
      try (rewrite setSessions_fresh_absent by exact H);
      try (rewrite appendTrace_absent by exact H);
      try reflexivity.
    + rewrite appendTrace_absent; [ destruct_state st; reflexivity | ].
      destruct_state st. exact H.
    + destruct p; [ destruct_state st | ]; reflexivity.
    + rewrite appendTrace_absent; [ destruct_state st; reflexivity | ].
      destruct_state st. exact H.
    + destruct_state st. unfold stopTimer. simpl.
      destruct tr; reflexivity.
    + destruct_state st. unfold stopTimer. simpl.
      destruct tr; reflexivity.
  - intros es answer cits. unfold listener.
    rewrite setSessions_fresh_absent by exact H.
    destruct_state st. unfold stopTimer. simpl.
    destruct tr; simpl; auto.
Qed.

Lemma absent_owner_discarded_witness :
  let st := init [Session.mk "m_1_0" "kept" thorough [] [] 1] 7 in
  appendTrace "m_9_9" network_error st = st
  /\ sessions (store (listener "m_9_9" 0 (ev_final "X" (Some ["https://a"])) st))
     = sessions (store st).
Proof.
  intros st.
  assert (H : forall s, In s (sessions (store st)) -> Session.id s <> "m_9_9").
  { intros s [<- | []]. discriminate. }
  destruct (absent_owner_discarded st "m_9_9" H) as [Ha [_ Hf]].
  split; [ apply Ha | apply (Hf 0 "X" (Some ["https://a"])) ].
Defined.

(** ** Handles are never reused and dead entries stay dead *)

Section Tables.
Context {A : Type} (live : A -> bool).

Lemma table_ext_refl (l : list A) : table_ext live l l.
Proof. intros h x Hx. exists x. auto. Qed.

Lemma table_ext_trans (l1 l2 l3 : list A) :
  table_ext live l1 l2 -> table_ext live l2 l3 -> table_ext live l1 l3.
Proof.
  intros H12 H23 h x Hx.
  destruct (H12 h x Hx) as [y [Hy Hd]].
  destruct (H23 h y Hy) as [z [Hz Hd']].
  exists z. auto.
Qed.

Lemma table_ext_app (l : list A) (x : A) : table_ext live l (l ++ [x]).
Proof.
  intros h y Hy. exists y. split; [ | auto ].
  rewrite nth_error_app1; [ exact Hy | ].
  apply nth_error_Some. congruence.
Qed.

Lemma nth_error_update (f : A -> A) (l : list A) :
  forall n h,
    nth_error (update n f l) h
    = if h =? n then option_map f (nth_error l h) else nth_error l h.
Proof.
  induction l as [| x r IH]; intros n h.
  - replace (update n f []) with (@nil A) by (destruct n; reflexivity).
    destruct h as [| h]; [ destruct (0 =? n) | destruct (S h =? n) ];
      reflexivity.
  - destruct n as [| n], h as [| h]; simpl; try reflexivity.
    apply IH.
Qed.

Lemma length_update (f : A -> A) (l : list A) :
  forall n, List.length (update n f l) = List.length l.
Proof.
  induction l as [| x r IH]; intros [| n]; simpl; auto.
Qed.

Lemma table_ext_update (f : A -> A) (l : list A) (n : nat) :
  (forall x, live x = false -> live (f x) = false) ->
  table_ext live l (update n f l).
Proof.
  intros Hf h x Hx. rewrite nth_error_update, Hx.
  destruct (h =? n); simpl; eauto.
Qed.

End Tables.

Lemma ext_refl (st : State) : ext st st.
Proof. repeat split; apply table_ext_refl. Qed.

Lemma ext_trans (s1 s2 s3 : State) : ext s1 s2 -> ext s2 s3 -> ext s1 s3.
Proof.
  intros [A1 [B1 [C1 D1]]] [A2 [B2 [C2 D2]]].
  repeat split; eapply table_ext_trans; eassumption.
Qed.

(** A table against one obtained from it by clearing entries and adding
    new ones at the end. *)
Ltac tables :=
  lazymatch goal with
  | |- table_ext _ ?l ?l => apply table_ext_refl
  | |- table_ext _ _ (_ ++ [_])%list =>
      eapply table_ext_trans; [ | apply table_ext_app ]; tables
  | |- table_ext _ _ (update _ _ _) =>
      eapply table_ext_trans;
      [ | apply table_ext_update; intros; reflexivity ]; tables
  end.

(** Reduce the handlers and the setters on a state given by its fields,
    and nothing else: list and text functions stay folded. *)
Ltac app_red :=
  lazy beta iota zeta delta
    [send ensureSession current fresh_uid startTimer stopTimer stopRun
     setInterval clearInterval close newEventSource setTimeout clearTimeout
     fetch setSessions_fresh listener appendTrace renameSession deleteSession
     newChat requestAutocorrect run_callback onChange onResponse onTick
     pickMode interval_live
     setSessions setCurrentId setMode setStatus setElapsed setPlan setProgress
     setStatusLine setQuestion setAutoCorrectOn setSuggestion setSuggestLoading
     setAc set_suggestTimerRef set_esRef set_runIdRef set_timerRef set_t0Ref
     set_now set_uidCounter set_timeouts set_intervals set_streams set_fetches
     on_store on_run on_composer on_refs on_env
     store run composer refs env
     sessions currentId mode status elapsed plan progress statusLine
     question autoCorrectOn suggestion suggestLoading ac
     suggestTimerRef esRef runIdRef timerRef t0Ref
     now uidCounter timeouts intervals streams fetches
     negb fst snd Util.uid].

(** [ext] between two states given by their fields. *)
Ltac ext_fields := unfold ext, env_ext; app_red; repeat split; tables.

Lemma ext_setTimeout (c : callback) (d : N) (st : State) :
  ext st (snd (setTimeout c d st)).
Proof. destruct_state st. ext_fields. Qed.

Lemma ext_clearTimeout (h : nat) (st : State) : ext st (clearTimeout h st).
Proof. destruct_state st. ext_fields. Qed.

Lemma ext_clearInterval (h : nat) (st : State) : ext st (clearInterval h st).
Proof. destruct_state st. ext_fields. Qed.

Lemma ext_close (h : nat) (st : State) : ext st (close h st).
Proof. destruct_state st. ext_fields. Qed.

Lemma ext_fetch (text : ustring) (st : State) : ext st (fetch text st).
Proof. destruct_state st. ext_fields. Qed.

Lemma ext_stopTimer (st : State) : ext st (stopTimer st).
Proof.
  unfold stopTimer. destruct (timerRef (refs st));
    [ apply ext_clearInterval | apply ext_refl ].
Qed.

Lemma ext_stopRun (st : State) : ext st (stopRun st).
Proof.
  destruct_state st.
  destruct esr as [h |], tr as [t |], rid as [id |]; app_red;
    try (destruct (Util.truthy id)); ext_fields.
Qed.

Lemma ext_requestAutocorrect (text : ustring) (st : State) :
  ext st (requestAutocorrect text st).
Proof.
  destruct_state st. destruct on, str as [h |]; ext_fields.
Qed.

Lemma ext_run_callback (c : callback) (st : State) : ext st (run_callback c st).
Proof. destruct_state st. destruct c as [text |]; ext_fields. Qed.

Lemma ext_onResponse (h : nat) (res : option (option ustring)) (st : State) :
  ext st (onResponse h res st).
Proof.
  destruct_state st. app_red.
  destruct (nth_error fs h) as [f |]; [ | apply ext_refl ].
  destruct (inflight f); [ | apply ext_refl ].
  ext_fields.
Qed.

Lemma ext_onChange (v : ustring) (st : State) : ext st (onChange v st).
Proof.
  destruct_state st. app_red.
  destruct (3 <=? UString.length (Util.trim v));
    [ destruct on, str as [h |] | ]; ext_fields.
Qed.

Lemma ext_fire_due (fuel : nat) : forall st, ext st (fire_due fuel st).
Proof.
  induction fuel as [| k IH]; intros st; simpl; [ apply ext_refl | ].
  destruct (next_due _ _ _) as [[h d] |]; [ | apply ext_refl ].
  destruct (nth_error _ h) as [t |]; [ | apply ext_refl ].
  eapply ext_trans; [ | apply IH ].
  eapply ext_trans; [ apply (ext_clearTimeout h) | apply ext_run_callback ].
Qed.

Lemma ext_advance (d : N) (st : State) : ext st (advance d st).
Proof.
  unfold advance. eapply ext_trans; [ | apply ext_fire_due ].
  destruct_state st. ext_fields.
Qed.

(** [send] as one record: what every field is after a submit of a
    non-empty text.  [ss0] is the session list once [ensureSession] has run;
    the session of the run is in it. *)
Lemma send_shape (st : State) :
  Util.truthy (Util.trim (question (composer st))) = true ->
  let r := resolve (autoCorrectOn (composer st)) (suggestion (composer st))
             (Util.trim (question (composer st))) in
  exists id ss0 ctr0 cid',
    send st =
      mkState
        (mkStore (fst (map_fresh id (begin_turn (fst r)) (now (env st)) ctr0 ss0))
           cid' (mode (store st)))
        (mkRun thinking 0 (mkPlan None []) 0 "")
        (mkComposer "" (autoCorrectOn (composer st)) ""
           (suggestLoading (composer st)) (snd r))
        (mkRefs (suggestTimerRef (refs st))
           (Some (List.length (streams (env st)))) (Some id)
           (Some (List.length (intervals (env st)))) (now (env st)))
        (mkEnv (now (env st))
           (snd (map_fresh id (begin_turn (fst r)) (now (env st)) ctr0 ss0))
           (timeouts (env st))
           (match timerRef (refs st) with
            | Some t => update t (fun _ => false) (intervals (env st))
            | None => intervals (env st)
            end ++ [true])%list
           (match esRef (refs st) with
            | Some h => update h (fun s => mkStream (owner s) (sq s) (smode s) false)
                          (streams (env st))
            | None => streams (env st)
            end ++ [mkStream id (fst r) (mode (store st)) true])%list
           (fetches (env st)))
    /\ exists s0, In s0 ss0 /\ Session.id s0 = id.
Proof.
  destruct_state st. app_red.
  intros Ht. rewrite Ht.
  destruct (resolve on sg (Util.trim qu)) as [q a] eqn:Er.
  app_red.
  destruct cid as [c |];
    [ destruct (find (fun s => UString.eqb (Session.id s) c) ss) as [cur |] eqn:Ef | ];
    app_red;
    destruct (map_fresh _ _ _ _ _) as [l' c'] eqn:Em;
    app_red;
    destruct tr as [t |], esr as [h |]; app_red; rewrite ?length_update;
    do 4 eexists;
    (split; [ rewrite Em; reflexivity | ]).
  1-4: apply find_some in Ef; destruct Ef as [Hin _]; eauto.
  all: eexists; split; [ left; reflexivity | reflexivity ].
Qed.

Lemma send_streams (st : State) :
  Util.truthy (Util.trim (question (composer st))) = true ->
  exists id q,
    streams (env (send st))
    = (match esRef (refs st) with
       | Some h => update h (fun s => mkStream (owner s) (sq s) (smode s) false)
                     (streams (env st))
       | None => streams (env st)
       end ++ [mkStream id q (mode (store st)) true])%list
    /\ esRef (refs (send st)) = Some (List.length (streams (env st))).
Proof.
  intros Ht. destruct (send_shape st Ht) as [id [ss0 [ctr0 [cid' [E _]]]]].
  rewrite E. do 2 eexists. split; reflexivity.
Qed.

Lemma send_intervals (st : State) :
  Util.truthy (Util.trim (question (composer st))) = true ->
  intervals (env (send st))
  = (match timerRef (refs st) with
     | Some t => update t (fun _ => false) (intervals (env st))
     | None => intervals (env st)
     end ++ [true])%list
  /\ timerRef (refs (send st)) = Some (List.length (intervals (env st))).
Proof.
  intros Ht. destruct (send_shape st Ht) as [id [ss0 [ctr0 [cid' [E _]]]]].
  rewrite E. split; reflexivity.
Qed.

Lemma ext_send (st : State) : ext st (send st).
Proof.
  destruct (Util.truthy (Util.trim (question (composer st)))) eqn:Ht.
  - destruct (send_shape st Ht) as [id [ss0 [ctr0 [cid' [E _]]]]].
    rewrite E. unfold ext, env_ext. cbn [env timeouts intervals streams fetches].
    repeat split.
    + apply table_ext_refl.
    + eapply table_ext_trans; [ | apply table_ext_app ].
      destruct (timerRef (refs st));
        [ apply table_ext_update; reflexivity | apply table_ext_refl ].
    + eapply table_ext_trans; [ | apply table_ext_app ].
      destruct (esRef (refs st));
        [ apply table_ext_update; reflexivity | apply table_ext_refl ].
    + apply table_ext_refl.
  - unfold send. rewrite Ht. apply ext_refl.
Qed.

Lemma ext_listener (id : ustring) (es : nat) (e : stream_event) (st : State) :
  ext st (listener id es e st).
Proof.
  destruct_state st.
  destruct e as [i sp | p | x | d | d | d | d | d | answer cits | | ];
    try solve [ ext_fields ].
  - destruct p; ext_fields.
  - app_red. destruct (map_fresh _ _ _ _ _) as [l' c'].
    destruct tr as [t |]; ext_fields.
  - destruct tr as [t |]; ext_fields.
Qed.

(** Every event only continues the tables. *)
Lemma ext_step (ev : event) (st : State) : ext st (step ev st).
Proof.
  destruct ev; simpl.
  - apply ext_onChange.
  - apply ext_send.
  - destruct (is_thinking st); [ apply ext_stopRun | apply ext_refl ].
  - unfold onEscape.
    destruct (is_thinking st); [ apply ext_stopRun | apply ext_refl ].
  - destruct_state st. ext_fields.
  - destruct (listed _ _); [ | apply ext_refl ]. destruct_state st. ext_fields.
  - destruct (listed _ _); [ | apply ext_refl ].
    destruct_state st.
    destruct cid as [c |]; app_red; [ destruct (UString.eqb c id) | ]; ext_fields.
  - destruct (listed _ _); [ | apply ext_refl ]. destruct_state st. ext_fields.
  - destruct_state st.
    destruct md, m; app_red; try apply ext_refl;
      (destruct cid as [c |]; app_red; [ destruct (Util.truthy c) | ]; ext_fields).
  - destruct_state st. ext_fields.
  - destruct (_ && _); [ | apply ext_refl ]. destruct_state st. ext_fields.
  - destruct (_ && _); [ | apply ext_refl ]. destruct_state st. ext_fields.
  - destruct (ac (composer st)); [ | apply ext_refl ].
    destruct_state st. ext_fields.
  - destruct_state st. ext_fields.
  - apply ext_advance.
  - unfold onTick. destruct (interval_live h st); [ | apply ext_refl ].
    destruct_state st. ext_fields.
  - apply ext_onResponse.
  - unfold deliver. destruct (nth_error _ h) as [s |]; [ | apply ext_refl ].
    destruct (open s); [ apply ext_listener | apply ext_refl ].
Qed.

Lemma ext_run_events (evs : list event) :
  forall st, ext st (run_events evs st).
Proof.
  induction evs as [| ev r IH]; intros st; simpl; [ apply ext_refl | ].
  eapply ext_trans; [ apply ext_step | apply IH ].
Qed.

Lemma closed_stays_closed (st st' : State) (h : nat) :
  ext st st' -> h < List.length (streams (env st)) ->
  stream_open h st = false -> stream_open h st' = false.
Proof.
  intros [_ [_ [Hs _]]] Hh. unfold stream_open.
  destruct (nth_error (streams (env st)) h) as [s |] eqn:E.
  - intros Hc. destruct (Hs h s E) as [s' [E' Hd]]. rewrite E'. auto.
  - apply nth_error_None in E. lia.
Qed.

Lemma cleared_interval_stays (st st' : State) (t : nat) :
  ext st st' -> t < List.length (intervals (env st)) ->
  interval_live t st = false -> interval_live t st' = false.
Proof.
  intros [_ [Hi _]] Ht. unfold interval_live.
  destruct (nth_error (intervals (env st)) t) as [b |] eqn:E.
  - rewrite (nth_error_nth _ _ _ E). intros Hb.
    destruct (Hi t b E) as [b' [E' Hd]].
    rewrite (nth_error_nth _ _ _ E'). auto.
  - apply nth_error_None in E. lia.
Qed.

Lemma cleared_timeout_stays (st st' : State) (h : nat) :
  ext st st' -> h < List.length (timeouts (env st)) ->
  timeout_pending h st = false -> timeout_pending h st' = false.
Proof.
  intros [Ht _] Hh. unfold timeout_pending.
  destruct (nth_error (timeouts (env st)) h) as [t |] eqn:E.
  - intros Hc. destruct (Ht h t E) as [t' [E' Hd]]. rewrite E'. auto.
  - apply nth_error_None in E. lia.
Qed.

(** ** Stopping a run *)

Lemma update_update {A} (f : A -> A) (l : list A) :
  (forall x, f (f x) = f x) ->
  forall n, update n f (update n f l) = update n f l.
Proof.
  intros Hf. induction l as [| x r IH]; intros n.
  - destruct n; reflexivity.
  - destruct n as [| n]; simpl.
    + rewrite Hf. reflexivity.
    + rewrite IH. reflexivity.
Qed.

Lemma status_stopRun (st : State) : status (run (stopRun st)) = stopped.
Proof.
  destruct_state st.
  destruct esr as [h |], tr as [t |], rid as [id |]; app_red;
    try (destruct (Util.truthy id)); reflexivity.
Qed.

Lemma onEscape_idle (st : State) : is_thinking st = false -> onEscape st = st.
Proof. intros H. unfold onEscape. rewrite H. reflexivity. Qed.

Lemma onEscape_twice (st : State) : onEscape (onEscape st) = onEscape st.
Proof.
  unfold onEscape at 2 3. destruct (is_thinking st) eqn:E.
  - apply onEscape_idle. unfold is_thinking. rewrite status_stopRun. reflexivity.
  - apply onEscape_idle. exact E.
Qed.

Lemma stopRun_again (st : State) :
  stopRun (stopRun st) = stop_again (runIdRef (refs st)) (stopRun st).
Proof.
  destruct_state st. unfold stop_again.
  destruct esr as [h |], tr as [t |], rid as [id |]; app_red;
    try (destruct (Util.truthy id) eqn:E; app_red; rewrite ?E; app_red);
    rewrite ?update_update by (intros; reflexivity); reflexivity.
Qed.

Lemma stop_again_frame (r : option ustring) (st : State) :
  run (stop_again r st) = run st
  /\ refs (stop_again r st) = refs st
  /\ env (stop_again r st) = env st.
Proof.
  destruct_state st. unfold stop_again.
  destruct r as [id |]; [ destruct (Util.truthy id) | ]; auto.
Qed.

(** C2, as stated, fails for [stopRun] itself: after a run was started, a
    second call appends a second "Stopped by user" entry to the session's
    trace; and on the first render, with no run at all, a call turns the
    status from idle to stopped. *)
Lemma stopRun_not_idempotent :
  ~ stop_twice_same (run_events [TextChange "q1"; Submit] (init [] 1000))
  /\ ~ stop_idle_noop (init [] 1000).
Proof.
  split.
  - unfold stop_twice_same. intros H.
    apply (f_equal (fun s => map (fun x => List.length (Session.trace x))
                               (sessions (store s)))) in H.
    vm_compute in H. discriminate.
  - unfold stop_idle_noop. intros H.
    specialize (H eq_refl).
    apply (f_equal (fun s => status (run s))) in H. discriminate.
Qed.

(** C2, amended.  Stop reaches [stopRun] only through the Stop button and
    the Escape key, both gated on a thinking run: with no thinking run the
    gated stop changes nothing, and a second gated stop changes nothing
    beyond the first.  [stopRun] called again leaves status, stream, timers
    and refs as its first call left them and only appends one more
    "Stopped by user" entry to the trace of the session of the last run. *)
Theorem gated_stop_idempotent :
  forall st : State,
    (is_thinking st = false ->
       step EscapeKey st = st /\ step StopClick st = st)
    /\ step EscapeKey (step EscapeKey st) = step EscapeKey st
    /\ step StopClick (step StopClick st) = step StopClick st
    /\ step StopClick (step EscapeKey st) = step EscapeKey st
    /\ stopRun (stopRun st) = stop_again (runIdRef (refs st)) (stopRun st)
    /\ run (stopRun (stopRun st)) = run (stopRun st)
    /\ refs (stopRun (stopRun st)) = refs (stopRun st)
    /\ env (stopRun (stopRun st)) = env (stopRun st).
Proof.
  intros st.
  assert (Hagain := stopRun_again st).
  repeat split.
  - apply onEscape_idle. assumption.
  - apply onEscape_idle. assumption.
  - apply onEscape_twice.
  - apply onEscape_twice.
  - apply onEscape_twice.
  - exact Hagain.
  - rewrite Hagain. apply stop_again_frame.
  - rewrite Hagain. apply stop_again_frame.
  - rewrite Hagain. apply stop_again_frame.
Qed.

Lemma gated_stop_idempotent_witness :
  let st := init [] 1000 in
  step EscapeKey st = st /\ step StopClick st = st.
Proof.
  intros st. apply (proj1 (gated_stop_idempotent st)). reflexivity.
Defined.

(** ** Submitting with a pending suggestion *)

Lemma map_fresh_In (id : ustring) (f : ustring -> Session.t -> Session.t)
    (nw : N) (l : list Session.t) :
  forall ctr s,
    In s (fst (map_fresh id f nw ctr l)) ->
    (In s l /\ Session.id s <> id)
    \/ (exists u s0, In s0 l /\ Session.id s0 = id /\ s = f u s0).
Proof.
  induction l as [| x r IH]; intros ctr s; simpl; [ tauto | ].
  destruct (UString.eqb (Session.id x) id) eqn:E.
  - destruct (map_fresh id f nw (ctr + 1) r) as [r' c2] eqn:Er. simpl.
    intros [<- | Hin].
    + right. exists ("m_" ++ Util.dec nw ++ "_" ++ Util.dec ctr), x.
      apply UStringFacts.eqb_eq in E. auto.
    + specialize (IH (ctr + 1)%N s). rewrite Er in IH.
      destruct (IH Hin) as [[H1 H2] | [u [s0 [H1 [H2 H3]]]]]; [ left | right ];
        eauto 6.
  - destruct (map_fresh id f nw ctr r) as [r' c2] eqn:Er. simpl.
    intros [<- | Hin].
    + left. apply UStringFacts.eqb_neq in E. auto.
    + specialize (IH ctr s). rewrite Er in IH.
      destruct (IH Hin) as [[H1 H2] | [u [s0 [H1 [H2 H3]]]]]; [ left | right ];
        eauto 6.
Qed.

Lemma map_fresh_hit (id : ustring) (f : ustring -> Session.t -> Session.t)
    (nw : N) (l : list Session.t) (s0 : Session.t) :
  In s0 l -> Session.id s0 = id ->
  forall ctr, exists u, In (f u s0) (fst (map_fresh id f nw ctr l)).
Proof.
  induction l as [| x r IH]; intros Hin Hid ctr; simpl in *; [ tauto | ].
  destruct Hin as [-> | Hin].
  - rewrite Hid, UStringFacts.eqb_refl.
    destruct (map_fresh id f nw (ctr + 1) r) as [r' c2]. simpl. eauto.
  - destruct (UString.eqb (Session.id x) id).
    + destruct (IH Hin Hid (ctr + 1)%N) as [u Hu].
      destruct (map_fresh id f nw (ctr + 1) r) as [r' c2]. simpl in *. eauto.
    + destruct (IH Hin Hid ctr) as [u Hu].
      destruct (map_fresh id f nw ctr r) as [r' c2]. simpl in *. eauto.
Qed.

Lemma last_content_app (s : Session.t) (old : list Message.t) (m : Message.t) :
  Session.messages s = (old ++ [m])%list ->
  last_content s = Some (Message.content m).
Proof.
  intros H. unfold last_content. rewrite H, length_app. simpl.
  rewrite nth_error_app2 by lia.
  replace (List.length old + 1 - 1 - List.length old) with 0 by lia.
  reflexivity.
Qed.

(** What [send] leaves in the sessions, the refs and the stream table, in
    terms of the effective query that [resolve] returned. *)
Lemma send_turn (st : State) :
  Util.truthy (Util.trim (question (composer st))) = true ->
  let r := resolve (autoCorrectOn (composer st)) (suggestion (composer st))
             (Util.trim (question (composer st))) in
  ac (composer (send st)) = snd r
  /\ suggestion (composer (send st)) = ""
  /\ exists id,
       runIdRef (refs (send st)) = Some id
       /\ (exists s, In s (sessions (store (send st))) /\ Session.id s = id)
       /\ (forall s, In s (sessions (store (send st))) -> Session.id s = id ->
             exists old u,
               Session.messages s = (old ++ [Message.mk u user (fst r) None])%list
               /\ Session.trace s = [])
       /\ nth_error (streams (env (send st))) (List.length (streams (env st)))
          = Some (mkStream id (fst r) (mode (store st)) true).
Proof.
  intros Ht r.
  destruct (send_shape st Ht) as [id [ss0 [ctr0 [cid' [E [s0 [Hin Hid]]]]]]].
  fold r in E. rewrite E. cbn [composer ac suggestion refs runIdRef store sessions
                                 env streams].
  split; [ reflexivity | split; [ reflexivity | ] ].
  exists id. split; [ reflexivity | split; [ | split ] ].
  - destruct (map_fresh_hit id (begin_turn (fst r)) (now (env st)) ss0 s0 Hin Hid
                ctr0) as [u Hu].
    exists (begin_turn (fst r) u s0). split; [ exact Hu | exact Hid ].
  - intros s Hs Hids. apply map_fresh_In in Hs.
    destruct Hs as [[_ Hne] | [u [s1 [_ [_ ->]]]]]; [ congruence | ].
    exists (Session.messages s1), u. split; reflexivity.
  - rewrite nth_error_app2.
    + replace (List.length (streams (env st)) - _) with 0; [ reflexivity | ].
      destruct (esRef (refs st)); rewrite ?length_update; lia.
    + destruct (esRef (refs st)); rewrite ?length_update; lia.
Qed.

(** C8, as stated, fails: the component keeps the suggestion without the
    text it was computed for.  The suggestion "what is ai" was requested for
    "waht is ai"; the user typed on to "waht is ai now" and submitted: the
    message sent is "what is ai", where the specification keeps the text as
    typed because no suggestion exists for it. *)
Lemma suggestion_for_other_text_applied :
  nth_error (fetches (env typed_on)) 0 = Some (mkFetch "waht is ai" false)
  /\ Util.trim (question (composer typed_on)) = "waht is ai now"
  /\ suggestion (composer typed_on) = "what is ai"
  /\ map last_content (sessions (store (send typed_on))) = [Some "what is ai"]
  /\ ~ submit_follows_spec typed_on (mkSuggestion "waht is ai" "what is ai").
Proof.
  repeat (split; [ vm_compute; reflexivity | ]).
  intros H. destruct (H eq_refl) as [Hac _].
  vm_compute in Hac. discriminate.
Qed.

(** C8, amended.  On submit of a non-empty trimmed text: if autocorrect is
    enabled and the pending suggestion is non-empty and differs from the
    trimmed text (whichever text it was requested for), the effective query
    is the suggestion and the applied-correction record {original, corrected}
    is produced; otherwise the effective query is the trimmed text and no
    record is produced.  Either way the pending suggestion is cleared, the
    user message appended to the session of the run carries the effective
    query, that session's trace is emptied, and the stream is opened for the
    effective query. *)
Theorem submit_applies_pending_suggestion :
  forall st : State,
    let raw := Util.trim (question (composer st)) in
    let sugg := suggestion (composer st) in
    let applies := autoCorrectOn (composer st) && Util.truthy sugg
                   && negb (UString.eqb sugg raw) in
    let q := if applies then sugg else raw in
    Util.truthy raw = true ->
    let st' := send st in
    ac (composer st') = (if applies then Some (mkAc raw sugg) else None)
    /\ suggestion (composer st') = ""
    /\ exists id,
         runIdRef (refs st') = Some id
         /\ (exists s, In s (sessions (store st')) /\ Session.id s = id)
         /\ (forall s, In s (sessions (store st')) -> Session.id s = id ->
               last_content s = Some q
               /\ (exists old u,
                     Session.messages s = (old ++ [Message.mk u user q None])%list)
               /\ Session.trace s = [])
         /\ nth_error (streams (env st')) (List.length (streams (env st)))
            = Some (mkStream id q (mode (store st)) true).
Proof.
  intros st raw sugg applies q Hraw st'.
  destruct (send_turn st Hraw) as [Hac [Hsg [id [Hrid [Hex [Hmsg Hstream]]]]]].
  assert (Hr : resolve (autoCorrectOn (composer st)) sugg raw
               = (q, if applies then Some (mkAc raw sugg) else None)).
  { unfold resolve. fold applies. subst q. destruct applies; reflexivity. }
  fold raw sugg in Hac, Hmsg, Hstream. rewrite Hr in Hac, Hmsg, Hstream.
  simpl in Hac, Hmsg, Hstream.
  split; [ exact Hac | split; [ exact Hsg | ] ].
  exists id. split; [ exact Hrid | split; [ exact Hex | split ] ].
  - intros s Hs Hid. destruct (Hmsg s Hs Hid) as [old [u [Hm Ht]]].
    split; [ | split ].
    + rewrite (last_content_app s old _ Hm). reflexivity.
    + exists old, u. exact Hm.
    + exact Ht.
  - exact Hstream.
Qed.

Lemma submit_applies_pending_suggestion_witness :
  ac (composer (send suggested)) = Some (mkAc "waht is ai" "what is ai")
  /\ suggestion (composer (send suggested)) = "".
Proof.
  destruct (submit_applies_pending_suggestion suggested eq_refl)
    as [Hac [Hsg _]].
  split; [ exact Hac | exact Hsg ].
Defined.

(** ** Autocorrect requests *)

Lemma response_applied (st : State) (r : nat) (f : Fetch)
    (res : option (option ustring)) :
  nth_error (fetches (env st)) r = Some f -> inflight f = true ->
  suggestion (composer (onResponse r res st)) = suggestion_of (ftext f) res
  /\ suggestLoading (composer (onResponse r res st)) = false
  /\ fetch_inflight r (onResponse r res st) = false.
Proof.
  destruct_state st. unfold fetch_inflight. app_red.
  intros Hf Hin. rewrite Hf, Hin. app_red.
  split; [ reflexivity | split; [ reflexivity | ] ].
  rewrite nth_error_update, Nat.eqb_refl, Hf. reflexivity.
Qed.

Lemma text_change_restarts_timer (st : State) (v : ustring) (h : nat) :
  autoCorrectOn (composer st) = true ->
  3 <= UString.length (Util.trim v) ->
  suggestTimerRef (refs st) = Some h ->
  h < List.length (timeouts (env st)) ->
  fetches (env (onChange v st)) = fetches (env st)
  /\ timeout_pending h (onChange v st) = false
  /\ h < List.length (timeouts (env (onChange v st)))
  /\ suggestTimerRef (refs (onChange v st)) = Some (List.length (timeouts (env st)))
  /\ nth_error (timeouts (env (onChange v st))) (List.length (timeouts (env st)))
     = Some (mkTimeout (now (env st) + 300) (cb_autocorrect (Util.trim v)) true).
Proof.
  destruct_state st. unfold timeout_pending. app_red.
  intros Hon Hlen Href Hh. subst on str.
  apply Nat.leb_le in Hlen. rewrite Hlen. app_red.
  rewrite length_app, !length_update.
  split; [ reflexivity | split; [ | split; [ lia | split; [ reflexivity | ] ] ] ].
  - rewrite nth_error_app1 by (rewrite length_update; exact Hh).
    rewrite nth_error_update, Nat.eqb_refl.
    destruct (nth_error ts h); reflexivity.
  - rewrite nth_error_app2 by (rewrite length_update; lia).
    rewrite length_update, Nat.sub_diag. reflexivity.
Qed.

(** C5, as stated, fails: nothing marks a request as superseded.  Request 0
    (for "abc") and request 1 (for "abcd") are in flight together; request 1
    is answered first and its suggestion is on display; the answer of request
    0, issued earlier and arriving later, replaces it. *)
Lemma superseded_response_applied :
  fetch_inflight 0 overlapping = true
  /\ suggestion (composer overlapping) = "abcde"
  /\ ~ stale_response_discarded overlapping 0 (Some (Some "abd")).
Proof.
  split; [ vm_compute; reflexivity | split; [ vm_compute; reflexivity | ] ].
  intros H.
  assert (Hl : S 0 < List.length (fetches (env overlapping)))
    by (vm_compute; lia).
  specialize (H Hl). vm_compute in H. discriminate.
Qed.

(** C5, amended.  The result of every request that was issued is applied
    when it arrives, whichever request it belongs to: the suggestion on
    display is then the one of that response, so of two overlapping requests
    the one answered last decides.  A later text change (with autocorrect on
    and at least 3 characters) supersedes an earlier request only while that
    request still waits in the debounce timer: the timer is cleared for good
    and the requests already in flight are left as they are. *)
Theorem response_applied_on_arrival :
  forall st : State,
    (forall (r : nat) (f : Fetch) (res : option (option ustring)),
        nth_error (fetches (env st)) r = Some f -> inflight f = true ->
        let st' := step (Response r res) st in
        suggestion (composer st') = suggestion_of (ftext f) res
        /\ suggestLoading (composer st') = false
        /\ fetch_inflight r st' = false)
    /\ (forall (v : ustring) (h : nat),
          autoCorrectOn (composer st) = true ->
          3 <= UString.length (Util.trim v) ->
          suggestTimerRef (refs st) = Some h ->
          h < List.length (timeouts (env st)) ->
          let st' := step (TextChange v) st in
          fetches (env st') = fetches (env st)
          /\ forall evs, timeout_pending h (run_events evs st') = false).
Proof.
  intros st. split.
  - intros r f res Hf Hin. apply response_applied; assumption.
  - intros v h Hon Hlen Href Hh. simpl.
    destruct (text_change_restarts_timer st v h Hon Hlen Href Hh)
      as [Hf [Hp [Hh' _]]].
    split; [ exact Hf | ].
    intros evs. apply (cleared_timeout_stays (onChange v st)); auto.
    apply ext_run_events.
Qed.

Lemma response_applied_on_arrival_witness :
  suggestion (composer (step (Response 0 (Some (Some "abd"))) overlapping))
  = "abd".
Proof.
  apply (proj1 (response_applied_on_arrival overlapping) 0
           (mkFetch "abc" true) (Some (Some "abd")));
    vm_compute; reflexivity.
Defined.

(** C6 fails on the code when the text becomes short, or autocorrect is
    switched off, while a request waits in the debounce timer: the suggestion
    is cleared but the timer is left running.  After "abc" and then "ab"
    within the quiet period, the timer of "abc" is still pending; 300 ms later
    a request for "abc" is issued although the text on display has 2
    characters, and its answer becomes the suggestion.  The same happens when
    autocorrect is switched off before the timer fires. *)
Theorem short_text_keeps_request_pending :
  question (composer shortened) = "ab"
  /\ suggestion (composer shortened) = ""
  /\ timeout_pending 0 shortened = true
  /\ fetches (env (step (Advance 300) shortened)) = [mkFetch "abc" true]
  /\ suggestion
       (composer
          (run_events [Advance 300; Response 0 (Some (Some "abd"))] shortened))
     = "abd"
  /\ autoCorrectOn (composer switched_off) = false
  /\ timeout_pending 0 switched_off = true
  /\ fetches (env (step (Advance 300) switched_off)) = [mkFetch "abc" true].
Proof. vm_compute. repeat split. Qed.

(** ** The refs in reachable states *)

Lemma same_run_refl (st : State) : same_run st st.
Proof. repeat split. exact (fun H => H). Qed.

Lemma same_run_trans (s1 s2 s3 : State) :
  same_run s1 s2 -> same_run s2 s3 -> same_run s1 s3.
Proof.
  intros [A1 [B1 [C1 [D1 E1]]]] [A2 [B2 [C2 [D2 E2]]]].
  repeat split; try congruence. auto.
Qed.

Lemma wf_same_run (st st' : State) : same_run st st' -> wf st -> wf st'.
Proof.
  intros [Hr [Ht [Hs [Hi Hl]]]] [W1 [W2 [W3 [W4 [W5 W6]]]]].
  unfold wf, stream_open, interval_live in *.
  rewrite Hr, Hs, Hi, Hl. repeat split; auto; apply W4; auto.
Qed.

(** [same_run] between two states given by their fields. *)
Ltac same_fields :=
  unfold same_run, is_thinking; app_red;
  (split; [ | split; [ | split; [ | split ] ] ]);
  rewrite ?length_app, ?length_update;
  first [ reflexivity | exact (fun H => H) | discriminate ].

Lemma same_run_clearTimeout (h : nat) (st : State) :
  same_run st (clearTimeout h st).
Proof. destruct_state st. same_fields. Qed.

Lemma same_run_run_callback (c : callback) (st : State) :
  same_run st (run_callback c st).
Proof. destruct_state st. destruct c as [text |]; same_fields. Qed.

Lemma same_run_fire_due (fuel : nat) : forall st, same_run st (fire_due fuel st).
Proof.
  induction fuel as [| k IH]; intros st; simpl; [ apply same_run_refl | ].
  destruct (next_due _ _ _) as [[h d] |]; [ | apply same_run_refl ].
  destruct (nth_error _ h) as [t |]; [ | apply same_run_refl ].
  eapply same_run_trans; [ | apply IH ].
  eapply same_run_trans;
    [ apply (same_run_clearTimeout h) | apply same_run_run_callback ].
Qed.

Lemma same_run_advance (d : N) (st : State) : same_run st (advance d st).
Proof.
  unfold advance. eapply same_run_trans; [ | apply same_run_fire_due ].
  destruct_state st. same_fields.
Qed.

Lemma same_run_onResponse (h : nat) (res : option (option ustring)) (st : State) :
  same_run st (onResponse h res st).
Proof.
  destruct_state st. app_red.
  destruct (nth_error fs h) as [f |]; [ | apply same_run_refl ].
  destruct (inflight f); [ | apply same_run_refl ].
  same_fields.
Qed.

Lemma same_run_appendTrace (id : ustring) (ev : TraceEvent) (st : State) :
  same_run st (appendTrace id ev st).
Proof. destruct_state st. same_fields. Qed.

Lemma wf_init (stored : list Session.t) (t : N) : wf (init stored t).
Proof.
  unfold wf, init, stream_open, interval_live, is_thinking. simpl.
  repeat split; try discriminate.
  - intros h. destruct h; discriminate.
  - intros h. destruct h; discriminate.
Qed.

Lemma wf_onChange (v : ustring) (st : State) : wf st -> wf (onChange v st).
Proof.
  destruct_state st. unfold wf, stream_open, interval_live, is_thinking.
  app_red.
  destruct (3 <=? UString.length (Util.trim v)); [ destruct on | ]; app_red;
    try exact (fun H => H).
  intros [W1 [W2 [W3 [W4 [W5 W6]]]]].
  destruct str as [h |]; app_red;
    (split; [ exact W1
            | split; [ exact W2
            | split; [ intros h' E; injection E as <-;
                       rewrite length_app; simpl; lia
            | split; [ exact W4 | split; [ exact W5 | exact W6 ] ] ] ] ]).
Qed.

Lemma open_after_close (sm : list Stream) (h h' : nat) :
  match nth_error
          (update h (fun s => mkStream (owner s) (sq s) (smode s) false) sm) h'
  with
  | Some s => open s
  | None => false
  end = true ->
  h' <> h /\ match nth_error sm h' with Some s => open s | None => false end = true.
Proof.
  rewrite nth_error_update. destruct (Nat.eqb_spec h' h) as [Heq | Hne].
  - destruct (nth_error sm h'); simpl; discriminate.
  - auto.
Qed.

Lemma live_after_clear (iv : list bool) (t t' : nat) :
  nth t' (update t (fun _ => false) iv) false = true ->
  t' <> t /\ nth t' iv false = true.
Proof.
  destruct (nth_error (update t (fun _ => false) iv) t') as [b |] eqn:E.
  - rewrite (nth_error_nth _ _ _ E). intros ->.
    rewrite nth_error_update in E. destruct (Nat.eqb_spec t' t) as [Heq | Hne].
    + destruct (nth_error iv t'); simpl in E; discriminate.
    + split; [ exact Hne | ]. apply (nth_error_nth _ _ _ E).
  - apply nth_error_None in E. intros H.
    rewrite nth_overflow in H by exact E. discriminate.
Qed.

Lemma wf_stopRun (st : State) : wf st -> wf (stopRun st).
Proof.
  destruct_state st. unfold wf, stream_open, interval_live, is_thinking.
  intros [W1 [W2 [W3 [W4 [W5 W6]]]]]. revert W1 W2 W3 W4 W5 W6. app_red.
  intros W1 W2 W3 W4 W5 W6.
  assert (Hs : forall h', match nth_error
                                  (match esr with
                                   | Some h => update h (fun s => mkStream (owner s)
                                                 (sq s) (smode s) false) sm
                                   | None => sm
                                   end) h'
                          with Some s => open s | None => false end = true ->
                          False).
  { intros h' Ho. destruct esr as [h |].
    - apply open_after_close in Ho. destruct Ho as [Hne Ho].
      apply W5 in Ho. congruence.
    - apply W5 in Ho. discriminate. }
  assert (Hi : forall t', nth t' (match tr with
                                  | Some t => update t (fun _ => false) iv
                                  | None => iv
                                  end) false = true -> tr = Some t').
  { intros t' Hl. destruct tr as [t |].
    - apply live_after_clear in Hl. destruct Hl as [Hne Hl].
      apply W6 in Hl. congruence.
    - apply W6 in Hl. discriminate. }
  destruct esr as [h |], tr as [t |], rid as [id |]; app_red;
    try (destruct (Util.truthy id)); app_red;
    (split; [ intros ? E; discriminate E
            | split; [ intros t' E; rewrite ?length_update; apply W2; exact E
            | split; [ exact W3
            | split; [ intros E; discriminate E
            | split; [ intros h' Ho; exfalso; apply (Hs h' Ho)
                     | intros t' Hl; apply (Hi t' Hl) ] ] ] ] ]).
Qed.

Lemma wf_send (st : State) : wf st -> wf (send st).
Proof.
  intros W.
  destruct (Util.truthy (Util.trim (question (composer st)))) eqn:Ht;
    [ | unfold send; rewrite Ht; exact W ].
  destruct (send_shape st Ht) as [id [ss0 [ctr0 [cid' [E _]]]]].
  rewrite E. clear E.
  destruct W as [W1 [W2 [W3 [W4 [W5 W6]]]]].
  unfold wf, stream_open, interval_live, is_thinking in *.
  cbn [refs env run status esRef timerRef suggestTimerRef streams intervals
       timeouts].
  split; [ | split; [ | split; [ | split; [ | split ] ] ] ].
  - intros h E. injection E as <-. rewrite length_app. simpl.
    destruct (esRef (refs st)); rewrite ?length_update; lia.
  - intros t E. injection E as <-. rewrite length_app. simpl.
    destruct (timerRef (refs st)); rewrite ?length_update; lia.
  - exact W3.
  - intros _. split; discriminate.
  - intros h Ho. f_equal.
    set (old := match esRef (refs st) with
                | Some h0 => update h0 (fun s => mkStream (owner s) (sq s)
                               (smode s) false) (streams (env st))
                | None => streams (env st)
                end) in *.
    assert (Hlen : List.length old = List.length (streams (env st))).
    { subst old. destruct (esRef (refs st)); rewrite ?length_update; reflexivity. }
    destruct (Nat.lt_trichotomy h (List.length old)) as [Hlt | [Heq | Hgt]].
    + exfalso. rewrite nth_error_app1 in Ho by exact Hlt. subst old.
      destruct (esRef (refs st)) as [h0 |] eqn:Ees.
      * apply open_after_close in Ho. destruct Ho as [Hne Ho].
        apply W5 in Ho. congruence.
      * apply W5 in Ho. discriminate.
    + congruence.
    + exfalso. rewrite (proj2 (nth_error_None _ _)) in Ho; [ discriminate | ].
      rewrite length_app. simpl. lia.
  - intros t Hl. f_equal.
    set (old := match timerRef (refs st) with
                | Some t0 => update t0 (fun _ => false) (intervals (env st))
                | None => intervals (env st)
                end) in *.
    assert (Hlen : List.length old = List.length (intervals (env st))).
    { subst old. destruct (timerRef (refs st)); rewrite ?length_update; reflexivity. }
    destruct (Nat.lt_trichotomy t (List.length old)) as [Hlt | [Heq | Hgt]].
    + exfalso. rewrite app_nth1 in Hl by exact Hlt. subst old.
      destruct (timerRef (refs st)) as [t0 |] eqn:Etr.
      * apply live_after_clear in Hl. destruct Hl as [Hne Hl].
        apply W6 in Hl. congruence.
      * apply W6 in Hl. discriminate.
    + congruence.
    + exfalso. rewrite nth_overflow in Hl; [ discriminate | ].
      rewrite length_app. simpl. lia.
Qed.

Lemma wf_deliver (h : nat) (e : stream_event) (st : State) :
  wf st -> wf (deliver h e st).
Proof.
  intros W. unfold deliver.
  destruct (nth_error (streams (env st)) h) as [s |] eqn:Es; [ | exact W ].
  destruct (open s) eqn:Eo; [ | exact W ].
  assert (Hes : esRef (refs st) = Some h).
  { apply W. unfold stream_open. rewrite Es. exact Eo. }
  clear Es Eo. revert W Hes. generalize (owner s) as id. clear s.
  intros id. destruct_state st.
  unfold wf, stream_open, interval_live, is_thinking. app_red.
  intros [W1 [W2 [W3 [W4 [W5 W6]]]]] Hes. subst esr.
  assert (Hs : forall h', match nth_error
                                  (update h (fun s => mkStream (owner s)
                                     (sq s) (smode s) false) sm) h'
                          with Some s => open s | None => false end = true ->
                          Some h = Some h').
  { intros h' Ho. apply open_after_close in Ho. destruct Ho as [_ Ho].
    apply W5. exact Ho. }
  assert (Hi : forall t', nth t' (match tr with
                                  | Some t => update t (fun _ => false) iv
                                  | None => iv
                                  end) false = true -> tr = Some t').
  { intros t' Hl. destruct tr as [t |].
    - apply live_after_clear in Hl. destruct Hl as [Hne Hl].
      apply W6 in Hl. congruence.
    - apply W6 in Hl. discriminate. }
  destruct e as [i sp | p | x | d | d | d | d | d | answer cits | | ];
    app_red;
    try (split; [ exact W1 | split; [ exact W2 | split; [ exact W3
           | split; [ exact W4 | split; [ exact W5 | exact W6 ] ] ] ] ]).
  - destruct p; app_red;
      (split; [ exact W1 | split; [ exact W2 | split; [ exact W3
         | split; [ exact W4 | split; [ exact W5 | exact W6 ] ] ] ] ]).
  - destruct (map_fresh _ _ _ _ _) as [l' c'].
    destruct tr as [t |]; app_red;
      (split; [ intros h' E; rewrite length_update; apply W1; exact E
              | split; [ intros t' E; rewrite ?length_update; apply W2; exact E
              | split; [ intros h' E; rewrite length_app; simpl;
                         specialize (W3 h' E); lia
              | split; [ intros E; discriminate E
              | split; [ intros h' Ho; apply (Hs h' Ho)
                       | intros t' Hl; apply (Hi t' Hl) ] ] ] ] ]).
  - destruct tr as [t |]; app_red;
      (split; [ intros h' E; rewrite length_update; apply W1; exact E
              | split; [ intros t' E; rewrite ?length_update; apply W2; exact E
              | split; [ exact W3
              | split; [ intros E; discriminate E
              | split; [ intros h' Ho; apply (Hs h' Ho)
                       | intros t' Hl; apply (Hi t' Hl) ] ] ] ] ]).
Qed.

(** Every event keeps the invariant. *)
Lemma wf_step (ev : event) (st : State) : wf st -> wf (step ev st).
Proof.
  intros W. destruct ev; simpl.
  - apply wf_onChange, W.
  - apply wf_send, W.
  - destruct (is_thinking st); [ apply wf_stopRun, W | exact W ].
  - unfold onEscape.
    destruct (is_thinking st); [ apply wf_stopRun, W | exact W ].
  - revert W. apply wf_same_run. destruct_state st. same_fields.
  - destruct (listed _ _); [ | exact W ].
    revert W. apply wf_same_run. destruct_state st. same_fields.
  - destruct (listed _ _); [ | exact W ].
    revert W. apply wf_same_run. destruct_state st.
    destruct cid as [c |]; app_red; [ destruct (UString.eqb c id) | ];
      same_fields.
  - destruct (listed _ _); [ | exact W ].
    revert W. apply wf_same_run. destruct_state st. same_fields.
  - revert W. apply wf_same_run. destruct_state st.
    destruct md, m; app_red; try apply same_run_refl;
      (destruct cid as [c |]; app_red; [ destruct (Util.truthy c) | ];
       same_fields).
  - revert W. apply wf_same_run. destruct_state st. same_fields.
  - destruct (_ && _); [ | exact W ].
    revert W. apply wf_same_run. destruct_state st. same_fields.
  - destruct (_ && _); [ | exact W ].
    revert W. apply wf_same_run. destruct_state st. same_fields.
  - destruct (ac (composer st)); [ | exact W ].
    revert W. apply wf_same_run. destruct_state st. same_fields.
  - revert W. apply wf_same_run. destruct_state st. same_fields.
  - revert W. apply wf_same_run, same_run_advance.
  - unfold onTick. destruct (interval_live h st); [ | exact W ].
    revert W. apply wf_same_run. destruct_state st. same_fields.
  - revert W. apply wf_same_run, same_run_onResponse.
  - apply wf_deliver, W.
Qed.

(** The invariant holds in every state reached from the first render. *)
Lemma wf_run_events (evs : list event) :
  forall st, wf st -> wf (run_events evs st).
Proof.
  induction evs as [| ev r IH]; intros st W; simpl; [ exact W | ].
  apply IH, wf_step, W.
Qed.

Lemma wf_reachable (stored : list Session.t) (t : N) (evs : list event) :
  wf (run_events evs (init stored t)).
Proof. apply wf_run_events, wf_init. Qed.

(** ** Starting a run while another one is thinking *)

Lemma deliver_closed (h : nat) (e : stream_event) (st : State) :
  stream_open h st = false -> deliver h e st = st.
Proof.
  unfold stream_open, deliver.
  destruct (nth_error _ h) as [s |]; [ | reflexivity ].
  intros H. rewrite H. reflexivity.
Qed.

Lemma onTick_cleared (t : nat) (st : State) :
  interval_live t st = false -> onTick t st = st.
Proof. unfold onTick. intros H. rewrite H. reflexivity. Qed.

(** C1, as stated, fails: the listeners carry no test of the run they belong
    to.  After a second run was started in the same session, the listeners of
    the first stream, handed a progress event, overwrite the progress of the
    second run, and handed a status event they append to the trace of the
    session the second run writes to. *)
Lemma listeners_have_no_run_guard :
  esRef (refs two_runs) = Some 1
  /\ ~ stale_event_ignored two_runs "m_1000_0" 0 (ev_progress (Some 50%Q))
  /\ ~ stale_event_ignored two_runs "m_1000_0" 0 (ev_status (Some "late")).
Proof.
  split; [ vm_compute; reflexivity | split ].
  - intros H.
    assert (Hne : esRef (refs two_runs) <> Some 0)
      by (vm_compute; discriminate).
    destruct (H Hne) as [H1 _].
    apply (f_equal progress) in H1. vm_compute in H1. discriminate.
  - intros H.
    assert (Hne : esRef (refs two_runs) <> Some 0)
      by (vm_compute; discriminate).
    destruct (H Hne) as [_ H2].
    apply (f_equal (map (fun s => List.length (Session.trace s)))) in H2.
    vm_compute in H2. discriminate.
Qed.

(** From any state: [send] clears the ticker and closes the stream the refs
    name, starts new ones under fresh handles, and from then on an event of
    the closed stream and a tick of the cleared ticker change nothing. *)
Lemma send_closes_previous :
  forall (st : State) (h t : nat),
    Util.truthy (Util.trim (question (composer st))) = true ->
    esRef (refs st) = Some h -> h < List.length (streams (env st)) ->
    timerRef (refs st) = Some t -> t < List.length (intervals (env st)) ->
    let st' := send st in
    stream_open h st' = false
    /\ interval_live t st' = false
    /\ esRef (refs st') = Some (List.length (streams (env st)))
    /\ stream_open (List.length (streams (env st))) st' = true
    /\ timerRef (refs st') = Some (List.length (intervals (env st)))
    /\ interval_live (List.length (intervals (env st))) st' = true
    /\ forall (evs : list event) (e : stream_event),
         let s := run_events evs st' in
         step (StreamEvent h e) s = s /\ step (Tick t) s = s.
Proof.
  intros st h t Hraw Hes Hh Htr Ht st'. subst st'.
  destruct (send_streams st Hraw) as [id [q [Hs Hes']]].
  destruct (send_intervals st Hraw) as [Hi Htr'].
  rewrite Hes in Hs. rewrite Htr in Hi.
  assert (Hclosed : stream_open h (send st) = false).
  { unfold stream_open. rewrite Hs.
    rewrite nth_error_app1 by (rewrite length_update; exact Hh).
    rewrite nth_error_update, Nat.eqb_refl.
    destruct (nth_error (streams (env st)) h) eqn:E; reflexivity. }
  assert (Hcleared : interval_live t (send st) = false).
  { unfold interval_live. rewrite Hi.
    rewrite app_nth1 by (rewrite length_update; exact Ht).
    destruct (nth_error (update t (fun _ => false) (intervals (env st))) t)
      as [b |] eqn:E.
    - rewrite (nth_error_nth _ _ _ E).
      rewrite nth_error_update, Nat.eqb_refl in E.
      destruct (nth_error (intervals (env st)) t); simpl in E; congruence.
    - apply nth_error_None in E. rewrite length_update in E. lia. }
  assert (Hlen_s : h < List.length (streams (env (send st)))).
  { rewrite Hs, length_app, length_update. lia. }
  assert (Hlen_i : t < List.length (intervals (env (send st)))).
  { rewrite Hi, length_app, length_update. lia. }
  repeat split.
  - exact Hclosed.
  - exact Hcleared.
  - exact Hes'.
  - unfold stream_open. rewrite Hs.
    rewrite nth_error_app2 by (rewrite length_update; lia).
    rewrite length_update, Nat.sub_diag. reflexivity.
  - exact Htr'.
  - unfold interval_live. rewrite Hi.
    rewrite app_nth2 by (rewrite length_update; lia).
    rewrite length_update, Nat.sub_diag. reflexivity.
  - simpl. apply deliver_closed.
    apply (closed_stays_closed (send st)); auto using ext_run_events.
  - simpl. apply onTick_cleared.
    apply (cleared_interval_stays (send st)); auto using ext_run_events.
Qed.

(** C1, amended.  In every state the component reaches in which a run is
    thinking, [send] (with a non-empty text) clears the ticker of that run
    before it starts the new ticker, and closes the stream of that run before
    it opens the new stream.  The listeners do not test which run an event
    belongs to; what keeps the previous run out is that a closed stream
    delivers nothing: whatever happens afterwards, an event of the previous
    stream and a tick of the previous ticker leave the whole state as it
    is. *)
Theorem new_run_closes_previous :
  forall (stored : list Session.t) (t0 : N) (evs : list event),
    let st := run_events evs (init stored t0) in
    status (run st) = thinking ->
    Util.truthy (Util.trim (question (composer st))) = true ->
    exists h t,
      esRef (refs st) = Some h /\ stream_open h (send st) = false
      /\ timerRef (refs st) = Some t /\ interval_live t (send st) = false
      /\ (exists h', esRef (refs (send st)) = Some h' /\ h' <> h
                     /\ stream_open h' (send st) = true)
      /\ (exists t', timerRef (refs (send st)) = Some t' /\ t' <> t
                     /\ interval_live t' (send st) = true)
      /\ forall (later : list event) (e : stream_event),
           let s := run_events later (send st) in
           step (StreamEvent h e) s = s /\ step (Tick t) s = s.
Proof.
  intros stored t0 evs st Hth Hraw.
  pose proof (wf_reachable stored t0 evs) as W. fold st in W.
  destruct W as [W1 [W2 [_ [W4 _]]]].
  assert (Hthink : is_thinking st = true)
    by (unfold is_thinking; rewrite Hth; reflexivity).
  destruct (W4 Hthink) as [Hes Htr].
  destruct (esRef (refs st)) as [h |] eqn:Ees; [ | congruence ].
  destruct (timerRef (refs st)) as [t |] eqn:Etr; [ | congruence ].
  specialize (W1 h eq_refl). specialize (W2 t eq_refl).
  destruct (send_closes_previous st h t Hraw Ees W1 Etr W2)
    as [Hc [Hi [Hes' [Ho [Htr' [Hl Hlater]]]]]].
  exists h, t.
  split; [ reflexivity | split; [ exact Hc | ] ].
  split; [ reflexivity | split; [ exact Hi | ] ].
  split; [ | split ].
  - exists (List.length (streams (env st))).
    split; [ exact Hes' | split; [ lia | exact Ho ] ].
  - exists (List.length (intervals (env st))).
    split; [ exact Htr' | split; [ lia | exact Hl ] ].
  - exact Hlater.
Qed.

Lemma new_run_closes_previous_witness :
  let st := run_events [TextChange "q1"; Submit; TextChange "q2"] (init [] 1000) in
  esRef (refs st) = Some 0 /\ stream_open 0 (send st) = false
  /\ timerRef (refs st) = Some 0 /\ interval_live 0 (send st) = false.
Proof.
  intros st.
  destruct (new_run_closes_previous [] 1000
              [TextChange "q1"; Submit; TextChange "q2"])
    as [h [t [H1 [H2 [H3 [H4 _]]]]]].
  - vm_compute. reflexivity.
  - vm_compute. reflexivity.
  - fold st in H1, H2, H3, H4.
    assert (Hh : h = 0) by (vm_compute in H1; congruence).
    assert (Ht : t = 0) by (vm_compute in H3; congruence).
    subst h t. auto.
Defined.

(** ** The quiet period *)

Lemma next_due_some (nw : N) (l : list Timeout) :
  forall i j d,
    next_due nw i l = Some (j, d) ->
    i <= j /\ exists t, nth_error l (j - i) = Some t /\ is_due nw t = true.
Proof.
  induction l as [| t r IH]; intros i j d; simpl; [ discriminate | ].
  fold (is_due nw t).
  destruct (next_due nw (S i) r) as [[j' d'] |] eqn:En.
  - destruct (IH (S i) j' d' En) as [Hle [t' [Ht' Hd']]].
    destruct (is_due nw t) eqn:Ed.
    + destruct (d' <? due t)%N; intros E; injection E as <- <-.
      * split; [ lia | ]. exists t'.
        replace (j' - i) with (S (j' - S i)) by lia. auto.
      * split; [ lia | ]. exists t. rewrite Nat.sub_diag. auto.
    + intros E. injection E as <- <-.
      split; [ lia | ]. exists t'.
      replace (j' - i) with (S (j' - S i)) by lia. auto.
  - destruct (is_due nw t) eqn:Ed; [ | discriminate ].
    intros E. injection E as <- <-.
    split; [ lia | ]. exists t. rewrite Nat.sub_diag. auto.
Qed.

Lemma next_due_none (nw : N) (l : list Timeout) :
  forall i, next_due nw i l = None ->
            forall k t, nth_error l k = Some t -> is_due nw t = false.
Proof.
  induction l as [| t r IH]; intros i Hn k x Hk.
  - destruct k; discriminate.
  - simpl in Hn. fold (is_due nw t) in Hn.
    destruct (next_due nw (S i) r) as [[j' d'] |] eqn:En.
    + destruct (is_due nw t); [ destruct (d' <? due t)%N | ]; discriminate.
    + destruct (is_due nw t) eqn:Ed; [ discriminate | ].
      destruct k as [| k]; simpl in Hk.
      * injection Hk as <-. exact Ed.
      * eapply IH; eauto.
Qed.

Lemma count_due_kill (nw : N) (l : list Timeout) :
  forall h t,
    nth_error l h = Some t -> is_due nw t = true ->
    S (count_due nw (update h kill l)) = count_due nw l.
Proof.
  unfold count_due.
  induction l as [| x r IH]; intros h t Hh Hd.
  - destruct h; discriminate.
  - destruct h as [| h]; simpl in *.
    + injection Hh as ->. rewrite Hd. unfold is_due at 1. simpl. reflexivity.
    + destruct (is_due nw x); simpl; [ f_equal | ]; eapply IH; eauto.
Qed.

(** One timeout fires: what changes. *)
Lemma fire_one (h : nat) (t : Timeout) (st : State) :
  let st1 := run_callback (cb t) (clearTimeout h st) in
  now (env st1) = now (env st)
  /\ timeouts (env st1) = update h kill (timeouts (env st))
  /\ fetches (env st1) = (fetches (env st) ++ issued (cb t))%list
  /\ refs st1 = refs st
  /\ autoCorrectOn (composer st1) = autoCorrectOn (composer st).
Proof.
  destruct_state st. destruct t as [d [x |] p]; app_red;
    rewrite ?app_nil_r; repeat split.
Qed.

Lemma is_due_kill (nw : N) (t : Timeout) : is_due nw (kill t) = false.
Proof. reflexivity. Qed.

(** What [fire_due] leaves alone, and that it only clears timers that are
    due. *)
Lemma fire_due_frame (fuel : nat) :
  forall st,
    now (env (fire_due fuel st)) = now (env st)
    /\ refs (fire_due fuel st) = refs st
    /\ autoCorrectOn (composer (fire_due fuel st)) = autoCorrectOn (composer st)
    /\ forall i t,
         nth_error (timeouts (env st)) i = Some t ->
         nth_error (timeouts (env (fire_due fuel st))) i = Some t
         \/ (is_due (now (env st)) t = true
             /\ nth_error (timeouts (env (fire_due fuel st))) i = Some (kill t)).
Proof.
  induction fuel as [| f IH]; intros st; simpl; [ auto | ].
  destruct (next_due _ 0 _) as [[h d] |] eqn:En; [ | auto ].
  destruct (nth_error _ h) as [th |] eqn:Eh; [ | auto ].
  apply next_due_some in En. destruct En as [_ [t' [Ht' Hd']]].
  rewrite Nat.sub_0_r, Eh in Ht'. injection Ht' as <-.
  destruct (fire_one h th st) as [Hn [Hts [_ [Hr Ha]]]].
  destruct (IH (run_callback (cb th) (clearTimeout h st)))
    as [Hn' [Hr' [Ha' Ht']]].
  split; [ congruence | split; [ congruence | split; [ congruence | ] ] ].
  intros i t Hi.
  assert (Hu : nth_error (update h kill (timeouts (env st))) i
               = if i =? h then Some (kill t) else Some t).
  { rewrite nth_error_update, Hi. destruct (i =? h); reflexivity. }
  rewrite <- Hts in Hu.
  destruct (Nat.eqb_spec i h) as [-> | Hne].
  - right. split; [ congruence | ].
    destruct (Ht' h (kill t) Hu) as [H | [H _]]; [ exact H | ].
    rewrite Hn in H. rewrite is_due_kill in H. discriminate.
  - destruct (Ht' i t Hu) as [H | [Hd H]]; [ left; exact H | right ].
    rewrite Hn in Hd. auto.
Qed.

(** When no autocorrect timer is due, no request is issued. *)
Lemma fire_due_quiet (fuel : nat) :
  forall st,
    (forall i t, nth_error (timeouts (env st)) i = Some t ->
                 is_due (now (env st)) t = true -> is_ac (cb t) = false) ->
    fetches (env (fire_due fuel st)) = fetches (env st).
Proof.
  induction fuel as [| f IH]; intros st Hq; simpl; [ reflexivity | ].
  destruct (next_due _ 0 _) as [[h d] |] eqn:En; [ | reflexivity ].
  destruct (nth_error _ h) as [th |] eqn:Eh; [ | reflexivity ].
  apply next_due_some in En. destruct En as [_ [t' [Ht' Hd']]].
  rewrite Nat.sub_0_r, Eh in Ht'. injection Ht' as <-.
  destruct (fire_one h th st) as [Hn [Hts [Hf _]]].
  rewrite IH.
  - rewrite Hf. specialize (Hq h th Eh Hd').
    destruct (cb th); [ discriminate | apply app_nil_r ].
  - intros i t Hi Hdue. rewrite Hts, nth_error_update in Hi. rewrite Hn in Hdue.
    destruct (i =? h).
    + destruct (nth_error (timeouts (env st)) i) as [t0 |]; [ | discriminate ].
      injection Hi as <-. rewrite is_due_kill in Hdue. discriminate.
    + eapply Hq; eauto.
Qed.

(** When the one autocorrect timer that is due is [k], for the text [x],
    exactly the request for [x] is issued. *)
Lemma fire_due_fires (fuel : nat) :
  forall st k tk x,
    count_due (now (env st)) (timeouts (env st)) <= fuel ->
    nth_error (timeouts (env st)) k = Some tk ->
    is_due (now (env st)) tk = true ->
    cb tk = cb_autocorrect x ->
    (forall i t, nth_error (timeouts (env st)) i = Some t ->
                 is_due (now (env st)) t = true -> is_ac (cb t) = true ->
                 i = k) ->
    fetches (env (fire_due fuel st))
    = (fetches (env st) ++ [mkFetch x true])%list.
Proof.
  induction fuel as [| f IH]; intros st k tk x Hc Hk Hd Hx Hu.
  - pose proof (count_due_kill _ _ _ _ Hk Hd). lia.
  - simpl.
    destruct (next_due _ 0 _) as [[h d] |] eqn:En.
    2: { rewrite (next_due_none _ _ _ En k tk Hk) in Hd. discriminate. }
    apply next_due_some in En. destruct En as [_ [th [Eh Hdh]]].
    rewrite Nat.sub_0_r in Eh. rewrite Eh.
    destruct (fire_one h th st) as [Hn [Hts [Hf _]]].
    destruct (Nat.eqb_spec h k) as [-> | Hne].
    + assert (th = tk) by congruence. subst th.
      rewrite fire_due_quiet.
      * rewrite Hf, Hx. reflexivity.
      * intros i t Hi Hdue. rewrite Hts, nth_error_update in Hi.
        rewrite Hn in Hdue.
        destruct (Nat.eqb_spec i k) as [-> | Hik].
        -- rewrite Hk in Hi. injection Hi as <-.
           rewrite is_due_kill in Hdue. discriminate.
        -- destruct (is_ac (cb t)) eqn:Ea; [ | reflexivity ].
           elim Hik. eapply Hu; eauto.
    + assert (Ha : is_ac (cb th) = false).
      { destruct (is_ac (cb th)) eqn:Ea; [ | reflexivity ].
        elim Hne. eapply Hu; eauto. }
      rewrite (IH _ k tk x).
      * rewrite Hf. destruct (cb th); [ discriminate | ].
        simpl. rewrite app_nil_r. reflexivity.
      * rewrite Hn, Hts.
        pose proof (count_due_kill _ _ _ _ Eh Hdh). lia.
      * rewrite Hts, nth_error_update, Hk.
        replace (k =? h) with false; [ reflexivity | ].
        symmetry. apply Nat.eqb_neq. congruence.
      * rewrite Hn. exact Hd.
      * exact Hx.
      * intros i t Hi Hdue Hac. rewrite Hts, nth_error_update in Hi.
        rewrite Hn in Hdue.
        destruct (i =? h).
        -- destruct (nth_error (timeouts (env st)) i) as [t0 |]; [ | discriminate ].
           injection Hi as <-. rewrite is_due_kill in Hdue. discriminate.
        -- eapply Hu; eauto.
Qed.

Lemma advance_frame (d : N) (st : State) :
  now (env (advance d st)) = (now (env st) + d)%N
  /\ refs (advance d st) = refs st
  /\ autoCorrectOn (composer (advance d st)) = autoCorrectOn (composer st)
  /\ forall i t,
       nth_error (timeouts (env st)) i = Some t ->
       nth_error (timeouts (env (advance d st))) i = Some t
       \/ (is_due (now (env st) + d) t = true
           /\ nth_error (timeouts (env (advance d st))) i = Some (kill t)).
Proof.
  unfold advance.
  destruct (fire_due_frame
              (List.length (timeouts (env (set_now (now (env st) + d) st))))
              (set_now (now (env st) + d)%N st)) as [Hn [Hr [Ha Ht]]].
  rewrite Hn, Hr, Ha. destruct_state st.
  split; [ reflexivity | split; [ reflexivity | split; [ reflexivity | ] ] ].
  exact Ht.
Qed.

Lemma count_due_le (nw : N) (l : list Timeout) : count_due nw l <= List.length l.
Proof.
  unfold count_due. induction l as [| t r IH]; simpl; [ lia | ].
  destruct (is_due nw t); simpl; lia.
Qed.

(** A qualifying text change arms the debounce for its text, whatever was
    waiting before, and issues nothing. *)
Lemma onChange_arms (v : ustring) (st : State) :
  one_debounce st ->
  autoCorrectOn (composer st) = true ->
  3 <= UString.length (Util.trim v) ->
  armed (onChange v st) (Util.trim v) (now (env st) + 300)
  /\ fetches (env (onChange v st)) = fetches (env st)
  /\ now (env (onChange v st)) = now (env st).
Proof.
  destruct_state st. unfold armed, one_debounce. app_red.
  intros Hone Hon Hlen. subst on. apply Nat.leb_le in Hlen. rewrite Hlen.
  assert (Hold : forall ts', 
             (forall i t, nth_error ts' i = Some t -> pending t = true ->
                          is_ac (cb t) = true -> False) ->
             forall i t,
               nth_error (ts' ++ [mkTimeout (nw + 300) (cb_autocorrect (Util.trim v)) true])
                 i = Some t ->
               pending t = true -> is_ac (cb t) = true ->
               Some (List.length ts') = Some i).
  { intros ts' Hnone i t Hi Hp Ha.
    destruct (Nat.lt_trichotomy i (List.length ts')) as [Hlt | [-> | Hgt]].
    - rewrite nth_error_app1 in Hi by exact Hlt. elim (Hnone i t Hi Hp Ha).
    - reflexivity.
    - rewrite (proj2 (nth_error_None _ _)) in Hi; [ discriminate | ].
      rewrite length_app. simpl. lia. }
  destruct str as [h |]; app_red.
  - split; [ | split; reflexivity ].
    split; [ reflexivity | split ].
    + apply Hold. intros i t Hi Hp Ha. rewrite nth_error_update in Hi.
      destruct (Nat.eqb_spec i h) as [-> | Hne].
      * destruct (nth_error ts h); [ | discriminate ].
        injection Hi as <-. discriminate.
      * specialize (Hone i t Hi Hp Ha). congruence.
    + eexists. split; [ reflexivity | ].
      rewrite nth_error_app2 by lia. rewrite Nat.sub_diag. reflexivity.
  - split; [ | split; reflexivity ].
    split; [ reflexivity | split ].
    + apply Hold. intros i t Hi Hp Ha.
      specialize (Hone i t Hi Hp Ha). discriminate.
    + eexists. split; [ reflexivity | ].
      rewrite nth_error_app2 by lia. rewrite Nat.sub_diag. reflexivity.
Qed.

Lemma one_debounce_advance (d : N) (st : State) :
  one_debounce st -> one_debounce (advance d st).
Proof.
  intros Hone i t Hi Hp Ha.
  destruct (advance_frame d st) as [_ [Hr [_ Ht]]]. rewrite Hr.
  destruct (nth_error (timeouts (env st)) i) as [t0 |] eqn:E0.
  - destruct (Ht i t0 E0) as [H | [_ H]]; rewrite H in Hi;
      injection Hi as <-.
    + eapply Hone; eauto.
    + discriminate.
  - exfalso. apply nth_error_None in E0.
    destruct (same_run_advance d st) as [_ [_ [_ [_ Hlen]]]].
    rewrite (proj2 (nth_error_None (timeouts (env (advance d st))) i)) in Hi;
      [ discriminate | lia ].
Qed.

(** While the quiet period lasts, nothing is issued and the request keeps
    waiting. *)
Lemma advance_waits (d : N) (st : State) (x : ustring) (at_time : N) :
  armed st x at_time -> (now (env st) + d < at_time)%N ->
  armed (advance d st) x at_time
  /\ fetches (env (advance d st)) = fetches (env st)
  /\ now (env (advance d st)) = (now (env st) + d)%N.
Proof.
  intros [Hon [Hone [k [Hk Hnth]]]] Hlt.
  destruct (advance_frame d st) as [Hn [Hr [Ha Ht]]].
  assert (Hnot : forall i t, nth_error (timeouts (env st)) i = Some t ->
                   is_due (now (env st) + d) t = true -> is_ac (cb t) = false).
  { intros i t Hi Hd. destruct (is_ac (cb t)) eqn:Eac; [ | reflexivity ].
    unfold is_due in Hd. apply andb_prop in Hd. destruct Hd as [Hp Hdue].
    specialize (Hone i t Hi Hp Eac). rewrite Hk in Hone. injection Hone as ->.
    rewrite Hnth in Hi. injection Hi as <-. simpl in Hdue.
    apply N.leb_le in Hdue. lia. }
  split; [ | split; [ | exact Hn ] ].
  - split; [ congruence | split; [ apply one_debounce_advance, Hone | ] ].
    exists k. split; [ congruence | ].
    destruct (Ht k _ Hnth) as [H | [Hd _]]; [ exact H | ].
    specialize (Hnot k _ Hnth Hd). discriminate.
  - unfold advance. rewrite fire_due_quiet.
    + destruct_state st. reflexivity.
    + destruct_state st. exact Hnot.
Qed.

(** Once the quiet period is over, the request waiting is issued, and only
    that one. *)
Lemma advance_fires (p : N) (st : State) (x : ustring) (at_time : N) :
  armed st x at_time -> (at_time <= now (env st) + p)%N ->
  fetches (env (advance p st)) = (fetches (env st) ++ [mkFetch x true])%list.
Proof.
  intros [Hon [Hone [k [Hk Hnth]]]] Hle. unfold advance.
  rewrite (fire_due_fires _ (set_now (now (env st) + p)%N st) k
             (mkTimeout at_time (cb_autocorrect x) true) x).
  - destruct_state st. reflexivity.
  - apply count_due_le.
  - destruct_state st. exact Hnth.
  - destruct_state st. unfold is_due. simpl. apply N.leb_le. exact Hle.
  - reflexivity.
  - destruct_state st. revert Hone Hk. unfold one_debounce. app_red.
    intros Hone Hk i t Hi Hd Ha. unfold is_due in Hd.
    apply andb_prop in Hd. destruct Hd as [Hp _].
    specialize (Hone i t Hi Hp Ha). congruence.
Qed.

Lemma burst_armed (p : N) (rest : list (N * ustring)) :
  (300 <= p)%N -> Forall quick rest ->
  forall (st : State) (v : ustring),
    armed st (Util.trim v) (now (env st) + 300) ->
    fetches (env (run_events (burst rest ++ [Advance p]) st))
    = (fetches (env st) ++ [mkFetch (Util.trim (final_text v rest)) true])%list.
Proof.
  intros Hp Hq. induction Hq as [| [gap w] r [Hgap Hw] Hr IH]; intros st v Harm.
  - simpl. apply (advance_fires p st _ _ Harm). lia.
  - simpl in Hgap, Hw. simpl.
    destruct (advance_waits gap st _ _ Harm) as [[Hon [Hone _]] [Hf Hn]];
      [ lia | ].
    destruct (onChange_arms w (advance gap st) Hone Hon Hw) as [Harm' [Hf' Hn']].
    rewrite <- Hn' in Harm'.
    rewrite (IH _ w Harm'). congruence.
Qed.

(** Steps that leave the timeouts and [suggestTimerRef] alone. *)
Ltac same_timers :=
  unfold one_debounce; app_red; exact (fun H => H).

Lemma one_debounce_onChange (v : ustring) (st : State) :
  one_debounce st -> one_debounce (onChange v st).
Proof.
  intros Hone.
  destruct (3 <=? UString.length (Util.trim v)) eqn:Hlen;
    [ destruct (autoCorrectOn (composer st)) eqn:Hon | ].
  - apply Nat.leb_le in Hlen.
    apply (onChange_arms v st Hone Hon Hlen).
  - revert Hone Hon. destruct_state st. unfold one_debounce. app_red.
    rewrite Hlen. intros Hone ->. exact Hone.
  - revert Hone. destruct_state st. unfold one_debounce. app_red.
    rewrite Hlen. exact (fun H => H).
Qed.

Lemma one_debounce_send (st : State) : one_debounce st -> one_debounce (send st).
Proof.
  intros Hone.
  destruct (Util.truthy (Util.trim (question (composer st)))) eqn:Ht;
    [ | unfold send; rewrite Ht; exact Hone ].
  destruct (send_shape st Ht) as [id [ss0 [ctr0 [cid' [E _]]]]].
  rewrite E. exact Hone.
Qed.

Lemma one_debounce_stopRun (st : State) :
  one_debounce st -> one_debounce (stopRun st).
Proof.
  destruct_state st.
  destruct esr as [h |], tr as [t |], rid as [id |]; unfold one_debounce;
    app_red; try (destruct (Util.truthy id)); exact (fun H => H).
Qed.

Lemma one_debounce_deliver (h : nat) (e : stream_event) (st : State) :
  one_debounce st -> one_debounce (deliver h e st).
Proof.
  intros Hone. unfold deliver.
  destruct (nth_error (streams (env st)) h) as [s |]; [ | exact Hone ].
  destruct (open s); [ | exact Hone ].
  revert Hone. generalize (owner s) as id. intros id. destruct_state st.
  destruct e as [i sp | p | x | d | d | d | d | d | answer cits | | ];
    try same_timers.
  - destruct p; same_timers.
  - unfold one_debounce. app_red.
    destruct (map_fresh _ _ _ _ _) as [l' c'].
    destruct tr as [t |]; app_red; intros Hone i t' Hi Hp Ha;
      (destruct (Nat.lt_trichotomy i (List.length ts)) as [Hlt | [-> | Hgt]];
       [ rewrite nth_error_app1 in Hi by exact Hlt; eapply Hone; eauto
       | rewrite nth_error_app2, Nat.sub_diag in Hi by lia;
         injection Hi as <-; discriminate
       | rewrite (proj2 (nth_error_None _ _)) in Hi;
         [ discriminate | rewrite length_app; simpl; lia ] ]).
  - destruct tr as [t |]; same_timers.
Qed.

Lemma one_debounce_step (ev : event) (st : State) :
  one_debounce st -> one_debounce (step ev st).
Proof.
  intros Hone. destruct ev; simpl.
  - apply one_debounce_onChange, Hone.
  - apply one_debounce_send, Hone.
  - destruct (is_thinking st); [ apply one_debounce_stopRun, Hone | exact Hone ].
  - unfold onEscape.
    destruct (is_thinking st); [ apply one_debounce_stopRun, Hone | exact Hone ].
  - revert Hone. destruct_state st. same_timers.
  - destruct (listed _ _); [ | exact Hone ].
    revert Hone. destruct_state st. same_timers.
  - destruct (listed _ _); [ | exact Hone ].
    revert Hone. destruct_state st.
    destruct cid as [c |]; unfold one_debounce; app_red;
      [ destruct (UString.eqb c id) | ]; exact (fun H => H).
  - destruct (listed _ _); [ | exact Hone ].
    revert Hone. destruct_state st. same_timers.
  - revert Hone. destruct_state st.
    destruct md, m; unfold one_debounce; app_red; try exact (fun H => H);
      (destruct cid as [c |]; app_red; [ destruct (Util.truthy c) | ];
       exact (fun H => H)).
  - revert Hone. destruct_state st. same_timers.
  - destruct (_ && _); [ | exact Hone ].
    revert Hone. destruct_state st. same_timers.
  - destruct (_ && _); [ | exact Hone ].
    revert Hone. destruct_state st. same_timers.
  - destruct (ac (composer st)); [ | exact Hone ].
    revert Hone. destruct_state st. same_timers.
  - revert Hone. destruct_state st. same_timers.
  - apply one_debounce_advance, Hone.
  - unfold onTick. destruct (interval_live h st); [ | exact Hone ].
    revert Hone. destruct_state st. same_timers.
  - revert Hone. destruct_state st. unfold one_debounce. app_red.
    destruct (nth_error fs r) as [f |]; [ | exact (fun H => H) ].
    destruct (inflight f); exact (fun H => H).
  - apply one_debounce_deliver, Hone.
Qed.

Lemma one_debounce_reachable (stored : list Session.t) (t : N)
    (evs : list event) :
  one_debounce (run_events evs (init stored t)).
Proof.
  unfold run_events. rewrite <- fold_left_rev_right.
  induction (rev evs) as [| ev r IH]; simpl.
  - intros i x Hi. destruct i; discriminate.
  - apply one_debounce_step, IH.
Qed.

(** X18.  The part of the debounce that holds.  In any state the component
    reaches with autocorrect on, a burst of text changes, each of at least 3
    characters after trimming and each less than 300 ms after the one before,
    followed by a pause of at least 300 ms, issues exactly one request, for
    the last text. *)
Theorem debounce_burst :
  forall (stored : list Session.t) (t0 : N) (evs : list event)
         (v : ustring) (rest : list (N * ustring)) (p : N),
    let st := run_events evs (init stored t0) in
    autoCorrectOn (composer st) = true ->
    3 <= UString.length (Util.trim v) ->
    Forall quick rest ->
    (300 <= p)%N ->
    fetches (env (run_events (TextChange v :: burst rest ++ [Advance p]) st))
    = (fetches (env st) ++ [mkFetch (Util.trim (final_text v rest)) true])%list.
Proof.
  intros stored t0 evs v rest p st Hon Hv Hq Hp.
  pose proof (one_debounce_reachable stored t0 evs) as Hone. fold st in Hone.
  destruct (onChange_arms v st Hone Hon Hv) as [Harm [Hf Hn]].
  rewrite <- Hn in Harm.
  change (run_events (TextChange v :: burst rest ++ [Advance p]) st)
    with (run_events (burst rest ++ [Advance p]) (onChange v st)).
  rewrite (burst_armed p rest Hp Hq _ v Harm). congruence.
Qed.

Lemma debounce_burst_witness :
  fetches
    (env (run_events
            [TextChange "wah"; Advance 120; TextChange "waht is";
             Advance 200; TextChange "waht is ai"; Advance 300]
            (init [] 0)))
  = [mkFetch "waht is ai" true].
Proof.
  apply (debounce_burst [] 0 [] "wah" [(120%N, "waht is"); (200%N, "waht is ai")]
           300%N).
  - reflexivity.
  - vm_compute. lia.
  - repeat constructor; vm_compute; try reflexivity; lia.
  - vm_compute. discriminate.
Defined.

(** ** Two runs of the whole component *)

(** A thorough run: a plan of three steps, progress 100, then the final
    answer.  The session ends with the assistant message, the run is done,
    the stream is closed, and 800 ms later the progress is back at 0. *)
Example thorough_run_completes :
  let st := run_events
              [TextChange "why is the sky blue"; Submit;
               StreamEvent 0 (ev_plan None (Some ["a"; "b"; "c"]));
               StreamEvent 0 (ev_progress (Some 100%Q));
               StreamEvent 0 (ev_final "X" (Some ["https://a"]))]
              (init [] 1000) in
  map (fun s => map (fun m => (Message.role m, Message.content m,
                               Message.citations m))
                 (Session.messages s))
    (sessions (store st))
  = [[(user, "why is the sky blue", None);
      (assistant, "X", Some ["https://a"])]]
  /\ status (run st) = done
  /\ progress (run st) = 100%Q
  /\ stream_open 0 st = false
  /\ interval_live 0 st = false
  /\ progress (run (step (Advance 800) st)) = 0%Q.
Proof. vm_compute. repeat split. Qed.

(** Escape while thinking: the run is stopped, the stream closed, one trace
    entry tells of the stop, and nothing the stream sends afterwards is
    taken. *)
Example escape_stops_run :
  let st := run_events
              [TextChange "why is the sky blue"; Submit; EscapeKey]
              (init [] 1000) in
  status (run st) = stopped
  /\ stream_open 0 st = false
  /\ map (fun s => Session.trace s) (sessions (store st)) = [[stopped_by_user]]
  /\ step (StreamEvent 0 (ev_status (Some "late"))) st = st.
Proof. vm_compute. repeat split. Qed.

(** ** The text utilities *)

Lemma spaced_collapse (s : ustring) :
  forall b, spaced b (Util.collapse_ws b s) = true.
Proof.
  induction s as [| c r IH]; intros b; simpl; [ reflexivity | ].
  destruct (Util.is_space c) eqn:Ec.
  - destruct b; [ apply IH | ]. simpl. apply IH.
  - simpl. rewrite Ec. apply IH.
Qed.

Lemma collapse_spaced (s : ustring) :
  forall b, spaced b s = true -> Util.collapse_ws b s = s.
Proof.
  induction s as [| c r IH]; intros b; simpl; [ reflexivity | ].
  destruct (Util.is_space c) eqn:Ec.
  - intros H. apply andb_prop in H. destruct H as [H Hr].
    apply andb_prop in H. destruct H as [Hc Hb].
    apply N.eqb_eq in Hc. subst c.
    destruct b; [ discriminate | ]. rewrite (IH true Hr). reflexivity.
  - intros H. rewrite (IH false H). reflexivity.
Qed.

Lemma spaced_weaken (s : ustring) : spaced true s = true -> spaced false s = true.
Proof.
  destruct s as [| c r]; simpl; [ reflexivity | ].
  destruct (Util.is_space c); [ | exact (fun H => H) ].
  rewrite andb_false_r. discriminate.
Qed.

Lemma spaced_trimStart (s : ustring) :
  forall b, spaced b s = true -> spaced false (Util.trimStart s) = true.
Proof.
  induction s as [| c r IH]; intros b; simpl; [ reflexivity | ].
  destruct (Util.is_space c) eqn:Ec.
  - intros H. apply andb_prop in H. destruct H as [_ Hr]. apply (IH true Hr).
  - intros H. simpl. rewrite Ec. exact H.
Qed.

Lemma trimEnd_nil_blank (s : ustring) :
  Util.trimEnd s = "" -> blank s = true.
Proof.
  induction s as [| c r IH]; simpl; [ reflexivity | ].
  destruct (Util.trimEnd r) as [| d r'] eqn:Er; [ | discriminate ].
  destruct (Util.is_space c); [ | discriminate ].
  intros _. apply IH. reflexivity.
Qed.

Lemma spaced_trimEnd (s : ustring) :
  forall b, spaced b s = true -> spaced b (Util.trimEnd s) = true.
Proof.
  induction s as [| c r IH]; intros b; simpl; [ reflexivity | ].
  destruct (Util.is_space c) eqn:Ec.
  - intros H. apply andb_prop in H. destruct H as [H Hr].
    specialize (IH true Hr).
    destruct (Util.trimEnd r) as [| d r'] eqn:Er; [ reflexivity | ].
    simpl. rewrite Ec, H. exact IH.
  - intros H. specialize (IH false H).
    destruct (Util.trimEnd r) as [| d r'] eqn:Er; simpl; rewrite Ec;
      [ reflexivity | exact IH ].
Qed.

Lemma head_ok_trimStart (s : ustring) : head_ok (Util.trimStart s) = true.
Proof.
  induction s as [| c r IH]; simpl; [ reflexivity | ].
  destruct (Util.is_space c) eqn:Ec; [ exact IH | ]. simpl. rewrite Ec. reflexivity.
Qed.

Lemma trimStart_head_ok (s : ustring) : head_ok s = true -> Util.trimStart s = s.
Proof.
  destruct s as [| c r]; simpl; [ reflexivity | ].
  destruct (Util.is_space c); [ discriminate | reflexivity ].
Qed.

Lemma head_ok_trimEnd (s : ustring) :
  head_ok s = true -> head_ok (Util.trimEnd s) = true.
Proof.
  destruct s as [| c r]; simpl; [ reflexivity | ].
  destruct (Util.is_space c) eqn:Ec; [ discriminate | ]. intros _.
  destruct (Util.trimEnd r); simpl; rewrite Ec; reflexivity.
Qed.

Lemma last_ok_trimEnd (s : ustring) : last_ok (Util.trimEnd s) = true.
Proof.
  induction s as [| c r IH]; simpl; [ reflexivity | ].
  destruct (Util.trimEnd r) as [| d r'] eqn:Er.
  - destruct (Util.is_space c) eqn:Ec; simpl; [ reflexivity | ].
    rewrite Ec. reflexivity.
  - exact IH.
Qed.

Lemma trimEnd_last_ok (s : ustring) : last_ok s = true -> Util.trimEnd s = s.
Proof.
  induction s as [| c r IH]; simpl; [ reflexivity | ].
  destruct r as [| d r'].
  - simpl. destruct (Util.is_space c); [ discriminate | reflexivity ].
  - intros H. rewrite (IH H). reflexivity.
Qed.

Lemma str_trim_tidy (s : ustring) :
  head_ok (Util.str_trim s) = true /\ last_ok (Util.str_trim s) = true.
Proof.
  unfold Util.str_trim. split.
  - apply head_ok_trimEnd, head_ok_trimStart.
  - apply last_ok_trimEnd.
Qed.

Lemma str_trim_fixed (s : ustring) :
  head_ok s = true -> last_ok s = true -> Util.str_trim s = s.
Proof.
  intros Hh Hl. unfold Util.str_trim.
  rewrite (trimStart_head_ok s Hh). apply trimEnd_last_ok, Hl.
Qed.

Lemma str_trim_idem (s : ustring) : Util.str_trim (Util.str_trim s) = Util.str_trim s.
Proof. apply str_trim_fixed; apply str_trim_tidy. Qed.

Lemma trimStart_blank (s : ustring) : blank s = true -> Util.trimStart s = "".
Proof.
  induction s as [| c r IH]; simpl; [ reflexivity | ].
  destruct (Util.is_space c); [ exact IH | discriminate ].
Qed.

Lemma blank_collapse (s : ustring) :
  forall b, blank s = true -> blank (Util.collapse_ws b s) = true.
Proof.
  induction s as [| c r IH]; intros b; simpl; [ reflexivity | ].
  destruct (Util.is_space c); [ | discriminate ].
  simpl. intros H. destruct b; simpl; apply IH; exact H.
Qed.

Lemma length_trimStart (s : ustring) :
  UString.length (Util.trimStart s) <= UString.length s.
Proof.
  induction s as [| c r IH]; simpl; [ lia | ].
  destruct (Util.is_space c); simpl; lia.
Qed.

Lemma length_trimEnd (s : ustring) :
  UString.length (Util.trimEnd s) <= UString.length s.
Proof.
  induction s as [| c r IH]; simpl; [ lia | ].
  destruct (Util.trimEnd r); [ destruct (Util.is_space c) | ]; simpl in *; lia.
Qed.

Lemma length_collapse (s : ustring) :
  forall b, UString.length (Util.collapse_ws b s) <= UString.length s.
Proof.
  induction s as [| c r IH]; intros b; simpl; [ lia | ].
  destruct (Util.is_space c); [ destruct b | ]; simpl;
    [ specialize (IH true) | specialize (IH true) | specialize (IH false) ]; lia.
Qed.

Lemma trim_spaced (s : ustring) : spaced false (Util.trim s) = true.
Proof.
  unfold Util.trim, Util.str_trim.
  apply spaced_trimEnd. apply (spaced_trimStart _ false). apply spaced_collapse.
Qed.

Lemma trim_tidy (s : ustring) :
  spaced false (Util.trim s) = true
  /\ head_ok (Util.trim s) = true
  /\ last_ok (Util.trim s) = true.
Proof.
  destruct (str_trim_tidy (Util.collapse_ws false s)) as [Hh Hl].
  split; [ apply trim_spaced | split; assumption ].
Qed.

Lemma trim_fixed (s : ustring) :
  spaced false s = true -> head_ok s = true -> last_ok s = true ->
  Util.trim s = s.
Proof.
  intros Hs Hh Hl. unfold Util.trim. rewrite (collapse_spaced _ _ Hs).
  apply str_trim_fixed; assumption.
Qed.

Lemma trim_idem (s : ustring) : Util.trim (Util.trim s) = Util.trim s.
Proof. destruct (trim_tidy s) as [Hs [Hh Hl]]. apply trim_fixed; assumption. Qed.

Lemma length_trim (s : ustring) : UString.length (Util.trim s) <= UString.length s.
Proof.
  unfold Util.trim, Util.str_trim.
  pose proof (length_trimEnd (Util.trimStart (Util.collapse_ws false s))).
  pose proof (length_trimStart (Util.collapse_ws false s)).
  pose proof (length_collapse s false). lia.
Qed.

Lemma blank_trimStart (s : ustring) : blank (Util.trimStart s) = true -> blank s = true.
Proof.
  induction s as [| c r IH]; simpl; [ reflexivity | ].
  destruct (Util.is_space c) eqn:Ec; [ exact IH | ].
  simpl. rewrite Ec. discriminate.
Qed.

Lemma blank_of_collapse (s : ustring) :
  forall b, blank (Util.collapse_ws b s) = true -> blank s = true.
Proof.
  induction s as [| c r IH]; intros b; simpl; [ reflexivity | ].
  destruct (Util.is_space c) eqn:Ec.
  - destruct b; simpl; apply IH.
  - simpl. rewrite Ec. discriminate.
Qed.

Lemma trim_empty_iff (s : ustring) : Util.trim s = "" <-> blank s = true.
Proof.
  split.
  - unfold Util.trim, Util.str_trim. intros H.
    apply (blank_of_collapse s false), blank_trimStart, trimEnd_nil_blank, H.
  - intros H. unfold Util.trim, Util.str_trim.
    rewrite trimStart_blank; [ reflexivity | ]. apply blank_collapse, H.
Qed.

Lemma truthy_trim (s : ustring) : Util.truthy (Util.trim s) = negb (blank s).
Proof.
  destruct (blank s) eqn:Eb.
  - apply trim_empty_iff in Eb. rewrite Eb. reflexivity.
  - destruct (Util.trim s) eqn:Et; [ | reflexivity ].
    apply trim_empty_iff in Et. congruence.
Qed.

Lemma length_substring0 (n : nat) :
  forall s, UString.length (UString.substring 0 n s) = Nat.min n (UString.length s).
Proof.
  induction n as [| n IH]; intros [| c r]; simpl; try reflexivity.
  rewrite IH. reflexivity.
Qed.

Lemma prefix_substring0 (n : nat) :
  forall s, UString.prefix (UString.substring 0 n s) s = true.
Proof.
  induction n as [| n IH]; intros [| c r]; simpl; try reflexivity.
  rewrite N.eqb_refl. apply IH.
Qed.

Lemma substring0_all (n : nat) :
  forall s, UString.length s <= n -> UString.substring 0 n s = s.
Proof.
  induction n as [| n IH]; intros [| d t]; simpl; intros H;
    try reflexivity; try lia.
  rewrite IH by lia. reflexivity.
Qed.

Lemma head_ok_substring0 (n : nat) (s : ustring) :
  head_ok s = true -> head_ok (UString.substring 0 n s) = true.
Proof. destruct n, s; simpl; auto. Qed.


(** X1.  [trim] yields a text in which white space (the class [\s] of the
    language: U+00A0, U+2028, U+3000, U+FEFF and the others included) occurs
    only as single spaces U+0020 between other characters, never at either
    end; a text of that form is left as it is, so trimming twice is trimming
    once; the result is never longer than the input, counted in code units,
    and it is empty exactly for a text of white space only. *)
Theorem trim_normal_form :
  forall s : ustring,
    spaced false (Util.trim s) = true
    /\ head_ok (Util.trim s) = true
    /\ last_ok (Util.trim s) = true
    /\ Util.trim (Util.trim s) = Util.trim s
    /\ UString.length (Util.trim s) <= UString.length s
    /\ (Util.trim s = "" <-> blank s = true)
    /\ (spaced false s && head_ok s && last_ok s = true <-> Util.trim s = s)
    /\ Util.trim (UString 160 ("a" ++ UString 8232 (UString 12288
                                 ("b" ++ UString 65279 ""))))
       = "a b".
Proof.
  intros s. destruct (trim_tidy s) as [Hs [Hh Hl]].
  split; [ exact Hs | split; [ exact Hh | split; [ exact Hl | ] ] ].
  split; [ apply trim_idem | split; [ apply length_trim | ] ].
  split; [ apply trim_empty_iff | ].
  split; [ | reflexivity ].
  split.
  - intros H. apply andb_prop in H. destruct H as [H H3].
    apply andb_prop in H. destruct H as [H1 H2]. apply trim_fixed; assumption.
  - intros E. rewrite <- E, Hs, Hh, Hl. reflexivity.
Qed.

Lemma titleOf_length (s : ustring) :
  1 <= UString.length (Util.titleOf s) <= 64.
Proof.
  unfold Util.titleOf, Util.or_else.
  pose proof (length_substring0 64 (Util.trim s)) as Hl.
  destruct (Util.trim s) as [| c r]; [ simpl; lia | ].
  change (Util.truthy (UString.substring 0 64 (UString c r))) with true.
  cbn iota. rewrite Hl. cbn [UString.length]. lia.
Qed.

(** X2.  A title is never empty and never longer than 64 UTF-16 code units,
    and it does not start with white space: it is "Untitled" for a text of
    white space only (the empty text and a text of U+00A0 included), and
    otherwise the first 64 code units of the tidied text. *)
Theorem titleOf_bounds :
  forall s : ustring,
    1 <= UString.length (Util.titleOf s) <= 64
    /\ head_ok (Util.titleOf s) = true
    /\ (if blank s then Util.titleOf s = "Untitled"
        else Util.titleOf s = UString.substring 0 64 (Util.trim s)
             /\ UString.prefix (Util.titleOf s) (Util.trim s) = true)
    /\ (UString.length (Util.trim s) <= 64 -> blank s = false ->
        Util.titleOf s = Util.trim s)
    /\ Util.titleOf (UString 160 (UString 160 "")) = "Untitled".
Proof.
  intros s.
  assert (Hex : Util.titleOf (UString 160 (UString 160 "")) = "Untitled")
    by reflexivity.
  revert Hex. generalize (Util.titleOf (UString 160 (UString 160 ""))).
  intros ex Hex. unfold Util.titleOf, Util.or_else.
  pose proof (truthy_trim s) as Ht.
  pose proof (length_substring0 64 (Util.trim s)) as Hl.
  destruct (trim_tidy s) as [_ [Hh _]].
  destruct (blank s) eqn:Eb.
  - apply trim_empty_iff in Eb. rewrite Eb. simpl.
    repeat split; try lia; try discriminate; exact Hex.
  - destruct (Util.trim s) as [| c r] eqn:Et; [ discriminate | ].
    cbn [UString.substring Util.truthy].
    split; [ | split; [ | split; [ | split; [ | exact Hex ] ] ] ].
    + change (UString c (UString.substring 0 63 r)) with (UString.substring 0 64 (UString c r)).
      rewrite Hl. cbn [UString.length]. lia.
    + exact Hh.
    + split; [ reflexivity | ].
      apply (prefix_substring0 64 (UString c r)).
    + intros Hlen _. apply (substring0_all 64 (UString c r)), Hlen.
Qed.

(** ** Identifiers made by [uid] *)

Lemma all_digits_uint (d : Decimal.uint) : all_digits (Util.digits d) = true.
Proof. induction d; simpl; auto. Qed.

Lemma all_digits_dec (n : N) : all_digits (Util.dec n) = true.
Proof. apply all_digits_uint. Qed.

Lemma digits_inj (d : Decimal.uint) :
  forall d', Util.digits d = Util.digits d' -> d = d'.
Proof.
  induction d as [| r IH | r IH | r IH | r IH | r IH | r IH | r IH | r IH
                  | r IH | r IH ];
    intros [| r' | r' | r' | r' | r' | r' | r' | r' | r' | r' ]; simpl;
    intros E; try discriminate; try reflexivity;
    injection E as E; rewrite (IH r' E); reflexivity.
Qed.

Lemma to_uint_nonnil (n : N) : N.to_uint n <> Decimal.Nil.
Proof.
  destruct n as [| p]; simpl;
    [ discriminate | apply DecimalPos.Unsigned.to_uint_nonnil ].
Qed.

Lemma dec_inj (n n' : N) : Util.dec n = Util.dec n' -> n = n'.
Proof.
  unfold Util.dec. intros H.
  apply DecimalN.Unsigned.to_uint_inj, digits_inj, H.
Qed.

Lemma dec_nonempty (n : N) : Util.dec n <> "".
Proof.
  unfold Util.dec. pose proof (to_uint_nonnil n) as Hn.
  destruct (N.to_uint n); simpl; try discriminate. congruence.
Qed.

(** Two texts of digits, each followed by an underscore, that start equal
    texts are equal. *)
Lemma digits_split (a : ustring) :
  forall a' b b',
    all_digits a = true -> all_digits a' = true ->
    a ++ UString 95 b = a' ++ UString 95 b' -> a = a' /\ b = b'.
Proof.
  induction a as [| c r IH]; intros [| c' r'] b b'; simpl; intros Ha Ha' E.
  - injection E as ->. split; reflexivity.
  - injection E as <- _. discriminate.
  - injection E as -> _. discriminate.
  - injection E as -> E.
    apply andb_prop in Ha, Ha'.
    destruct (IH r' b b' (proj2 Ha) (proj2 Ha') E) as [-> ->].
    split; reflexivity.
Qed.

Lemma uid_inj (n c n' c' : N) :
  fst (Util.uid n c) = fst (Util.uid n' c') -> n = n' /\ c = c'.
Proof.
  unfold Util.uid. cbn [fst]. intros E.
  change ("m_" ++ Util.dec n ++ "_" ++ Util.dec c)
    with (UString 109 (UString 95 (Util.dec n ++ UString 95 (Util.dec c)))) in E.
  change ("m_" ++ Util.dec n' ++ "_" ++ Util.dec c')
    with (UString 109 (UString 95 (Util.dec n' ++ UString 95 (Util.dec c')))) in E.
  injection E as E.
  apply digits_split in E; try apply all_digits_dec.
  destruct E as [E1 E2]. split; apply dec_inj; assumption.
Qed.

Lemma uid_truthy (n c : N) : Util.truthy (fst (Util.uid n c)) = true.
Proof. reflexivity. Qed.

(** X3.  [uid] is injective in the clock value and the counter: two calls
    return the same identifier only at the same millisecond with the same
    counter value, and since each call moves the counter on by one, no two
    calls made since the page was loaded return the same identifier.  An
    identifier is never the empty text. *)
Theorem uid_injective :
  forall n c n' c' : N,
    (fst (Util.uid n c) = fst (Util.uid n' c') <-> n = n' /\ c = c')
    /\ snd (Util.uid n c) = (c + 1)%N
    /\ ((c < c')%N -> fst (Util.uid n c) <> fst (Util.uid n' c'))
    /\ fst (Util.uid n c) <> "".
Proof.
  intros n c n' c'. split; [ split | split; [ reflexivity | split ] ].
  - apply uid_inj.
  - intros [-> ->]. reflexivity.
  - intros Hlt E. apply uid_inj in E. lia.
  - discriminate.
Qed.
(** ** The step list of the loader *)

Lemma stepPct_exact_mono (n i j : nat) :
  j <= i -> (Loader.stepPct_exact j n <= Loader.stepPct_exact i n)%Q.
Proof.
  intros H. unfold Loader.stepPct_exact, Qdiv.
  apply Qmult_le_compat_r; [ | discriminate ].
  apply Qmult_le_compat_r.
  - rewrite <- Zle_Qle. lia.
  - apply Qinv_le_0_compat. change 0%Q with (inject_Z 0). rewrite <- Zle_Qle. lia.
Qed.

Lemma stepPct_exact_last (n i : nat) :
  i < n -> (Loader.stepPct_exact i n <= 100)%Q.
Proof.
  intros H. unfold Loader.stepPct_exact.
  setoid_replace 100%Q with (1 * 100)%Q at 2 by reflexivity.
  apply Qmult_le_compat_r; [ | discriminate ].
  apply Qle_shift_div_r.
  - change 0%Q with (inject_Z 0). rewrite <- Zlt_Qlt. lia.
  - rewrite Qmult_1_l. rewrite <- Zle_Qle. lia.
Qed.

Lemma done_exact_le (p : Q) (i n : nat) :
  Loader.done_exact p i n = true <-> (Loader.stepPct_exact i n - 1 <= p)%Q.
Proof. apply done_exact_iff. Qed.

Lemma labels_stepItems (steps : list ustring) (p : Q) :
  map snd (Loader.stepItems steps p) = steps.
Proof.
  apply nth_error_ext. intros i.
  rewrite nth_error_map, nth_error_stepItems.
  destruct (nth_error steps i); reflexivity.
Qed.

Lemma done_progress_mono (p p' : Q) (i n : nat) :
  (p <= p')%Q -> Loader.done p i n = true -> Loader.done p' i n = true.
Proof. rewrite !done_reaches. apply reaches_mono. Qed.

(** Within a plan of at most 100 steps a step before a done step is done. *)
Lemma done_earlier (p : Q) (i j n : nat) :
  n <= 100 -> j <= i -> i < n ->
  Loader.done p i n = true -> Loader.done p j n = true.
Proof.
  intros Hn Hji Hi Hd.
  destruct (threshold_ordered i j n Hn Hji Hi) as [a [b [Ea [Eb [Hab _]]]]].
  apply (reaches_value p j n a Ea).
  apply (reaches_value p i n b Eb) in Hd.
  eapply Qle_trans; eassumption.
Qed.

Lemma done_from_99 (p : Q) (i n : nat) :
  n <= 100 -> i < n -> (99 <= p)%Q -> Loader.done p i n = true.
Proof.
  intros Hn Hi Hp.
  destruct (threshold_ordered i i n Hn (le_n i) Hi) as [a [b [_ [Eb [_ Hb]]]]].
  apply (reaches_value p i n b Eb). eapply Qle_trans; eassumption.
Qed.

(** X4.  The step list of the loader shows the steps of the plan, in order,
    and a step that is done stays done when the progress value rises.  In a
    plan of at most 100 steps the steps marked done form an initial part of
    the list (a step before a done step is done), and from the value 99 on
    every step is done: the thresholds that the code computes in binary64 do
    not decrease along such a plan and end at or below 99.  The rule with
    the exact threshold has these properties for a plan of any length. *)
Theorem done_steps_form_prefix :
  forall (steps : list ustring) (p : Q),
    (map snd (Loader.stepItems steps p) = steps
     /\ (forall p' i s, (p <= p')%Q ->
           nth_error (Loader.stepItems steps p) i = Some (true, s) ->
           nth_error (Loader.stepItems steps p') i = Some (true, s))
     /\ (List.length steps <= 100 ->
         forall i j s, j <= i ->
           nth_error (Loader.stepItems steps p) i = Some (true, s) ->
           exists t, nth_error (Loader.stepItems steps p) j = Some (true, t))
     /\ (List.length steps <= 100 -> (99 <= p)%Q ->
         Loader.stepItems steps p = map (fun s => (true, s)) steps))
    /\ (map snd (Loader.stepItems_exact steps p) = steps
        /\ (forall i j s, j <= i ->
              nth_error (Loader.stepItems_exact steps p) i = Some (true, s) ->
              exists t,
                nth_error (Loader.stepItems_exact steps p) j = Some (true, t))
        /\ (forall p' i s, (p <= p')%Q ->
              nth_error (Loader.stepItems_exact steps p) i = Some (true, s) ->
              nth_error (Loader.stepItems_exact steps p') i = Some (true, s))
        /\ ((99 <= p)%Q ->
              Loader.stepItems_exact steps p = map (fun s => (true, s)) steps)).
Proof.
  intros steps p. split; [ split; [ | split; [ | split ] ]
                         | split; [ | split; [ | split ] ] ].
  - apply labels_stepItems.
  - intros p' i s Hpp. rewrite !nth_error_stepItems.
    destruct (nth_error steps i) as [x |]; [ | discriminate ].
    cbn [option_map]. intros E. injection E as Hd ->.
    rewrite (done_progress_mono p p' i _ Hpp Hd). reflexivity.
  - intros Hn i j s Hji. rewrite !nth_error_stepItems.
    destruct (nth_error steps i) as [x |] eqn:Ei; [ | discriminate ].
    assert (Hi : i < List.length steps) by (apply nth_error_Some; congruence).
    assert (Hj : j < List.length steps) by lia.
    apply nth_error_Some in Hj.
    destruct (nth_error steps j) as [t |]; [ | congruence ].
    cbn [option_map]. intros E. injection E as Hd _.
    exists t. rewrite (done_earlier p i j _ Hn Hji Hi Hd). reflexivity.
  - intros Hn H99. apply nth_error_ext. intros i.
    rewrite nth_error_map, nth_error_stepItems.
    destruct (nth_error steps i) as [x |] eqn:Ei; [ | reflexivity ].
    assert (Hi : i < List.length steps) by (apply nth_error_Some; congruence).
    cbn [option_map]. rewrite (done_from_99 p i _ Hn Hi H99). reflexivity.
  - apply nth_error_ext. intros i.
    rewrite nth_error_map, nth_error_stepItems_exact.
    destruct (nth_error steps i); reflexivity.
  - intros i j s Hji. rewrite !nth_error_stepItems_exact.
    destruct (nth_error steps i) as [x |] eqn:Ei; [ | discriminate ].
    assert (Hj : j < List.length steps).
    { assert (i < List.length steps) by (apply nth_error_Some; congruence). lia. }
    apply nth_error_Some in Hj.
    destruct (nth_error steps j) as [t |]; [ | congruence ].
    cbn [option_map]. intros E. injection E as Hd _.
    exists t. f_equal. f_equal.
    apply done_exact_le. apply done_exact_le in Hd.
    eapply Qle_trans; [ | exact Hd ].
    apply Qplus_le_l. apply stepPct_exact_mono, Hji.
  - intros p' i s Hpp. rewrite !nth_error_stepItems_exact.
    destruct (nth_error steps i) as [x |]; [ | discriminate ].
    cbn [option_map]. intros E. injection E as Hd ->.
    f_equal. f_equal. apply done_exact_le. apply done_exact_le in Hd.
    eapply Qle_trans; eassumption.
  - intros H99. apply nth_error_ext. intros i.
    rewrite nth_error_map, nth_error_stepItems_exact.
    destruct (nth_error steps i) as [x |] eqn:Ei; [ | reflexivity ].
    cbn [option_map]. f_equal. f_equal.
    apply done_exact_le.
    assert (Hi : i < List.length steps) by (apply nth_error_Some; congruence).
    apply stepPct_exact_last in Hi.
    eapply Qle_trans; [ | exact H99 ].
    setoid_replace 99%Q with (100 - 1)%Q by reflexivity.
    apply Qplus_le_l, Hi.
Qed.

(** ** What is saved is what is loaded *)

Lemma lookup_store_same (k v : ustring) (l : list (ustring * ustring)) :
  Storage.lookup k (Storage.store k v l) = Some v.
Proof.
  induction l as [| [k' v'] r IH]; simpl.
  - rewrite UStringFacts.eqb_refl. reflexivity.
  - destruct (UString.eqb k k') eqn:E; simpl.
    + rewrite UStringFacts.eqb_refl. reflexivity.
    + rewrite E. exact IH.
Qed.

Lemma lookup_store_other (k v k0 : ustring) (l : list (ustring * ustring)) :
  k0 <> k -> Storage.lookup k0 (Storage.store k v l) = Storage.lookup k0 l.
Proof.
  intros Hne. induction l as [| [k' v'] r IH]; simpl.
  - apply UStringFacts.eqb_neq in Hne. rewrite Hne. reflexivity.
  - destruct (UString.eqb k k') eqn:E; simpl.
    + apply UStringFacts.eqb_eq in E. subst k'.
      apply UStringFacts.eqb_neq in Hne. rewrite Hne. reflexivity.
    + rewrite IH. reflexivity.
Qed.

(** X5.  When the sessions print as a non-empty text that parses back to
    them, the storage is accessible and the text fits the quota,
    [saveSessions] followed by [loadSessions] yields the sessions that were
    saved; the entries under other keys, and the storage's settings, are as
    they were, so a later save replaces an earlier one. *)
Theorem save_then_load :
  forall (value : Type) (empty_array : value)
         (JSON_parse : ustring -> Storage.completion value)
         (JSON_stringify : value -> Storage.completion ustring)
         (s : value) (text : ustring) (ls : Storage.LocalStorage),
    JSON_stringify s = Storage.Normal text ->
    JSON_parse text = Storage.Normal s ->
    text <> "" ->
    Storage.accessible ls = true ->
    UString.length text <= Storage.quota ls ->
    let ls' := snd (Storage.saveSessions value JSON_stringify s ls) in
    Storage.loadSessions value empty_array JSON_parse ls' = Storage.Normal s
    /\ Storage.lookup Storage.STORAGE_KEY (Storage.items ls') = Some text
    /\ (forall k, k <> Storage.STORAGE_KEY ->
          Storage.lookup k (Storage.items ls') = Storage.lookup k (Storage.items ls))
    /\ Storage.accessible ls' = true
    /\ Storage.quota ls' = Storage.quota ls.
Proof.
  intros value empty_array JSON_parse JSON_stringify s text ls
         Hprint Hparse Hne Hacc Hfit ls'.
  assert (Els : ls' = Storage.mkLS
                        (Storage.store Storage.STORAGE_KEY text (Storage.items ls))
                        true (Storage.quota ls)).
  { subst ls'. unfold Storage.saveSessions, Storage.setItem.
    rewrite Hprint, Hacc. cbn [negb].
    replace (Storage.quota ls <? UString.length text) with false
      by (symmetry; apply Nat.ltb_ge; exact Hfit).
    reflexivity. }
  rewrite Els. cbn [Storage.items Storage.accessible Storage.quota].
  split; [ | split; [ | split; [ | split ] ] ]; try reflexivity.
  - unfold Storage.loadSessions, Storage.getItem.
    cbn [Storage.items Storage.accessible Storage.bind].
    rewrite lookup_store_same. unfold Storage.or_brackets, Util.or_else.
    destruct text as [| c r]; [ congruence | ].
    cbn [Util.truthy]. rewrite Hparse. reflexivity.
  - apply lookup_store_same.
  - intros k Hk. apply lookup_store_other, Hk.
Qed.

Lemma save_then_load_witness :
  let ls := Storage.mkLS [("theme", "dark")] true 100 in
  let ls' := snd (Storage.saveSessions bool print_flag true ls) in
  Storage.loadSessions bool false parse_flag ls' = Storage.Normal true
  /\ Storage.lookup Storage.STORAGE_KEY (Storage.items ls') = Some "true"
  /\ (forall k, k <> Storage.STORAGE_KEY ->
        Storage.lookup k (Storage.items ls') = Storage.lookup k [("theme", "dark")])
  /\ Storage.accessible ls' = true
  /\ Storage.quota ls' = 100.
Proof.
  apply (save_then_load bool false parse_flag print_flag true "true"
           (Storage.mkLS [("theme", "dark")] true 100)).
  - reflexivity.
  - reflexivity.
  - discriminate.
  - reflexivity.
  - simpl. lia.
Defined.

(** ** The session list *)

(** What [send] does to the session list, the selection and the counter. *)
Lemma send_store (st : State) :
  Util.truthy (Util.trim (question (composer st))) = true ->
  let q := fst (resolve (autoCorrectOn (composer st)) (suggestion (composer st))
                  (Util.trim (question (composer st)))) in
  match current st with
  | Some c =>
      sessions (store (send st))
      = fst (map_fresh (Session.id c) (begin_turn q) (now (env st))
               (uidCounter (env st)) (sessions (store st)))
      /\ uidCounter (env (send st))
         = snd (map_fresh (Session.id c) (begin_turn q) (now (env st))
                  (uidCounter (env st)) (sessions (store st)))
      /\ currentId (store (send st)) = currentId (store st)
      /\ runIdRef (refs (send st)) = Some (Session.id c)
  | None =>
      let id := fst (Util.uid (now (env st)) (uidCounter (env st))) in
      let s := Session.mk id (Util.titleOf (Util.or_else q "New chat"))
                 (mode (store st)) [] [] (now (env st)) in
      sessions (store (send st))
      = fst (map_fresh id (begin_turn q) (now (env st))
               (uidCounter (env st) + 1) (s :: sessions (store st)))
      /\ uidCounter (env (send st))
         = snd (map_fresh id (begin_turn q) (now (env st))
                  (uidCounter (env st) + 1) (s :: sessions (store st)))
      /\ currentId (store (send st)) = Some id
      /\ runIdRef (refs (send st)) = Some id
  end
  /\ now (env (send st)) = now (env st).
Proof.
  destruct_state st. unfold current. app_red.
  intros Ht. rewrite Ht.
  destruct (resolve on sg (Util.trim qu)) as [q a] eqn:Er.
  app_red.
  destruct cid as [c |];
    [ destruct (find (fun s => UString.eqb (Session.id s) c) ss) as [cur |] eqn:Ef | ];
    app_red;
    destruct (map_fresh _ _ _ _ _) as [l' c'] eqn:Em;
    app_red;
    destruct tr as [t |], esr as [h |]; app_red;
    repeat split.
Qed.

Lemma grows_refl (s : Session.t) : grows s s.
Proof.
  split; [ reflexivity | split; [ reflexivity | ] ].
  exists []. rewrite app_nil_r. reflexivity.
Qed.

Lemma grows_trans (a b c : Session.t) : grows a b -> grows b c -> grows a c.
Proof.
  intros [Hi [Hc [m Hm]]] [Hi' [Hc' [m' Hm']]].
  split; [ congruence | split; [ congruence | ] ].
  exists (m ++ m')%list. rewrite Hm', Hm, app_assoc. reflexivity.
Qed.

Lemma Forall2_grows_refl (l : list Session.t) : Forall2 grows l l.
Proof. induction l; constructor; auto using grows_refl. Qed.

Lemma Forall2_grows_ids (l l' : list Session.t) :
  Forall2 grows l l' -> map Session.id l' = map Session.id l.
Proof.
  induction 1 as [| s s' l l' [Hi _] _ IH]; simpl; [ reflexivity | ].
  rewrite Hi, IH. reflexivity.
Qed.

Lemma map_session_grows (id : ustring) (f : Session.t -> Session.t)
    (l : list Session.t) :
  (forall s, grows s (f s)) -> Forall2 grows l (map_session id f l).
Proof.
  intros Hf. unfold map_session.
  induction l as [| s r IH]; simpl; constructor; [ | exact IH ].
  destruct (UString.eqb (Session.id s) id); [ apply Hf | apply grows_refl ].
Qed.

Lemma map_fresh_grows (id : ustring) (f : ustring -> Session.t -> Session.t)
    (nw : N) (l : list Session.t) :
  (forall u s, grows s (f u s)) ->
  forall ctr,
    Forall2 grows l (fst (map_fresh id f nw ctr l))
    /\ (ctr <= snd (map_fresh id f nw ctr l))%N.
Proof.
  intros Hf. induction l as [| s r IH]; intros ctr; simpl.
  - split; [ constructor | lia ].
  - destruct (UString.eqb (Session.id s) id).
    + destruct (IH (ctr + 1)%N) as [H1 H2].
      destruct (map_fresh id f nw (ctr + 1) r) as [r' c2]. simpl in *.
      split; [ constructor; [ apply Hf | exact H1 ] | lia ].
    + destruct (IH ctr) as [H1 H2].
      destruct (map_fresh id f nw ctr r) as [r' c2]. simpl in *.
      split; [ constructor; [ apply grows_refl | exact H1 ] | lia ].
Qed.

Lemma begin_turn_grows (q u : ustring) (s : Session.t) : grows s (begin_turn q u s).
Proof.
  split; [ reflexivity | split; [ reflexivity | ] ]. eexists. reflexivity.
Qed.

Lemma add_answer_grows (a : ustring) (c : option (list ustring)) (u : ustring)
    (s : Session.t) :
  grows s (add_answer a c u s).
Proof.
  split; [ reflexivity | split; [ reflexivity | ] ]. eexists. reflexivity.
Qed.

(** An event that rewrites sessions where they are, keeping what they hold,
    and leaves the selection. *)
Lemma moves_keep (del : option ustring) (st st' : State) :
  Forall2 grows (sessions (store st)) (sessions (store st')) ->
  currentId (store st') = currentId (store st) ->
  (now (env st) <= now (env st'))%N ->
  (uidCounter (env st) <= uidCounter (env st'))%N ->
  moves del st st'.
Proof.
  intros Hs Hc Hn Hu. split; [ | split; assumption ].
  apply move_keep; [ exact Hs | ]. intros c Hc'. left. congruence.
Qed.

Lemma moves_refl (del : option ustring) (st : State) : moves del st st.
Proof. apply moves_keep; try reflexivity; try lia. apply Forall2_grows_refl. Qed.

Ltac keep_fields :=
  apply moves_keep; app_red;
  first [ apply Forall2_grows_refl
        | apply map_session_grows; intros ?; apply grows_refl
        | apply map_session_grows; intros ?;
          (split; [ reflexivity | split; [ reflexivity | ] ]);
          exists []; rewrite app_nil_r; reflexivity
        | reflexivity
        | apply N.le_refl
        | idtac ].

Lemma moves_stopRun (del : option ustring) (st : State) : moves del st (stopRun st).
Proof.
  destruct_state st.
  destruct esr as [h |], tr as [t |], rid as [id |]; app_red;
    try (destruct (Util.truthy id)); keep_fields.
Qed.

Lemma store_clearTimeout_callback (h : nat) (c : callback) (st : State) :
  store (run_callback c (clearTimeout h st)) = store st
  /\ now (env (run_callback c (clearTimeout h st))) = now (env st)
  /\ uidCounter (env (run_callback c (clearTimeout h st))) = uidCounter (env st).
Proof. destruct_state st. destruct c; app_red; repeat split. Qed.

Lemma store_fire_due (fuel : nat) :
  forall st,
    store (fire_due fuel st) = store st
    /\ now (env (fire_due fuel st)) = now (env st)
    /\ uidCounter (env (fire_due fuel st)) = uidCounter (env st).
Proof.
  induction fuel as [| k IH]; intros st; simpl; [ repeat split | ].
  destruct (next_due _ _ _) as [[h d] |]; [ | repeat split ].
  destruct (nth_error _ h) as [t |]; [ | repeat split ].
  destruct (IH (run_callback (cb t) (clearTimeout h st))) as [H1 [H2 H3]].
  destruct (store_clearTimeout_callback h (cb t) st) as [G1 [G2 G3]].
  rewrite H1, H2, H3. auto.
Qed.

Lemma moves_advance (del : option ustring) (d : N) (st : State) :
  moves del st (advance d st).
Proof.
  unfold advance.
  destruct (store_fire_due
              (List.length (timeouts (env (set_now (now (env st) + d)%N st))))
              (set_now (now (env st) + d)%N st)) as [H1 [H2 H3]].
  apply moves_keep; rewrite ?H1, ?H2, ?H3; destruct_state st; app_red;
    try reflexivity; try lia.
  apply Forall2_grows_refl.
Qed.

Lemma moves_onChange (del : option ustring) (v : ustring) (st : State) :
  moves del st (onChange v st).
Proof.
  destruct_state st. unfold onChange.
  destruct (3 <=? UString.length (Util.trim v)); [ | keep_fields ].
  destruct on; [ | keep_fields ].
  destruct str as [h |]; keep_fields.
Qed.

Lemma moves_onResponse (del : option ustring) (h : nat)
    (res : option (option ustring)) (st : State) :
  moves del st (onResponse h res st).
Proof.
  unfold onResponse.
  destruct (nth_error (fetches (env st)) h) as [f |]; [ | apply moves_refl ].
  destruct (inflight f); [ | apply moves_refl ].
  destruct_state st. keep_fields.
Qed.

Lemma moves_listener (del : option ustring) (id : ustring) (es : nat)
    (e : stream_event) (st : State) :
  moves del st (listener id es e st).
Proof.
  destruct_state st.
  destruct e as [i sp | p | x | d | d | d | d | d | answer cits | | ];
    try solve [ keep_fields ].
  - destruct p; keep_fields.
  - app_red.
    destruct (map_fresh_grows id (add_answer answer cits) nw ss
                (add_answer_grows answer cits) u) as [H1 H2].
    destruct (map_fresh _ _ _ _ _) as [l' c'].
    destruct tr as [t |]; apply moves_keep; app_red;
      first [ exact H1 | exact H2 | reflexivity | apply N.le_refl ].
  - destruct tr as [t |]; keep_fields.
Qed.

Lemma moves_send (del : option ustring) (st : State) : moves del st (send st).
Proof.
  destruct (Util.truthy (Util.trim (question (composer st)))) eqn:Ht;
    [ | unfold send; rewrite Ht; apply moves_refl ].
  pose proof (send_store st Ht) as H. cbv zeta in H.
  destruct H as [H Hnow].
  set (q := fst (resolve _ _ _)) in H.
  destruct (current st) as [c |] eqn:Ec.
  - destruct H as [Hs [Hu [Hc _]]].
    destruct (map_fresh_grows (Session.id c) (begin_turn q) (now (env st))
                (sessions (store st)) (begin_turn_grows q)
                (uidCounter (env st))) as [H1 H2].
    apply moves_keep; rewrite ?Hs, ?Hu, ?Hc, ?Hnow;
      first [ exact H1 | exact H2 | reflexivity | apply N.le_refl ].
  - destruct H as [Hs [Hu [Hc _]]].
    set (s0 := Session.mk _ _ _ _ _ _) in Hs, Hu.
    destruct (map_fresh_grows (fst (Util.uid (now (env st)) (uidCounter (env st))))
                (begin_turn q) (now (env st))
                (s0 :: sessions (store st)) (begin_turn_grows q)
                (uidCounter (env st) + 1)%N) as [H1 H2].
    split; [ | split; [ rewrite Hnow; apply N.le_refl | rewrite Hu; lia ] ].
    apply (move_new del st (send st) s0).
    + reflexivity.
    + reflexivity.
    + rewrite Hs. exact H1.
    + exact Hc.
    + rewrite Hu. lia.
Qed.

Lemma listed_In (id : ustring) (st : State) :
  listed id st = true <-> In id (ids st).
Proof.
  unfold listed, ids. rewrite existsb_exists, in_map_iff.
  split; intros [s [H1 H2]]; exists s.
  - apply UStringFacts.eqb_eq in H2. auto.
  - split; [ exact H2 | apply UStringFacts.eqb_eq; exact H1 ].
Qed.

Lemma find_other_listed (id : ustring) (l : list Session.t) (c : ustring) :
  id_or_null (find (other_than id) l) = Some c ->
  c <> id /\ In c (map Session.id (filter (other_than id) l)).
Proof.
  destruct (find (other_than id) l) as [s |] eqn:Ef; [ | discriminate ].
  apply find_some in Ef. destruct Ef as [Hin Ho].
  simpl. destruct (Util.truthy (Session.id s)); [ | discriminate ].
  intros E. injection E as <-. split.
  - apply other_than_true, Ho.
  - apply in_map, filter_In. auto.
Qed.

Lemma moves_deleteSession (id : ustring) (st : State) :
  moves (Some id) st (deleteSession id st).
Proof.
  split; [ | destruct_state st;
             destruct cid as [c |]; app_red; unfold deleteSession; app_red;
             [ destruct (UString.eqb c id) | ]; app_red; split; apply N.le_refl ].
  apply (move_delete (Some id) st (deleteSession id st) id).
  - reflexivity.
  - apply sessions_deleteSession.
  - intros c Hc. unfold ids. rewrite sessions_deleteSession.
    destruct (currentId (store st)) as [c0 |] eqn:Ecur.
    + destruct (UString.eqb c0 id) eqn:E.
      * apply UStringFacts.eqb_eq in E. subst c0.
        rewrite (currentId_deleteSession_current _ _ Ecur) in Hc.
        apply find_other_listed in Hc. tauto.
      * revert Hc. destruct_state st. simpl in Ecur. subst cid.
        unfold deleteSession. app_red. rewrite E. app_red.
        intros Hc. injection Hc as <-. apply UStringFacts.eqb_neq in E. auto.
    + revert Hc. destruct_state st. simpl in Ecur. subst cid.
      unfold deleteSession. app_red. discriminate.
Qed.

(** Every event moves the session list in one of the three ways. *)
Lemma moves_step (ev : event) (st : State) :
  moves (deleted_by ev) st (step ev st).
Proof.
  destruct ev; cbn [step deleted_by].
  - apply moves_onChange.
  - apply moves_send.
  - destruct (is_thinking st); [ apply moves_stopRun | apply moves_refl ].
  - unfold onEscape.
    destruct (is_thinking st); [ apply moves_stopRun | apply moves_refl ].
  - split; [ | destruct_state st; app_red; split; apply N.le_refl ].
    apply move_keep.
    + destruct_state st. app_red. apply Forall2_grows_refl.
    + destruct_state st. app_red. discriminate.
  - destruct (listed id st) eqn:El; [ | apply moves_refl ].
    apply listed_In in El.
    split; [ | destruct_state st; app_red; split; apply N.le_refl ].
    apply move_keep.
    + destruct_state st. app_red. apply Forall2_grows_refl.
    + revert El. destruct_state st. unfold ids. app_red.
      intros El c Hc. injection Hc as <-. right. exact El.
  - destruct (listed id st); [ apply moves_deleteSession | apply moves_refl ].
  - destruct (listed id st); [ | apply moves_refl ].
    destruct_state st. keep_fields.
  - destruct_state st.
    destruct md, m; app_red; try apply moves_refl;
      (destruct cid as [c |]; app_red; [ destruct (Util.truthy c) | ];
       keep_fields).
  - destruct_state st. keep_fields.
  - destruct (_ && _); [ | apply moves_refl ]. destruct_state st. keep_fields.
  - destruct (_ && _); [ | apply moves_refl ]. destruct_state st. keep_fields.
  - destruct (ac (composer st)); [ | apply moves_refl ].
    destruct_state st. keep_fields.
  - destruct_state st. keep_fields.
  - apply moves_advance.
  - unfold onTick. destruct (interval_live h st); [ | apply moves_refl ].
    destruct_state st. keep_fields.
  - apply moves_onResponse.
  - unfold deliver. destruct (nth_error _ h) as [s |]; [ | apply moves_refl ].
    destruct (open s); [ apply moves_listener | apply moves_refl ].
Qed.

(** ** Invariants of the session list *)

Lemma selected_listed_moves (del : option ustring) (st st' : State) :
  moves del st st' -> selected_listed st -> selected_listed st'.
Proof.
  intros [Hm _] Hsel c Hc. destruct Hm as [Hs Hk | id _ Hs Hk | s0 _ _ Hs Hk _].
  - destruct (Hk c Hc) as [H | H]; [ | exact H ].
    unfold ids. rewrite (Forall2_grows_ids _ _ Hs). apply Hsel, H.
  - destruct (Hk c Hc) as [Hne [H | H]]; [ | exact H ].
    unfold ids. rewrite Hs.
    apply Hsel in H. unfold ids in H. apply in_map_iff in H.
    destruct H as [s [<- Hin]]. apply in_map, filter_In.
    split; [ exact Hin | apply other_than_true, Hne ].
  - unfold ids. rewrite (Forall2_grows_ids _ _ Hs).
    rewrite Hk in Hc. injection Hc as <-. left. reflexivity.
Qed.

Lemma selected_listed_init (stored : list Session.t) (t : N) :
  selected_listed (init stored t).
Proof.
  intros c. unfold init, ids. cbn [store currentId sessions].
  destruct stored as [| s r]; [ discriminate | ].
  cbn [hd_error id_or_null].
  destruct (Util.truthy (Session.id s)); [ | discriminate ].
  intros E. injection E as <-. left. reflexivity.
Qed.

Lemma selected_listed_reachable (stored : list Session.t) (t : N)
    (evs : list event) :
  selected_listed (run_events evs (init stored t)).
Proof.
  unfold run_events. rewrite <- fold_left_rev_right.
  induction (rev evs) as [| ev r IH]; simpl.
  - apply selected_listed_init.
  - eapply selected_listed_moves; [ apply moves_step | exact IH ].
Qed.

Lemma find_listed (c : ustring) (l : list Session.t) :
  In c (map Session.id l) ->
  exists s, find (fun s => UString.eqb (Session.id s) c) l = Some s
            /\ Session.id s = c /\ In s l.
Proof.
  induction l as [| x r IH]; simpl; [ tauto | ].
  destruct (UString.eqb (Session.id x) c) eqn:E.
  - intros _. exists x. apply UStringFacts.eqb_eq in E. auto.
  - intros [H | H]; [ apply UStringFacts.eqb_neq in E; congruence | ].
    destruct (IH H) as [s [H1 [H2 H3]]]. eauto.
Qed.

(** X6.  In every state the component reaches, the selection names a
    session that is in the list: the history column shows it, and [current]
    is a session with that identifier.  No event leaves the selection on a
    session that is gone. *)
Theorem selection_is_listed :
  forall (stored : list Session.t) (t0 : N) (evs : list event) (c : ustring),
    let st := run_events evs (init stored t0) in
    currentId (store st) = Some c ->
    listed c st = true
    /\ exists s, current st = Some s /\ Session.id s = c
                 /\ In s (sessions (store st)).
Proof.
  intros stored t0 evs c st Hc.
  pose proof (selected_listed_reachable stored t0 evs c Hc) as Hin.
  fold st in Hin. split; [ apply listed_In, Hin | ].
  unfold current. rewrite Hc. apply find_listed in Hin.
  destruct Hin as [s [H1 [H2 H3]]]. eauto.
Qed.

Lemma selection_is_listed_witness :
  let st := run_events [TextChange "q1"; Submit; Delete "m_5_0"; NewChat;
                        TextChange "q2"; Submit; Delete "m_1000_2"]
              (init [] 1000) in
  listed "m_1000_0" st = true
  /\ exists s, current st = Some s /\ Session.id s = "m_1000_0"
               /\ In s (sessions (store st)).
Proof.
  apply (selection_is_listed [] 1000
           [TextChange "q1"; Submit; Delete "m_5_0"; NewChat;
            TextChange "q2"; Submit; Delete "m_1000_2"] "m_1000_0").
  vm_compute. reflexivity.
Defined.

Lemma generated_mono (t0 c c' : N) (x : ustring) :
  (c <= c')%N -> generated t0 c x -> generated t0 c' x.
Proof.
  intros Hle [n [k [E H]]]. exists n, k. split; [ exact E | lia ].
Qed.

Lemma distinct_ids_filter (keep : Session.t -> bool) (ss : list Session.t) :
  NoDup (map Session.id ss) -> NoDup (map Session.id (filter keep ss)).
Proof.
  induction ss as [| x r IH]; simpl; intros H; [ constructor | ].
  inversion H as [| y l' Hnin Hnd]; subst.
  destruct (keep x); simpl; [ constructor | ]; auto.
  intros Hin. apply Hnin. apply in_map_iff in Hin.
  destruct Hin as [z [E Hz]]. apply filter_In in Hz.
  rewrite <- E. apply in_map, Hz.
Qed.

Lemma distinct_ids_eq (ss : list Session.t) (a b : Session.t) :
  NoDup (map Session.id ss) -> In a ss -> In b ss ->
  Session.id a = Session.id b -> a = b.
Proof.
  induction ss as [| x r IH]; simpl; intros H Ha Hb E; [ tauto | ].
  inversion H as [| y l' Hnin Hnd]; subst.
  destruct Ha as [-> | Ha], Hb as [-> | Hb]; auto.
  - exfalso. apply Hnin. rewrite E. apply in_map, Hb.
  - exfalso. apply Hnin. rewrite <- E. apply in_map, Ha.
Qed.

Lemma ids_inv_moves (t0 : N) (del : option ustring) (st st' : State) :
  moves del st st' -> ids_inv t0 st -> ids_inv t0 st'.
Proof.
  intros [Hm [Hn Hu]] [Ht [Hnd Hg]].
  split; [ lia | ].
  destruct Hm as [Hs _ | id _ Hs _ | s0 Hid _ Hs _ Hlt].
  - unfold ids. rewrite (Forall2_grows_ids _ _ Hs). split; [ exact Hnd | ].
    eapply Forall_impl; [ | exact Hg ]. intros x. apply generated_mono, Hu.
  - unfold ids. rewrite Hs. split; [ apply distinct_ids_filter, Hnd | ].
    apply Forall_forall. intros x Hx.
    apply (generated_mono t0 (uidCounter (env st))); [ exact Hu | ].
    rewrite Forall_forall in Hg. apply Hg.
    apply in_map_iff in Hx. destruct Hx as [s [<- Hin]].
    apply filter_In in Hin. apply in_map, Hin.
  - unfold ids. rewrite (Forall2_grows_ids _ _ Hs). cbn [map].
    split; constructor.
    + intros Hin. rewrite Forall_forall in Hg.
      destruct (Hg _ Hin) as [n [c [E H]]]. rewrite Hid in E.
      apply uid_inj in E. lia.
    + exact Hnd.
    + exists (now (env st)), (uidCounter (env st)). split; [ exact Hid | lia ].
    + eapply Forall_impl; [ | exact Hg ]. intros x. apply generated_mono, Hu.
Qed.

Lemma ids_inv_reachable (stored : list Session.t) (t0 : N) (evs : list event) :
  NoDup (map Session.id stored) -> Forall (made_before t0) stored ->
  ids_inv t0 (run_events evs (init stored t0)).
Proof.
  intros Hnd Hold. unfold run_events. rewrite <- fold_left_rev_right.
  induction (rev evs) as [| ev r IH]; simpl.
  - split; [ apply N.le_refl | split; [ exact Hnd | ] ].
    unfold ids, init. cbn [store sessions].
    apply Forall_forall. intros x Hx. apply in_map_iff in Hx.
    destruct Hx as [s [<- Hin]]. rewrite Forall_forall in Hold.
    destruct (Hold s Hin) as [n [c [E H]]]. exists n, c. auto.
  - eapply ids_inv_moves; [ apply moves_step | exact IH ].
Qed.

(** X7.  When the stored sessions have identifiers of their own, made by
    [uid] before the page was loaded, then in every state the component
    reaches no two sessions of the list have the same identifier: an update
    addressed to an identifier (rename, delete, a trace entry, an answer)
    meets one session at most. *)
Theorem session_ids_distinct :
  forall (stored : list Session.t) (t0 : N) (evs : list event),
    NoDup (map Session.id stored) ->
    Forall (made_before t0) stored ->
    let st := run_events evs (init stored t0) in
    NoDup (ids st)
    /\ (forall s s', In s (sessions (store st)) -> In s' (sessions (store st)) ->
                     Session.id s = Session.id s' -> s = s')
    /\ Forall (fun x => x <> "") (ids st).
Proof.
  intros stored t0 evs Hnd Hold st.
  destruct (ids_inv_reachable stored t0 evs Hnd Hold) as [_ [H1 H2]].
  fold st in H1, H2. split; [ exact H1 | split ].
  - intros s s' Hs Hs' E. apply (distinct_ids_eq _ s s' H1 Hs Hs' E).
  - eapply Forall_impl; [ | exact H2 ].
    intros x [n [c [-> _]]]. discriminate.
Qed.

Lemma session_ids_distinct_witness :
  let old := Session.mk "m_900_0" "old" fast [] [] 900 in
  let st := run_events [NewChat; TextChange "q1"; Submit; NewChat;
                        TextChange "q2"; Submit]
              (init [old] 1000) in
  NoDup (ids st)
  /\ (forall s s', In s (sessions (store st)) -> In s' (sessions (store st)) ->
                   Session.id s = Session.id s' -> s = s')
  /\ Forall (fun x => x <> "") (ids st).
Proof.
  apply (session_ids_distinct [Session.mk "m_900_0" "old" fast [] [] 900] 1000
           [NewChat; TextChange "q1"; Submit; NewChat; TextChange "q2"; Submit]).
  - repeat constructor. simpl. tauto.
  - repeat constructor. exists 900%N, 0%N. split; [ reflexivity | reflexivity ].
Defined.

Lemma Forall2_grows_In (l l' : list Session.t) (s : Session.t) :
  Forall2 grows l l' -> In s l -> exists s', In s' l' /\ grows s s'.
Proof.
  induction 1 as [| x x' l l' Hx _ IH]; simpl; [ tauto | ].
  intros [<- | Hin].
  - exists x'. auto.
  - destruct (IH Hin) as [s' [H1 H2]]. exists s'. auto.
Qed.

Lemma deleted_by_Some (ev : event) (id : ustring) :
  deleted_by ev = Some id -> ev = Delete id.
Proof. destruct ev; simpl; intros E; try discriminate. congruence. Qed.

Lemma kept_by_step (ev : event) (st : State) (s : Session.t) :
  In s (sessions (store st)) ->
  (exists s', In s' (sessions (store (step ev st))) /\ grows s s')
  \/ ev = Delete (Session.id s).
Proof.
  intros Hin. destruct (moves_step ev st) as [Hm _].
  destruct Hm as [Hs _ | id Hd Hs _ | s0 _ _ Hs _ _].
  - left. eapply Forall2_grows_In; eassumption.
  - destruct (UString.eqb (Session.id s) id) eqn:E.
    + right. apply UStringFacts.eqb_eq in E. subst id. apply deleted_by_Some, Hd.
    + left. exists s. split; [ | apply grows_refl ].
      rewrite Hs. apply filter_In. split; [ exact Hin | ].
      unfold other_than. rewrite E. reflexivity.
  - left. inversion Hs as [| x x' l l' _ Hr]; subst.
    destruct (Forall2_grows_In _ _ s Hr Hin) as [s' [G1 G2]].
    exists s'. split; [ right; exact G1 | exact G2 ].
Qed.

(** X8.  No event other than the deletion of a session takes a session out
    of the list, and none rewrites or drops a message: after any events, a
    session is still in the list, with its identifier, its time of creation
    and its messages in order, possibly followed by later messages, unless
    one of the events asked to delete it. *)
Theorem messages_are_kept :
  forall (evs : list event) (st : State) (s : Session.t),
    In s (sessions (store st)) ->
    (exists s', In s' (sessions (store (run_events evs st)))
                /\ Session.id s' = Session.id s
                /\ Session.createdAt s' = Session.createdAt s
                /\ exists more,
                     Session.messages s' = (Session.messages s ++ more)%list)
    \/ In (Delete (Session.id s)) evs.
Proof.
  induction evs as [| ev r IH]; intros st s Hin.
  - left. exists s. split; [ exact Hin | apply grows_refl ].
  - change (run_events (ev :: r) st) with (run_events r (step ev st)).
    destruct (kept_by_step ev st s Hin) as [[s1 [H1 G1]] | ->];
      [ | right; left; reflexivity ].
    destruct (IH (step ev st) s1 H1) as [[s2 [H2 G2]] | Hd].
    + left. exists s2. split; [ exact H2 | ].
      apply (grows_trans s s1 s2 G1 G2).
    + right. right. destruct G1 as [E _]. rewrite <- E. exact Hd.
Qed.

Lemma messages_are_kept_witness :
  let m := Message.mk "m_900_1" user "hello" None in
  let old := Session.mk "m_900_0" "old" fast [m] [] 900 in
  let evs := [Rename "m_900_0" "renamed"; TextChange "again"; Submit;
              StreamEvent 0 (ev_final "answer" None); NewChat] in
  (exists s', In s' (sessions (store (run_events evs (init [old] 1000))))
              /\ Session.id s' = "m_900_0"
              /\ Session.createdAt s' = 900%N
              /\ exists more, Session.messages s' = ([m] ++ more)%list)
  \/ In (Delete "m_900_0") evs.
Proof.
  apply (messages_are_kept
           [Rename "m_900_0" "renamed"; TextChange "again"; Submit;
            StreamEvent 0 (ev_final "answer" None); NewChat]
           (init [Session.mk "m_900_0" "old" fast
                    [Message.mk "m_900_1" user "hello" None] [] 900] 1000)
           (Session.mk "m_900_0" "old" fast
              [Message.mk "m_900_1" user "hello" None] [] 900)).
  left. reflexivity.
Defined.

(** ** Deleting and renaming *)

Lemma filter_idem {A} (p : A -> bool) (l : list A) :
  filter p (filter p l) = filter p l.
Proof.
  induction l as [| x r IH]; simpl; [ reflexivity | ].
  destruct (p x) eqn:E; simpl; rewrite ?E, IH; reflexivity.
Qed.

Lemma currentId_deleteSession (id : ustring) (st : State) :
  currentId (store (deleteSession id st))
  = match currentId (store st) with
    | Some c =>
        if UString.eqb c id
        then id_or_null (find (other_than id) (sessions (store st)))
        else Some c
    | None => None
    end.
Proof.
  destruct_state st. unfold deleteSession. app_red.
  destruct cid as [c |]; [ destruct (UString.eqb c id) | ]; reflexivity.
Qed.

Lemma rest_deleteSession (id : ustring) (st : State) :
  run (deleteSession id st) = run st
  /\ composer (deleteSession id st) = composer st
  /\ refs (deleteSession id st) = refs st
  /\ env (deleteSession id st) = env st
  /\ mode (store (deleteSession id st)) = mode (store st).
Proof.
  destruct_state st. unfold deleteSession. app_red.
  destruct cid as [c |]; [ destruct (UString.eqb c id) | ]; repeat split.
Qed.

Lemma deleteSession_unselected (id : ustring) (st : State) :
  currentId (store st) <> Some id ->
  deleteSession id st = setSessions (filter (other_than id)) st.
Proof.
  destruct_state st. unfold deleteSession. app_red.
  destruct cid as [c |]; [ | reflexivity ].
  destruct (UString.eqb c id) eqn:E; [ | reflexivity ].
  apply UStringFacts.eqb_eq in E. subst c. intros H. congruence.
Qed.

Lemma currentId_deleteSession_other (id : ustring) (st : State) :
  currentId (store (deleteSession id st)) <> Some id.
Proof.
  rewrite currentId_deleteSession.
  destruct (currentId (store st)) as [c |]; [ | discriminate ].
  destruct (UString.eqb c id) eqn:E.
  - intros H. apply find_other_listed in H. tauto.
  - apply UStringFacts.eqb_neq in E. congruence.
Qed.

(** X9.  [deleteSession] takes the sessions of the given identifier out of
    the list, in any state and whichever session is selected: afterwards the
    identifier is not in the list and is not the selection, a selection of
    another session stays, the other sessions are all kept, and deleting
    again changes nothing.  The run, the composer, the refs and the browser's
    objects are as they were: deleting the session of a run in progress does
    not stop the run. *)
Theorem delete_session_effect :
  forall (st : State) (id : ustring),
    let st' := deleteSession id st in
    listed id st' = false
    /\ currentId (store st') <> Some id
    /\ (currentId (store st) <> Some id ->
        currentId (store st') = currentId (store st))
    /\ (forall s, Session.id s <> id ->
          (In s (sessions (store st')) <-> In s (sessions (store st))))
    /\ deleteSession id st' = st'
    /\ run st' = run st /\ composer st' = composer st
    /\ refs st' = refs st /\ env st' = env st.
Proof.
  intros st id st'. subst st'.
  destruct (rest_deleteSession id st) as [Hr [Hc [Hf [He _]]]].
  pose proof (currentId_deleteSession_other id st) as Hsel.
  split; [ | split; [ exact Hsel | split; [ | split; [ | split ] ] ] ]; auto.
  - destruct (listed id (deleteSession id st)) eqn:El; [ | reflexivity ].
    apply listed_In in El. unfold ids in El.
    rewrite sessions_deleteSession in El. apply in_map_iff in El.
    destruct El as [s [E Hin]]. apply filter_In in Hin.
    destruct Hin as [_ Ho]. apply other_than_true in Ho. contradiction.
  - intros Hne. rewrite currentId_deleteSession.
    destruct (currentId (store st)) as [c |]; [ | reflexivity ].
    destruct (UString.eqb c id) eqn:E; [ | reflexivity ].
    apply UStringFacts.eqb_eq in E. congruence.
  - intros s Hs. rewrite sessions_deleteSession, filter_In.
    apply other_than_true in Hs. tauto.
  - rewrite (deleteSession_unselected id (deleteSession id st) Hsel).
    pose proof (sessions_deleteSession id st) as Hss.
    destruct (deleteSession id st) as [[ss cid md] r c f e].
    simpl in Hss. subst ss. app_red. rewrite filter_idem. reflexivity.
Qed.

Lemma map_session_twice (id : ustring) (f g : Session.t -> Session.t)
    (l : list Session.t) :
  (forall s, Session.id (g s) = Session.id s) ->
  map_session id f (map_session id g l)
  = map_session id (fun s => f (g s)) l.
Proof.
  intros Hg. unfold map_session. rewrite map_map. apply map_ext. intros s.
  destruct (UString.eqb (Session.id s) id) eqn:E; [ | rewrite E; reflexivity ].
  rewrite Hg, E. reflexivity.
Qed.

Lemma map_session_swap (id id' : ustring) (f g : Session.t -> Session.t)
    (l : list Session.t) :
  id <> id' ->
  (forall s, Session.id (f s) = Session.id s) ->
  (forall s, Session.id (g s) = Session.id s) ->
  map_session id f (map_session id' g l)
  = map_session id' g (map_session id f l).
Proof.
  intros Hne Hf Hg. unfold map_session. rewrite !map_map. apply map_ext.
  intros s.
  destruct (UString.eqb (Session.id s) id) eqn:E,
           (UString.eqb (Session.id s) id') eqn:E';
    rewrite ?Hf, ?Hg, ?E, ?E'; try reflexivity.
  apply UStringFacts.eqb_eq in E, E'. congruence.
Qed.

Lemma sessions_renameSession (id name : ustring) (st : State) :
  renameSession id name st
  = setSessions (map_session id (fun s =>
      Session.mk (Session.id s) (Util.titleOf name) (Session.mode s)
        (Session.messages s) (Session.trace s) (Session.createdAt s))) st.
Proof. reflexivity. Qed.

Lemma setSessions_twice (f g : list Session.t -> list Session.t) (st : State) :
  setSessions f (setSessions g st) = setSessions (fun l => f (g l)) st.
Proof. destruct_state st. reflexivity. Qed.

Lemma setSessions_ext (f g : list Session.t -> list Session.t) (st : State) :
  f (sessions (store st)) = g (sessions (store st)) ->
  setSessions f st = setSessions g st.
Proof. destruct_state st. app_red. intros ->. reflexivity. Qed.

(** X10.  [renameSession] gives the sessions of the given identifier the
    title made of the given name, which is never empty, and changes nothing
    else: the identifiers, their order, the messages and the traces are as
    they were, a session of another identifier is left as it is, and so is
    everything outside the list.  The last of two renames of a session
    decides, and renames of different sessions can be made in either
    order. *)
Theorem rename_session_effect :
  forall (st : State) (id a b : ustring),
    let st' := renameSession id a st in
    ids st' = ids st
    /\ map Session.messages (sessions (store st'))
       = map Session.messages (sessions (store st))
    /\ map Session.trace (sessions (store st'))
       = map Session.trace (sessions (store st))
    /\ (forall s', In s' (sessions (store st')) ->
          (Session.id s' = id ->
             Session.title s' = Util.titleOf a /\ Session.title s' <> "")
          /\ (Session.id s' <> id -> In s' (sessions (store st))))
    /\ renameSession id b st' = renameSession id b st
    /\ (forall id', id' <> id ->
          renameSession id' b st' = renameSession id a (renameSession id' b st))
    /\ currentId (store st') = currentId (store st)
    /\ run st' = run st /\ composer st' = composer st
    /\ refs st' = refs st /\ env st' = env st.
Proof.
  intros st id a b st'. subst st'.
  assert (Hss : sessions (store (renameSession id a st))
                = map_session id (fun s =>
                    Session.mk (Session.id s) (Util.titleOf a) (Session.mode s)
                      (Session.messages s) (Session.trace s) (Session.createdAt s))
                    (sessions (store st)))
    by (destruct_state st; reflexivity).
  split; [ | split; [ | split; [ | split; [ | split; [ | split ] ] ] ] ].
  - unfold ids. rewrite Hss. unfold map_session. rewrite map_map.
    apply map_ext. intros s. destruct (UString.eqb _ _); reflexivity.
  - rewrite Hss. unfold map_session. rewrite map_map.
    apply map_ext. intros s. destruct (UString.eqb _ _); reflexivity.
  - rewrite Hss. unfold map_session. rewrite map_map.
    apply map_ext. intros s. destruct (UString.eqb _ _); reflexivity.
  - intros s'. rewrite Hss. unfold map_session. rewrite in_map_iff.
    intros [s [E Hin]].
    destruct (UString.eqb (Session.id s) id) eqn:Eid; subst s'; cbn [Session.id Session.title].
    + apply UStringFacts.eqb_eq in Eid. split; [ | congruence ].
      intros _. split; [ reflexivity | ].
      destruct (titleOf_length a) as [H _]. intros E0. rewrite E0 in H.
      simpl in H. lia.
    + apply UStringFacts.eqb_neq in Eid. split; [ congruence | auto ].
  - rewrite !sessions_renameSession, setSessions_twice.
    apply setSessions_ext. apply map_session_twice. reflexivity.
  - intros id' Hne. rewrite !sessions_renameSession, !setSessions_twice.
    apply setSessions_ext. apply map_session_swap; auto.
  - destruct_state st. repeat split.
Qed.

(** ** The trace of a run *)

Lemma with_trace_nil (s : Session.t) : with_trace [] s = s.
Proof. destruct s. unfold with_trace. simpl. rewrite app_nil_r. reflexivity. Qed.

Lemma with_trace_app (a b : list TraceEvent) (s : Session.t) :
  with_trace b (with_trace a s) = with_trace (a ++ b) s.
Proof. unfold with_trace. simpl. rewrite app_assoc. reflexivity. Qed.

Lemma map_session_id (id : ustring) (f : Session.t -> Session.t)
    (l : list Session.t) :
  (forall s, f s = s) -> map_session id f l = l.
Proof.
  intros Hf. unfold map_session. rewrite <- (map_id l) at 2.
  apply map_ext. intros s. destruct (UString.eqb _ _); [ apply Hf | reflexivity ].
Qed.

Lemma map_session_ext (id : ustring) (f g : Session.t -> Session.t)
    (l : list Session.t) :
  (forall s, f s = g s) -> map_session id f l = map_session id g l.
Proof.
  intros Hf. unfold map_session. apply map_ext. intros s.
  destruct (UString.eqb _ _); [ apply Hf | reflexivity ].
Qed.

(** The listener of an event that does not end the run appends the entry of
    the event to the trace of the run's session and leaves the selection,
    the status, the composer, the refs and the browser's objects. *)
Lemma listener_records (id : ustring) (h : nat) (e : stream_event) (st : State) :
  ends_run e = false ->
  sessions (store (listener id h e st))
  = map_session id (with_trace (trace_of e)) (sessions (store st))
  /\ currentId (store (listener id h e st)) = currentId (store st)
  /\ mode (store (listener id h e st)) = mode (store st)
  /\ status (run (listener id h e st)) = status (run st)
  /\ elapsed (run (listener id h e st)) = elapsed (run st)
  /\ composer (listener id h e st) = composer st
  /\ refs (listener id h e st) = refs st
  /\ env (listener id h e st) = env st.
Proof.
  destruct_state st.
  destruct e as [i sp | p | x | d | d | d | d | d | answer cits | | ];
    try discriminate; intros _; try (app_red; repeat split; fail).
  - destruct p; app_red; repeat split;
      symmetry; apply map_session_id, with_trace_nil.
  - app_red; repeat split. symmetry; apply map_session_id, with_trace_nil.
Qed.

(** X11.  While a stream is open, the events it delivers that do not end the
    run are recorded in arrival order: after any number of them the trace of
    the run's session is the trace it had, followed by the entries of the
    events, one for each event other than progress events and events with
    unreadable data.  The other sessions, the selection, the status, the
    composer, the refs and the browser's objects are as they were. *)
Theorem stream_events_recorded :
  forall (st : State) (h : nat) (id q : ustring) (m : Mode)
         (es : list stream_event),
    nth_error (streams (env st)) h = Some (mkStream id q m true) ->
    Forall (fun e => ends_run e = false) es ->
    let st' := run_events (map (StreamEvent h) es) st in
    sessions (store st')
    = map_session id (with_trace (flat_map trace_of es)) (sessions (store st))
    /\ currentId (store st') = currentId (store st)
    /\ status (run st') = status (run st)
    /\ composer st' = composer st
    /\ refs st' = refs st
    /\ env st' = env st.
Proof.
  intros st h id q m es. revert st.
  induction es as [| e r IH]; intros st Hh Hes; cbn zeta.
  - cbn [map flat_map run_events fold_left]. repeat split.
    symmetry. apply map_session_id, with_trace_nil.
  - inversion Hes as [| x l He Hr]; subst.
    change (run_events (map (StreamEvent h) (e :: r)) st)
      with (run_events (map (StreamEvent h) r) (deliver h e st)).
    assert (Ed : deliver h e st = listener id h e st).
    { unfold deliver. rewrite Hh. reflexivity. }
    rewrite Ed.
    destruct (listener_records id h e st He)
      as [Hs [Hc [_ [Hst [_ [Hco [Hre Hen]]]]]]].
    assert (Hh' : nth_error (streams (env (listener id h e st))) h
                  = Some (mkStream id q m true)) by (rewrite Hen; exact Hh).
    destruct (IH (listener id h e st) Hh' Hr) as [Is [Ic [Ist [Ico [Ire Ien]]]]].
    rewrite Is, Ic, Ist, Ico, Ire, Ien, Hs, Hc, Hst, Hco, Hre, Hen.
    repeat split.
    rewrite map_session_twice by reflexivity.
    apply map_session_ext. intros s. cbn [flat_map]. apply with_trace_app.
Qed.

Lemma stream_events_recorded_witness :
  let st := run_events [TextChange "q1"; Submit] (init [] 1000) in
  let es := [ev_plan None (Some ["a"; "b"]); ev_progress (Some 50%Q);
             ev_status (Some "reading"); malformed; ev_read "{}"] in
  let st' := run_events (map (StreamEvent 0) es) st in
  sessions (store st')
  = map_session "m_1000_0" (with_trace (flat_map trace_of es)) (sessions (store st))
  /\ currentId (store st') = currentId (store st)
  /\ status (run st') = status (run st)
  /\ composer st' = composer st
  /\ refs st' = refs st
  /\ env st' = env st.
Proof.
  apply (stream_events_recorded
           (run_events [TextChange "q1"; Submit] (init [] 1000))
           0 "m_1000_0" "q1" thorough
           [ev_plan None (Some ["a"; "b"]); ev_progress (Some 50%Q);
            ev_status (Some "reading"); malformed; ev_read "{}"]).
  - vm_compute. reflexivity.
  - repeat constructor.
Defined.

(** ** The stream and the ticker of a run *)

(** The kinds of steps, as far as the run is concerned. *)
Lemma step_cases (ev : event) (st : State) :
  same_run st (step ev st)
  \/ (exists v, step ev st = onChange v st)
  \/ step ev st = send st
  \/ (is_thinking st = true /\ step ev st = stopRun st)
  \/ (exists h s e,
        ev = StreamEvent h e
        /\ nth_error (streams (env st)) h = Some s /\ open s = true
        /\ step ev st = listener (owner s) h e st).
Proof.
  destruct ev; simpl.
  - right. left. eauto.
  - right. right. left. reflexivity.
  - destruct (is_thinking st) eqn:E; [ | left; apply same_run_refl ].
    right. right. right. left. auto.
  - unfold onEscape.
    destruct (is_thinking st) eqn:E; [ | left; apply same_run_refl ].
    right. right. right. left. auto.
  - left. destruct_state st. same_fields.
  - left. destruct (listed _ _); [ | apply same_run_refl ].
    destruct_state st. same_fields.
  - left. destruct (listed _ _); [ | apply same_run_refl ].
    destruct_state st.
    destruct cid as [c |]; app_red; [ destruct (UString.eqb c id) | ];
      same_fields.
  - left. destruct (listed _ _); [ | apply same_run_refl ].
    destruct_state st. same_fields.
  - left. destruct_state st.
    destruct md, m; app_red; try apply same_run_refl;
      (destruct cid as [c |]; app_red; [ destruct (Util.truthy c) | ];
       same_fields).
  - left. destruct_state st. same_fields.
  - left. destruct (_ && _); [ | apply same_run_refl ].
    destruct_state st. same_fields.
  - left. destruct (_ && _); [ | apply same_run_refl ].
    destruct_state st. same_fields.
  - left. destruct (ac (composer st)); [ | apply same_run_refl ].
    destruct_state st. same_fields.
  - left. destruct_state st. same_fields.
  - left. apply same_run_advance.
  - left. unfold onTick. destruct (interval_live h st); [ | apply same_run_refl ].
    destruct_state st. same_fields.
  - left. apply same_run_onResponse.
  - unfold deliver.
    destruct (nth_error (streams (env st)) h) as [s |] eqn:Es;
      [ | left; apply same_run_refl ].
    destruct (open s) eqn:Eo; [ | left; apply same_run_refl ].
    right. right. right. right. exists h, s, e. auto.
Qed.

Lemma onChange_run (v : ustring) (st : State) :
  esRef (refs (onChange v st)) = esRef (refs st)
  /\ timerRef (refs (onChange v st)) = timerRef (refs st)
  /\ runIdRef (refs (onChange v st)) = runIdRef (refs st)
  /\ streams (env (onChange v st)) = streams (env st)
  /\ intervals (env (onChange v st)) = intervals (env st)
  /\ run (onChange v st) = run st.
Proof.
  destruct_state st. unfold onChange.
  destruct (3 <=? UString.length (Util.trim v)); [ destruct on | ]; app_red;
    try (repeat split; fail).
  destruct str as [h |]; app_red; repeat split.
Qed.

Lemma stopRun_tables (st : State) :
  streams (env (stopRun st))
  = match esRef (refs st) with
    | Some h => update h (fun s => mkStream (owner s) (sq s) (smode s) false)
                  (streams (env st))
    | None => streams (env st)
    end
  /\ intervals (env (stopRun st))
     = match timerRef (refs st) with
       | Some t => update t (fun _ => false) (intervals (env st))
       | None => intervals (env st)
       end
  /\ esRef (refs (stopRun st)) = None
  /\ timerRef (refs (stopRun st)) = timerRef (refs st)
  /\ is_thinking (stopRun st) = false.
Proof.
  destruct_state st. unfold is_thinking.
  destruct esr as [h |], tr as [t |], rid as [id |]; app_red;
    try (destruct (Util.truthy id)); repeat split.
Qed.

Lemma listener_ends (id : ustring) (h : nat) (e : stream_event) (st : State) :
  ends_run e = true ->
  streams (env (listener id h e st))
  = update h (fun s => mkStream (owner s) (sq s) (smode s) false)
      (streams (env st))
  /\ intervals (env (listener id h e st))
     = match timerRef (refs st) with
       | Some t => update t (fun _ => false) (intervals (env st))
       | None => intervals (env st)
       end
  /\ refs (listener id h e st) = refs st
  /\ is_thinking (listener id h e st) = false.
Proof.
  destruct_state st. unfold is_thinking.
  destruct e as [i sp | p | x | d | d | d | d | d | answer cits | | ];
    try discriminate; intros _.
  - app_red. destruct (map_fresh _ _ _ _ _) as [l' c'].
    destruct tr as [t |]; app_red; repeat split.
  - destruct tr as [t |]; app_red; repeat split.
Qed.

(** After a stream and a ticker of a state whose refs are in order were
    closed and cleared through the refs, nothing is open and nothing is
    live. *)
Lemma all_released (st st' : State) :
  wf st ->
  streams (env st')
  = match esRef (refs st) with
    | Some h => update h (fun s => mkStream (owner s) (sq s) (smode s) false)
                  (streams (env st))
    | None => streams (env st)
    end ->
  intervals (env st')
  = match timerRef (refs st) with
    | Some t => update t (fun _ => false) (intervals (env st))
    | None => intervals (env st)
    end ->
  (forall h, stream_open h st' = false)
  /\ (forall t, interval_live t st' = false).
Proof.
  intros [_ [_ [_ [_ [W5 W6]]]]] Hs Hi. split.
  - intros h. destruct (stream_open h st') eqn:E; [ exfalso | reflexivity ].
    unfold stream_open in E. rewrite Hs in E.
    destruct (esRef (refs st)) as [h0 |] eqn:Ees.
    + apply open_after_close in E. destruct E as [Hne E].
      apply W5 in E. congruence.
    + apply W5 in E. congruence.
  - intros t. destruct (interval_live t st') eqn:E; [ exfalso | reflexivity ].
    unfold interval_live in E. rewrite Hi in E.
    destruct (timerRef (refs st)) as [t0 |] eqn:Etr.
    + apply live_after_clear in E. destruct E as [Hne E].
      apply W6 in E. congruence.
    + apply W6 in E. congruence.
Qed.

Lemma run_inv_init (stored : list Session.t) (t : N) : run_inv (init stored t).
Proof.
  split; [ apply wf_init | split ].
  - discriminate.
  - intros h s. destruct h; discriminate.
Qed.

Lemma run_inv_step (ev : event) (st : State) : run_inv st -> run_inv (step ev st).
Proof.
  intros [W [Ha Hb]]. split; [ apply wf_step, W | ].
  destruct (step_cases ev st)
    as [Hsame | [[v E] | [E | [[Hth E] | [h [s [e [_ [Hs [Ho E]]]]]]]]]].
  - destruct Hsame as [Hr [Ht [Hsm [Hiv _]]]].
    unfold stream_open, interval_live in *. rewrite Hr, Hsm, Hiv.
    split; [ intros H; apply Ha, Ht, H | exact Hb ].
  - rewrite E. destruct (onChange_run v st) as [H1 [H2 [H3 [H4 [H5 H6]]]]].
    unfold stream_open, interval_live, is_thinking in *.
    rewrite H1, H2, H3, H4, H5, H6. split; assumption.
  - rewrite E.
    destruct (Util.truthy (Util.trim (question (composer st)))) eqn:Ht;
      [ | unfold send; rewrite Ht; split; assumption ].
    pose proof (proj1 (proj2 (proj2 (proj2 (proj2 (wf_send st W)))))) as W5s.
    destruct (send_shape st Ht) as [id [ss0 [ctr0 [cid' [Esh _]]]]].
    rewrite Esh in *. clear Esh.
    unfold stream_open, interval_live, is_thinking in *.
    cbn [refs env run status esRef timerRef runIdRef streams intervals] in *.
    split.
    + intros _. do 2 eexists.
      split; [ reflexivity | split; [ | split; [ reflexivity | ] ] ].
      * rewrite nth_error_app2; [ | destruct (esRef (refs st));
                                      rewrite ?length_update; lia ].
        replace (List.length (streams (env st)) - _) with 0;
          [ reflexivity
          | destruct (esRef (refs st)); rewrite ?length_update; lia ].
      * rewrite app_nth2; [ | destruct (timerRef (refs st));
                                rewrite ?length_update; lia ].
        replace (List.length (intervals (env st)) - _) with 0;
          [ reflexivity
          | destruct (timerRef (refs st)); rewrite ?length_update; lia ].
    + intros h s Hs Ho.
      specialize (W5s h). rewrite Hs in W5s. specialize (W5s Ho).
      injection W5s as <-.
      rewrite nth_error_app2 in Hs; [ | destruct (esRef (refs st));
                                         rewrite ?length_update; lia ].
      replace (List.length (streams (env st)) - _) with 0 in Hs;
        [ | destruct (esRef (refs st)); rewrite ?length_update; lia ].
      injection Hs as <-. reflexivity.
  - rewrite E. destruct (stopRun_tables st) as [Hs [Hi [He [_ Hn]]]].
    destruct (all_released st (stopRun st) W Hs Hi) as [Hno _].
    split; [ rewrite Hn; discriminate | ].
    intros h s Hh Hop. specialize (Hno h). unfold stream_open in Hno.
    rewrite Hh in Hno. congruence.
  - rewrite E. destruct (ends_run e) eqn:Ee.
    + destruct (listener_ends (owner s) h e st Ee) as [Hsm [Hi [Hr Hn]]].
      assert (Hes : esRef (refs st) = Some h).
      { apply W. unfold stream_open. rewrite Hs. exact Ho. }
      assert (Hsm' : streams (env (listener (owner s) h e st))
                     = match esRef (refs st) with
                       | Some h0 => update h0 (fun s => mkStream (owner s) (sq s)
                                      (smode s) false) (streams (env st))
                       | None => streams (env st)
                       end) by (rewrite Hes; exact Hsm).
      destruct (all_released st _ W Hsm' Hi) as [Hno _].
      split; [ rewrite Hn; discriminate | ].
      intros h' s' Hh Hop. specialize (Hno h'). unfold stream_open in Hno.
      rewrite Hh in Hno. congruence.
    + destruct (listener_records (owner s) h e st Ee)
        as [_ [_ [_ [Hst [_ [_ [Hre Hen]]]]]]].
      unfold stream_open, interval_live, is_thinking in *.
      rewrite Hst, Hre, Hen. split; assumption.
Qed.

Lemma run_inv_reachable (stored : list Session.t) (t : N) (evs : list event) :
  run_inv (run_events evs (init stored t)).
Proof.
  unfold run_events. rewrite <- fold_left_rev_right.
  induction (rev evs) as [| ev r IH]; simpl.
  - apply run_inv_init.
  - apply run_inv_step, IH.
Qed.

Lemma listener_end_status (id : ustring) (h : nat) (e : stream_event)
    (st : State) :
  ends_run e = true ->
  status (run (listener id h e st)) = end_status (StreamEvent h e).
Proof.
  destruct_state st.
  destruct e as [i sp | p | x | d | d | d | d | d | answer cits | | ];
    try discriminate; intros _.
  - app_red. destruct (map_fresh _ _ _ _ _) as [l' c'].
    destruct tr as [t |]; reflexivity.
  - destruct tr as [t |]; reflexivity.
Qed.

Lemma released_quiet (st : State) :
  (forall h, stream_open h st = false) ->
  (forall t, interval_live t st = false) ->
  (forall h e, step (StreamEvent h e) st = st)
  /\ (forall t, step (Tick t) st = st).
Proof.
  intros Hs Hi. split.
  - intros h e. apply deliver_closed, Hs.
  - intros t. apply onTick_cleared, Hi.
Qed.

(** X12.  In every state the component reaches, each way in which a run
    ends (Stop or Escape while it is thinking, the final event or the error
    event of its open stream) leaves the status stopped, done or error, no
    event source open and no interval live: from then on no stream event and
    no tick of the elapsed-time display changes anything. *)
Theorem run_end_releases :
  forall (stored : list Session.t) (t0 : N) (evs : list event) (ev : event),
    let st := run_events evs (init stored t0) in
    run_ends ev st = true ->
    let st' := step ev st in
    status (run st') = end_status ev
    /\ (forall h, stream_open h st' = false)
    /\ (forall t, interval_live t st' = false)
    /\ (forall h e, step (StreamEvent h e) st' = st')
    /\ (forall t, step (Tick t) st' = st').
Proof.
  intros stored t0 evs ev st Hend st'.
  pose proof (wf_reachable stored t0 evs) as W. fold st in W.
  assert (H : status (run st') = end_status ev
              /\ (forall h, stream_open h st' = false)
              /\ (forall t, interval_live t st' = false)).
  { subst st'. destruct ev; try discriminate; cbn [run_ends] in Hend; cbn [step].
    - rewrite Hend. destruct (stopRun_tables st) as [Hs [Hi _]].
      split; [ apply status_stopRun | apply (all_released st _ W Hs Hi) ].
    - unfold onEscape. rewrite Hend. destruct (stopRun_tables st) as [Hs [Hi _]].
      split; [ apply status_stopRun | apply (all_released st _ W Hs Hi) ].
    - apply andb_prop in Hend. destruct Hend as [Hop He].
      assert (Hes : esRef (refs st) = Some h) by (apply W; exact Hop).
      unfold deliver. unfold stream_open in Hop.
      destruct (nth_error (streams (env st)) h) as [s |]; [ | discriminate ].
      rewrite Hop.
      destruct (listener_ends (owner s) h e st He) as [Hsm [Hi _]].
      split; [ apply listener_end_status, He | ].
      apply (all_released st _ W); [ rewrite Hes; exact Hsm | exact Hi ]. }
  destruct H as [H1 [H2 H3]].
  split; [ exact H1 | split; [ exact H2 | split; [ exact H3 | ] ] ].
  apply released_quiet; assumption.
Qed.

Lemma run_end_releases_witness :
  let st := run_events [TextChange "q1"; Submit;
                        StreamEvent 0 (ev_status (Some "reading"))]
              (init [] 1000) in
  let st' := step (StreamEvent 0 (ev_final "answer" None)) st in
  status (run st') = done
  /\ (forall h, stream_open h st' = false)
  /\ (forall t, interval_live t st' = false)
  /\ (forall h e, step (StreamEvent h e) st' = st')
  /\ (forall t, step (Tick t) st' = st').
Proof.
  apply (run_end_releases [] 1000
           [TextChange "q1"; Submit; StreamEvent 0 (ev_status (Some "reading"))]
           (StreamEvent 0 (ev_final "answer" None))).
  vm_compute. reflexivity.
Defined.

(** X13.  In every state the component reaches at most one event source is
    open and at most one interval is live.  An open event source is the one
    [esRef] names, and its listeners write to the session [runIdRef] names;
    a live interval is the one [timerRef] names.  While the status is
    thinking there is exactly one of each. *)
Theorem run_holds_one_stream :
  forall (stored : list Session.t) (t0 : N) (evs : list event),
    let st := run_events evs (init stored t0) in
    (forall h h', stream_open h st = true -> stream_open h' st = true -> h = h')
    /\ (forall t t', interval_live t st = true -> interval_live t' st = true ->
                     t = t')
    /\ (forall h s, nth_error (streams (env st)) h = Some s -> open s = true ->
                    esRef (refs st) = Some h
                    /\ runIdRef (refs st) = Some (owner s))
    /\ (forall t, interval_live t st = true -> timerRef (refs st) = Some t)
    /\ (status (run st) = thinking ->
        exists h t, esRef (refs st) = Some h /\ stream_open h st = true
                    /\ timerRef (refs st) = Some t /\ interval_live t st = true).
Proof.
  intros stored t0 evs st.
  destruct (run_inv_reachable stored t0 evs) as [W [Ha Hb]]. fold st in W, Ha, Hb.
  destruct W as [_ [_ [_ [_ [W5 W6]]]]].
  split; [ | split; [ | split; [ | split ] ] ].
  - intros h h' H H'. apply W5 in H, H'. congruence.
  - intros t t' H H'. apply W6 in H, H'. congruence.
  - intros h s Hs Ho. split; [ | eapply Hb; eassumption ].
    apply W5. unfold stream_open. rewrite Hs. exact Ho.
  - exact W6.
  - intros Hth. apply Ha. unfold is_thinking. rewrite Hth. reflexivity.
Qed.

(** ** Submitting *)

Lemma send_blank (st : State) :
  blank (question (composer st)) = true -> send st = st.
Proof.
  intros Hb. unfold send. rewrite truthy_trim, Hb. reflexivity.
Qed.

(** X14.  Submitting a text of white space only (the empty text included;
    white space is the class [\s] of the language, so a text of U+00A0 is
    one) changes nothing at all.  Submitting any other text starts a run: the
    status is thinking, the composer is emptied, the plan, the progress, the
    status line and the elapsed time are reset, the run's start time is the
    current time, the mode and the pending debounce timer are as they were,
    and the clock has not moved. *)
Theorem submit_blank_or_start :
  forall st : State,
    (if blank (question (composer st))
     then step Submit st = st
     else
       let st' := step Submit st in
       run st' = mkRun thinking 0 (mkPlan None []) 0 ""
       /\ question (composer st') = ""
       /\ autoCorrectOn (composer st') = autoCorrectOn (composer st)
       /\ suggestLoading (composer st') = suggestLoading (composer st)
       /\ t0Ref (refs st') = now (env st)
       /\ suggestTimerRef (refs st') = suggestTimerRef (refs st)
       /\ mode (store st') = mode (store st)
       /\ now (env st') = now (env st)
       /\ timeouts (env st') = timeouts (env st)
       /\ fetches (env st') = fetches (env st))
    /\ (question (composer st) = UString 160 (UString 32 (UString 12288 "")) ->
        step Submit st = st).
Proof.
  intros st. split; [ | intros E; apply send_blank; rewrite E; reflexivity ].
  destruct (blank (question (composer st))) eqn:Eb.
  - apply send_blank, Eb.
  - cbn [step].
    assert (Ht : Util.truthy (Util.trim (question (composer st))) = true)
      by (rewrite truthy_trim, Eb; reflexivity).
    destruct (send_shape st Ht) as [id [ss0 [ctr0 [cid' [E _]]]]].
    rewrite E. repeat split.
Qed.

(** ** The autocorrect cells of the composer *)

Lemma trimmed_str_trim (s : ustring) : trimmed (Util.str_trim s) = true.
Proof.
  unfold trimmed. destruct (str_trim_tidy s) as [-> ->]. reflexivity.
Qed.

Lemma trimmed_suggestion_of (text : ustring) (res : option (option ustring)) :
  trimmed (suggestion_of text res) = true.
Proof.
  unfold suggestion_of. destruct res as [j |]; [ | reflexivity ].
  destruct (_ && _); [ apply trimmed_str_trim | reflexivity ].
Qed.

Lemma resolve_shown (on : bool) (sugg raw : ustring) (a : Correction) :
  snd (resolve on sugg raw) = Some a ->
  original a = raw /\ corrected a = sugg
  /\ AutoCorrectPill.shown (original a) (corrected a) = true.
Proof.
  unfold resolve, AutoCorrectPill.shown.
  destruct (on && Util.truthy sugg && negb (UString.eqb sugg raw)) eqn:E;
    [ | discriminate ].
  cbn [snd]. intros H. injection H as <-. cbn [original corrected].
  apply andb_prop in E. destruct E as [E E2].
  apply andb_prop in E. destruct E as [_ E1].
  rewrite E1. cbn [negb orb]. rewrite E2. auto.
Qed.

Lemma fetch_inflight_somewhere (st : State) :
  (exists h, fetch_inflight h st = true) <-> inflight_somewhere (fetches (env st)).
Proof.
  unfold fetch_inflight, inflight_somewhere. split.
  - intros [h H]. exists h.
    destruct (nth_error (fetches (env st)) h) as [f |]; [ | discriminate ].
    exists f. auto.
  - intros [h [f [H1 H2]]]. exists h. rewrite H1. exact H2.
Qed.

Lemma inflight_app (fs : list Fetch) (more : list Fetch) :
  inflight_somewhere fs -> inflight_somewhere (fs ++ more).
Proof.
  intros [h [f [H1 H2]]]. exists h, f. split; [ | exact H2 ].
  rewrite nth_error_app1; [ exact H1 | ].
  apply nth_error_Some. congruence.
Qed.

Lemma composer_inv_cells (st : State) :
  composer_inv st <-> cells_ok (composer st) (fetches (env st)).
Proof.
  unfold composer_inv, cells_ok. rewrite fetch_inflight_somewhere. tauto.
Qed.

Lemma cells_same (st st' : State) :
  ac (composer st') = ac (composer st) ->
  suggestion (composer st') = suggestion (composer st)
  \/ suggestion (composer st') = "" ->
  suggestLoading (composer st') = suggestLoading (composer st) ->
  fetches (env st') = fetches (env st) ->
  composer_inv st -> composer_inv st'.
Proof.
  intros Ha Hs Hl Hf. rewrite !composer_inv_cells. unfold cells_ok.
  rewrite Ha, Hl, Hf. intros [H1 [H2 H3]].
  split; [ exact H1 | split; [ | exact H3 ] ].
  destruct Hs as [-> | ->]; [ exact H2 | reflexivity ].
Qed.

Ltac cells_fields :=
  apply cells_same; app_red;
  first [ reflexivity | left; reflexivity | right; reflexivity ].

Lemma composer_inv_callback (h : nat) (c : callback) (st : State) :
  composer_inv st -> composer_inv (run_callback c (clearTimeout h st)).
Proof.
  rewrite !composer_inv_cells. destruct_state st. destruct c; app_red.
  - intros [H1 [H2 _]]. split; [ exact H1 | split; [ exact H2 | ] ].
    intros _. exists (List.length fs), (mkFetch text true).
    rewrite nth_error_app2, Nat.sub_diag by lia. auto.
  - exact (fun H => H).
Qed.

Lemma composer_inv_fire_due (fuel : nat) :
  forall st, composer_inv st -> composer_inv (fire_due fuel st).
Proof.
  induction fuel as [| k IH]; intros st H; simpl; [ exact H | ].
  destruct (next_due _ _ _) as [[h d] |]; [ | exact H ].
  destruct (nth_error _ h) as [t |]; [ | exact H ].
  apply IH, composer_inv_callback, H.
Qed.

Lemma composer_inv_onResponse (h : nat) (res : option (option ustring))
    (st : State) :
  composer_inv st -> composer_inv (onResponse h res st).
Proof.
  unfold onResponse.
  destruct (nth_error (fetches (env st)) h) as [f |]; [ | exact (fun H => H) ].
  destruct (inflight f); [ | exact (fun H => H) ].
  rewrite !composer_inv_cells.
  pose proof (trimmed_suggestion_of (ftext f) res) as Ht.
  revert Ht. generalize (suggestion_of (ftext f) res) as sugg. intros sugg Ht.
  destruct_state st. app_red.
  intros [H1 _]. split; [ exact H1 | split; [ exact Ht | discriminate ] ].
Qed.

Lemma composer_inv_send (st : State) : composer_inv st -> composer_inv (send st).
Proof.
  destruct (Util.truthy (Util.trim (question (composer st)))) eqn:Ht;
    [ | unfold send; rewrite Ht; exact (fun H => H) ].
  destruct (send_shape st Ht) as [id [ss0 [ctr0 [cid' [E _]]]]].
  rewrite !composer_inv_cells. rewrite E. unfold cells_ok.
  cbn [composer env ac suggestion suggestLoading fetches].
  intros [_ [_ H3]]. split; [ | split; [ reflexivity | exact H3 ] ].
  intros a Ha. destruct (resolve_shown _ _ _ _ Ha) as [Ho [_ Hs]].
  split; [ exact Hs | ]. rewrite Ho. split; [ apply trim_idem | ].
  intros E0. rewrite E0 in Ht. discriminate.
Qed.

Lemma composer_inv_stopRun (st : State) :
  composer_inv st -> composer_inv (stopRun st).
Proof.
  destruct_state st.
  destruct esr as [h |], tr as [t |], rid as [id |]; app_red;
    try (destruct (Util.truthy id)); cells_fields.
Qed.

Lemma composer_inv_listener (id : ustring) (h : nat) (e : stream_event)
    (st : State) :
  composer_inv st -> composer_inv (listener id h e st).
Proof.
  destruct_state st.
  destruct e as [i sp | p | x | d | d | d | d | d | answer cits | | ];
    try solve [ cells_fields ].
  - destruct p; cells_fields.
  - app_red. destruct (map_fresh _ _ _ _ _) as [l' c'].
    destruct tr as [t |]; cells_fields.
  - destruct tr as [t |]; cells_fields.
Qed.

Lemma composer_inv_onChange (v : ustring) (st : State) :
  composer_inv st -> composer_inv (onChange v st).
Proof.
  destruct_state st. unfold onChange.
  destruct (3 <=? UString.length (Util.trim v)); [ | cells_fields ].
  destruct on; [ | cells_fields ].
  destruct str as [h |]; cells_fields.
Qed.

Lemma composer_inv_step (ev : event) (st : State) :
  composer_inv st -> composer_inv (step ev st).
Proof.
  destruct ev; cbn [step].
  - apply composer_inv_onChange.
  - apply composer_inv_send.
  - destruct (is_thinking st); [ apply composer_inv_stopRun | exact (fun H => H) ].
  - unfold onEscape.
    destruct (is_thinking st); [ apply composer_inv_stopRun | exact (fun H => H) ].
  - destruct_state st. cells_fields.
  - destruct (listed _ _); [ | exact (fun H => H) ]. destruct_state st. cells_fields.
  - destruct (listed _ _); [ | exact (fun H => H) ].
    destruct_state st.
    destruct cid as [c |]; app_red; [ destruct (UString.eqb c id) | ];
      cells_fields.
  - destruct (listed _ _); [ | exact (fun H => H) ]. destruct_state st. cells_fields.
  - destruct_state st.
    destruct md, m; app_red; try exact (fun H => H);
      (destruct cid as [c |]; app_red; [ destruct (Util.truthy c) | ];
       cells_fields).
  - destruct_state st. cells_fields.
  - destruct (_ && _); [ | exact (fun H => H) ]. destruct_state st. cells_fields.
  - destruct (_ && _); [ | exact (fun H => H) ]. destruct_state st. cells_fields.
  - destruct (ac (composer st)) as [a |] eqn:Ea; [ | exact (fun H => H) ].
    rewrite !composer_inv_cells. destruct_state st. app_red.
    intros [_ [H2 H3]]. split; [ discriminate | split; assumption ].
  - rewrite !composer_inv_cells. destruct_state st. app_red.
    intros [_ [H2 H3]]. split; [ discriminate | split; assumption ].
  - intros H. unfold advance. apply composer_inv_fire_due.
    revert H. destruct_state st. cells_fields.
  - unfold onTick. destruct (interval_live h st); [ | exact (fun H => H) ].
    destruct_state st. cells_fields.
  - apply composer_inv_onResponse.
  - unfold deliver. destruct (nth_error _ h) as [s |]; [ | exact (fun H => H) ].
    destruct (open s); [ apply composer_inv_listener | exact (fun H => H) ].
Qed.

Lemma composer_inv_reachable (stored : list Session.t) (t : N)
    (evs : list event) :
  composer_inv (run_events evs (init stored t)).
Proof.
  unfold run_events. rewrite <- fold_left_rev_right.
  induction (rev evs) as [| ev r IH]; simpl.
  - split; [ discriminate | split; [ reflexivity | discriminate ] ].
  - apply composer_inv_step, IH.
Qed.

(** X15.  In every state the component reaches, a correction record on
    display is one that [AutoCorrectPill] renders: its corrected text is not
    empty and differs from the original, and the original is the tidied text
    that was submitted, which is not empty.  "Use original" puts the
    original text back into the composer and takes the pill away; "Keep"
    takes the pill away and leaves the composer. *)
Theorem correction_pill_shown :
  forall (stored : list Session.t) (t0 : N) (evs : list event) (a : Correction),
    let st := run_events evs (init stored t0) in
    ac (composer st) = Some a ->
    pill_shown st = true
    /\ corrected a <> "" /\ corrected a <> original a
    /\ original a <> "" /\ Util.trim (original a) = original a
    /\ question (composer (step UseOriginal st)) = original a
    /\ pill_shown (step UseOriginal st) = false
    /\ question (composer (step KeepCorrection st)) = question (composer st)
    /\ pill_shown (step KeepCorrection st) = false.
Proof.
  intros stored t0 evs a st Ha.
  destruct (composer_inv_reachable stored t0 evs) as [H1 _]. fold st in H1.
  destruct (H1 a Ha) as [Hs [Ht Hne]].
  unfold pill_shown. cbn [step]. rewrite Ha.
  split; [ exact Hs | ].
  unfold AutoCorrectPill.shown in Hs.
  apply negb_true_iff, orb_false_elim in Hs. destruct Hs as [Hc Hd].
  split; [ intros E; rewrite E in Hc; discriminate | ].
  split; [ apply UStringFacts.eqb_neq, Hd | ].
  split; [ exact Hne | split; [ exact Ht | ] ].
  clear. destruct (run_events evs (init stored t0)) as [s r [qu on sg ld acv] f e].
  repeat split.
Qed.

Lemma correction_pill_shown_witness :
  let st := run_events
              [TextChange "waht is ai"; Advance 300;
               Response 0 (Some (Some " what is ai ")); Submit]
              (init [] 1000) in
  let a := mkAc "waht is ai" "what is ai" in
  pill_shown st = true
  /\ corrected a <> "" /\ corrected a <> original a
  /\ original a <> "" /\ Util.trim (original a) = original a
  /\ question (composer (step UseOriginal st)) = original a
  /\ pill_shown (step UseOriginal st) = false
  /\ question (composer (step KeepCorrection st)) = question (composer st)
  /\ pill_shown (step KeepCorrection st) = false.
Proof.
  apply (correction_pill_shown [] 1000
           [TextChange "waht is ai"; Advance 300;
            Response 0 (Some (Some " what is ai ")); Submit]
           (mkAc "waht is ai" "what is ai")).
  vm_compute. reflexivity.
Defined.

Lemma suggestion_of_differs (text : ustring) (res : option (option ustring)) :
  suggestion_of text res <> "" ->
  suggestion_of text res <> Util.str_trim text.
Proof.
  unfold suggestion_of. destruct res as [j |]; [ | congruence ].
  destruct (Util.truthy _ && negb (UString.eqb _ _)) eqn:E; [ | congruence ].
  intros _. apply andb_prop in E. destruct E as [_ E].
  apply negb_true_iff, UStringFacts.eqb_neq in E. exact E.
Qed.

(** X16.  In every state the component reaches, the suggestion on display
    has no white space at either end, and the loading flag is up only while
    some request is awaited.  When the response of a request arrives, the
    suggestion becomes empty or a text that differs from the trimmed text of
    the request: a suggestion that repeats what was asked is never shown. *)
Theorem suggestion_on_display :
  forall (stored : list Session.t) (t0 : N) (evs : list event),
    let st := run_events evs (init stored t0) in
    trimmed (suggestion (composer st)) = true
    /\ (suggestLoading (composer st) = true ->
        exists h, fetch_inflight h st = true)
    /\ (forall r f res,
          nth_error (fetches (env st)) r = Some f -> inflight f = true ->
          let s := suggestion (composer (step (Response r res) st)) in
          s = "" \/ (s <> Util.str_trim (ftext f) /\ trimmed s = true)).
Proof.
  intros stored t0 evs st.
  destruct (composer_inv_reachable stored t0 evs) as [_ [H2 H3]].
  fold st in H2, H3. split; [ exact H2 | split; [ exact H3 | ] ].
  intros r f res Hf Hi s. subst s. cbn [step].
  destruct (response_applied st r f res Hf Hi) as [-> _].
  destruct (UStringFacts.eq_dec (suggestion_of (ftext f) res) "") as [E | E];
    [ left; exact E | right ].
  split; [ apply suggestion_of_differs, E | apply trimmed_suggestion_of ].
Qed.

Lemma holds_same (raw : ustring) (st st' : State) :
  question (composer st') = question (composer st) ->
  suggestion (composer st') = suggestion (composer st) ->
  ac (composer st') = ac (composer st) ->
  holds_text raw st -> holds_text raw st'.
Proof. unfold holds_text. intros -> -> ->. exact (fun H => H). Qed.

Ltac text_fields := apply holds_same; app_red; reflexivity.

Lemma holds_fire_due (raw : ustring) (fuel : nat) :
  forall st, holds_text raw st -> holds_text raw (fire_due fuel st).
Proof.
  induction fuel as [| k IH]; intros st H; simpl; [ exact H | ].
  destruct (next_due _ _ _) as [[h d] |]; [ | exact H ].
  destruct (nth_error _ h) as [t |]; [ | exact H ].
  apply IH. revert H. destruct_state st. destruct (cb t); text_fields.
Qed.

Lemma holds_stopRun (raw : ustring) (st : State) :
  holds_text raw st -> holds_text raw (stopRun st).
Proof.
  destruct_state st.
  destruct esr as [h |], tr as [t |], rid as [id |]; app_red;
    try (destruct (Util.truthy id)); text_fields.
Qed.

Lemma holds_listener (raw : ustring) (id : ustring) (h : nat)
    (e : stream_event) (st : State) :
  holds_text raw st -> holds_text raw (listener id h e st).
Proof.
  destruct_state st.
  destruct e as [i sp | p | x | d | d | d | d | d | answer cits | | ];
    try solve [ text_fields ].
  - destruct p; text_fields.
  - app_red. destruct (map_fresh _ _ _ _ _) as [l' c'].
    destruct tr as [t |]; text_fields.
  - destruct tr as [t |]; text_fields.
Qed.

(** A quiet event leaves the text of the composer, and leaves it without
    suggestion and without correction. *)
Lemma holds_step (raw : ustring) (ev : event) (st : State) :
  quiet ev = true -> holds_text raw st -> holds_text raw (step ev st).
Proof.
  destruct ev; cbn [quiet step]; try discriminate; intros _.
  - destruct (is_thinking st); [ apply holds_stopRun | exact (fun H => H) ].
  - unfold onEscape.
    destruct (is_thinking st); [ apply holds_stopRun | exact (fun H => H) ].
  - destruct (listed _ _); [ | exact (fun H => H) ]. destruct_state st. text_fields.
  - destruct (listed _ _); [ | exact (fun H => H) ].
    destruct_state st.
    destruct cid as [c |]; app_red; [ destruct (UString.eqb c id) | ];
      text_fields.
  - destruct (listed _ _); [ | exact (fun H => H) ]. destruct_state st. text_fields.
  - destruct_state st.
    destruct md, m; app_red; try exact (fun H => H);
      (destruct cid as [c |]; app_red; [ destruct (Util.truthy c) | ];
       text_fields).
  - destruct_state st. text_fields.
  - intros H. destruct H as [Hq [Hs Ha]]. rewrite Hs. cbn [Util.truthy andb].
    repeat split; assumption.
  - intros H. destruct H as [Hq [Hs Ha]]. rewrite Hs. cbn [Util.truthy andb].
    repeat split; assumption.
  - intros H. destruct H as [Hq [Hs Ha]]. rewrite Ha.
    repeat split; assumption.
  - unfold holds_text. destruct_state st. app_red.
    intros [Hq [Hs _]]. repeat split; assumption.
  - intros H. unfold advance. apply holds_fire_due.
    revert H. destruct_state st. text_fields.
  - unfold onTick. destruct (interval_live h st); [ | exact (fun H => H) ].
    destruct_state st. text_fields.
  - unfold deliver. destruct (nth_error _ h) as [s |]; [ | exact (fun H => H) ].
    destruct (open s); [ apply holds_listener | exact (fun H => H) ].
Qed.

Lemma holds_run_events (raw : ustring) (evs : list event) :
  forall st, forallb quiet evs = true -> holds_text raw st ->
             holds_text raw (run_events evs st).
Proof.
  induction evs as [| ev r IH]; intros st Hq H; [ exact H | ].
  cbn [forallb] in Hq. apply andb_prop in Hq. destruct Hq as [Hev Hr].
  apply (IH (step ev st) Hr). apply holds_step; assumption.
Qed.

(** X17.  After a submit that applied a correction, "Use original" puts the
    tidied original text back into the composer and takes the correction
    away.  The next submit sends what the user typed, with no correction
    applied, provided that up to that submit the user does not type and no
    response of an autocorrect request arrives; any other events may come
    between.  Without the proviso the property fails: [send] leaves the
    debounce timer armed, so the request that was waiting at the first submit
    is issued afterwards, its response sets the suggestion again, and the
    submit after "Use original" applies a correction again. *)
Theorem use_original_resubmits :
  (forall (st : State) (a : Correction) (between : list event),
      Util.truthy (Util.trim (question (composer st))) = true ->
      ac (composer (send st)) = Some a ->
      forallb quiet between = true ->
      let raw := Util.trim (question (composer st)) in
      let st1 := step UseOriginal (step Submit st) in
      let stm := run_events between st1 in
      let st2 := step Submit stm in
      question (composer st1) = raw
      /\ ac (composer st1) = None
      /\ question (composer stm) = raw
      /\ suggestion (composer stm) = ""
      /\ ac (composer st2) = None
      /\ exists id,
           runIdRef (refs st2) = Some id
           /\ (forall s, In s (sessions (store st2)) -> Session.id s = id ->
                 last_content s = Some raw)
           /\ nth_error (streams (env st2)) (List.length (streams (env stm)))
              = Some (mkStream id raw (mode (store stm)) true))
  /\ (ac (composer (step Submit typed_on))
      = Some (mkAc "waht is ai now" "what is ai")
      /\ ac (composer late_response)
         = Some (mkAc "waht is ai now" "what is ai now")
      /\ (forall s, In s (sessions (store late_response)) ->
            last_content s = Some "what is ai now")).
Proof.
  split.
  2:{ split; [ vm_compute; reflexivity | split; [ vm_compute; reflexivity | ] ].
      intros s Hs. vm_compute in Hs. destruct Hs as [<- | []].
      vm_compute. reflexivity. }
  intros st a between Ht Ha Hquiet raw st1 stm st2.
  destruct (send_turn st Ht) as [Hac [Hsg _]]. cbv zeta in Hac.
  rewrite Ha in Hac. symmetry in Hac.
  destruct (resolve_shown _ _ _ _ Hac) as [Ho _]. fold raw in Ho.
  assert (H1 : holds_text raw st1).
  { subst st1. cbn [step]. rewrite Ha. unfold holds_text.
    revert Hsg. destruct (send st) as [s r [qu on sg ld acv] f e]. app_red.
    intros ->. rewrite Ho. repeat split. }
  pose proof (holds_run_events raw between st1 Hquiet H1) as Hm. fold stm in Hm.
  destruct H1 as [Hq [_ Hn]]. destruct Hm as [Hqm [Hsm _]].
  split; [ exact Hq | split; [ exact Hn | ] ].
  split; [ exact Hqm | split; [ exact Hsm | ] ].
  assert (Ht1 : Util.truthy (Util.trim (question (composer stm))) = true).
  { rewrite Hqm. unfold raw. rewrite trim_idem. exact Ht. }
  destruct (send_turn stm Ht1) as [Hac2 [_ [id [Hid [_ [Hmsg Hst]]]]]].
  cbv zeta in Hac2, Hmsg, Hst.
  assert (Hr : resolve (autoCorrectOn (composer stm)) (suggestion (composer stm))
                 (Util.trim (question (composer stm))) = (raw, None)).
  { rewrite Hsm, Hqm. unfold raw. rewrite trim_idem. unfold resolve.
    rewrite andb_false_r. reflexivity. }
  rewrite Hr in Hac2, Hmsg, Hst. cbn [fst snd] in Hac2, Hmsg, Hst.
  subst st2. cbn [step].
  split; [ exact Hac2 | ].
  exists id. split; [ exact Hid | split; [ | exact Hst ] ].
  intros s Hin Hsid. destruct (Hmsg s Hin Hsid) as [old [u [Hmm _]]].
  apply (last_content_app s old _ Hmm).
Qed.

Lemma use_original_resubmits_witness :
  let between := [ToggleAutocorrect; Advance 500; UseSuggestion; PickMode fast;
                  StopClick; UseOriginal] in
  let st1 := step UseOriginal (step Submit suggested) in
  let stm := run_events between st1 in
  let st2 := step Submit stm in
  question (composer st1) = "waht is ai"
  /\ ac (composer st1) = None
  /\ question (composer stm) = "waht is ai"
  /\ suggestion (composer stm) = ""
  /\ ac (composer st2) = None
  /\ exists id,
       runIdRef (refs st2) = Some id
       /\ (forall s, In s (sessions (store st2)) -> Session.id s = id ->
             last_content s = Some "waht is ai")
       /\ nth_error (streams (env st2)) (List.length (streams (env stm)))
          = Some (mkStream id "waht is ai" (mode (store stm)) true).
Proof.
  apply (proj1 use_original_resubmits suggested (mkAc "waht is ai" "what is ai")
           [ToggleAutocorrect; Advance 500; UseSuggestion; PickMode fast;
            StopClick; UseOriginal]);
    vm_compute; reflexivity.
Defined.

Lemma set_now_frame (n : N) (st : State) :
  timeouts (env (set_now n st)) = timeouts (env st)
  /\ fetches (env (set_now n st)) = fetches (env st)
  /\ now (env (set_now n st)) = n.
Proof. destruct_state st. repeat split. Qed.

(** X19.  In every state the component reaches at most one autocorrect
    request waits in a timer, and it waits in the timer that
    [suggestTimerRef] names: however long the time that passes, at most one
    request is issued, and the requests issued before are left as they
    are. *)
Theorem one_request_per_pause :
  forall (stored : list Session.t) (t0 : N) (evs : list event) (d : N),
    let st := run_events evs (init stored t0) in
    (forall i j ti tj,
        nth_error (timeouts (env st)) i = Some ti ->
        pending ti = true -> is_ac (cb ti) = true ->
        nth_error (timeouts (env st)) j = Some tj ->
        pending tj = true -> is_ac (cb tj) = true ->
        i = j /\ suggestTimerRef (refs st) = Some i)
    /\ (fetches (env (step (Advance d) st)) = fetches (env st)
        \/ exists k t x,
             suggestTimerRef (refs st) = Some k
             /\ nth_error (timeouts (env st)) k = Some t
             /\ cb t = cb_autocorrect x
             /\ (due t <= now (env st) + d)%N
             /\ fetches (env (step (Advance d) st))
                = (fetches (env st) ++ [mkFetch x true])%list).
Proof.
  intros stored t0 evs d st.
  pose proof (one_debounce_reachable stored t0 evs) as Hone. fold st in Hone.
  split.
  - intros i j ti tj Hi Hpi Hai Hj Hpj Haj.
    pose proof (Hone i ti Hi Hpi Hai) as Ei.
    pose proof (Hone j tj Hj Hpj Haj) as Ej.
    split; [ congruence | exact Ei ].
  - cbn [step]. unfold advance.
    set (st1 := set_now (now (env st) + d)%N st).
    destruct (set_now_frame (now (env st) + d)%N st) as [Hts [Hfs Hnw]].
    fold st1 in Hts, Hfs, Hnw.
    destruct (suggestTimerRef (refs st)) as [k |] eqn:Ek.
    + destruct (nth_error (timeouts (env st)) k) as [t |] eqn:Et.
      * destruct (is_due (now (env st) + d) t && is_ac (cb t)) eqn:Ed.
        -- right. apply andb_prop in Ed. destruct Ed as [Hd Ha].
           destruct (cb t) as [x |] eqn:Ecb; [ | discriminate ].
           exists k, t, x.
           split; [ reflexivity | split; [ exact Et | split;
             [ first [ reflexivity | exact Ecb ] | split ] ] ].
           ++ unfold is_due in Hd. apply andb_prop in Hd.
              apply N.leb_le, Hd.
           ++ rewrite <- Hfs.
              apply (fire_due_fires _ st1 k t x).
              ** rewrite Hts. rewrite Hnw. apply count_due_le.
              ** rewrite Hts. exact Et.
              ** rewrite Hnw. exact Hd.
              ** exact Ecb.
              ** rewrite Hts. intros i ti Hi Hdi Hai.
                 unfold is_due in Hdi. apply andb_prop in Hdi.
                 destruct Hdi as [Hp _].
                 pose proof (Hone i ti Hi Hp Hai). congruence.
        -- left. rewrite <- Hfs. apply fire_due_quiet.
           rewrite Hts, Hnw. intros i ti Hi Hdi.
           destruct (is_ac (cb ti)) eqn:Hai; [ | reflexivity ].
           assert (Hp : pending ti = true)
             by (unfold is_due in Hdi; apply andb_prop in Hdi; tauto).
           pose proof (Hone i ti Hi Hp Hai) as E.
           assert (i = k) by congruence. subst i.
           rewrite Et in Hi. injection Hi as <-.
           rewrite Hdi, Hai in Ed. discriminate.
      * left. rewrite <- Hfs. apply fire_due_quiet.
        rewrite Hts. intros i ti Hi Hdi.
        destruct (is_ac (cb ti)) eqn:Hai; [ | reflexivity ].
        assert (Hp : pending ti = true)
          by (unfold is_due in Hdi; apply andb_prop in Hdi; tauto).
        pose proof (Hone i ti Hi Hp Hai) as E.
        assert (i = k) by congruence. subst i. congruence.
    + left. rewrite <- Hfs. apply fire_due_quiet.
      rewrite Hts. intros i ti Hi Hdi.
      destruct (is_ac (cb ti)) eqn:Hai; [ | reflexivity ].
      assert (Hp : pending ti = true)
        by (unfold is_due in Hdi; apply andb_prop in Hdi; tauto).
      pose proof (Hone i ti Hi Hp Hai) as E. congruence.
Qed.

(** ** The summary line of an answer *)

Section QuickTake.
Import ClaudeAnswer.

Lemma first_end_some (s : ustring) :
  forall n lo k,
    first_end n lo s = Some k -> lo <= k < lo + n /\ ends_at k s = true.
Proof.
  induction n as [| n IH]; intros lo k; simpl; [ discriminate | ].
  destruct (ends_at lo s) eqn:E.
  - intros H. injection H as <-. split; [ lia | exact E ].
  - intros H. apply IH in H. destruct H as [H1 H2]. split; [ lia | exact H2 ].
Qed.

Lemma first_end_least (s : ustring) :
  forall n lo k,
    first_end n lo s = Some k ->
    forall j, lo <= j < k -> ends_at j s = false.
Proof.
  induction n as [| n IH]; intros lo k; simpl; [ discriminate | ].
  destruct (ends_at lo s) eqn:E.
  - intros H. injection H as <-. intros j Hj. lia.
  - intros H j Hj. destruct (Nat.eq_dec j lo) as [-> | Hne]; [ exact E | ].
    apply (IH (S lo) k H). lia.
Qed.

Lemma first_end_none (s : ustring) :
  forall n lo,
    first_end n lo s = None ->
    forall j, lo <= j < lo + n -> ends_at j s = false.
Proof.
  induction n as [| n IH]; intros lo; simpl; [ intros _ j Hj; lia | ].
  destruct (ends_at lo s) eqn:E; [ discriminate | ].
  intros H j Hj. destruct (Nat.eq_dec j lo) as [-> | Hne]; [ exact E | ].
  apply (IH (S lo) H). lia.
Qed.

Lemma get_some_lt (s : ustring) :
  forall k c, UString.get k s = Some c -> k < UString.length s.
Proof.
  induction s as [| a r IH]; intros k c; simpl; [ discriminate | ].
  destruct k; [ lia | ]. intros H. apply IH in H. lia.
Qed.

Lemma is_stop_not_space (c : codeunit) :
  is_stop c = true -> Util.is_space c = false.
Proof.
  unfold is_stop. intros H.
  apply orb_prop in H. destruct H as [H | H];
    [ apply orb_prop in H; destruct H as [H | H] | ];
    apply N.eqb_eq in H; subst c; reflexivity.
Qed.

Lemma substring_stop (s : ustring) :
  forall k c,
    UString.get k s = Some c -> Util.is_space c = false ->
    last_ok (UString.substring 0 (S k) s) = true
    /\ UString.length (UString.substring 0 (S k) s) = S k
    /\ last_char (UString.substring 0 (S k) s) = Some c.
Proof.
  unfold last_char.
  induction s as [| a r IH]; intros k c; [ discriminate | ].
  destruct k as [| k].
  - simpl. intros H Hc. injection H as ->.
    destruct r; simpl; rewrite Hc; auto.
  - cbn [UString.get]. intros H Hc.
    destruct (IH k c H Hc) as [H1 [H2 H3]].
    change (UString.substring 0 (S (S k)) (UString a r))
      with (UString a (UString.substring 0 (S k) r)).
    rewrite H2 in H3. replace (S k - 1) with k in H3 by lia.
    cbn [UString.length]. rewrite H2.
    replace (S (S k) - 1) with (S k) by lia. cbn [UString.get].
    split; [ | split; [ reflexivity | exact H3 ] ].
    destruct (UString.substring 0 (S k) r) as [| b t]; [ discriminate | exact H1 ].
Qed.

Lemma prefix_refl (s : ustring) : UString.prefix s s = true.
Proof.
  induction s as [| c r IH]; simpl; [ reflexivity | ].
  rewrite N.eqb_refl. exact IH.
Qed.

Lemma prefix_trans (a : ustring) :
  forall b c, UString.prefix a b = true -> UString.prefix b c = true ->
              UString.prefix a c = true.
Proof.
  induction a as [| x r IH]; intros b c H1 H2; [ destruct c; reflexivity | ].
  destruct b as [| y b]; [ discriminate | ].
  destruct c as [| z c]; [ discriminate | ].
  simpl in *.
  apply andb_prop in H1, H2. destruct H1 as [Hxy H1], H2 as [Hyz H2].
  apply N.eqb_eq in Hxy, Hyz. subst y z. rewrite N.eqb_refl.
  eapply IH; eassumption.
Qed.

Lemma prefix_trimEnd (s : ustring) : UString.prefix (Util.trimEnd s) s = true.
Proof.
  induction s as [| c r IH]; simpl; [ reflexivity | ].
  destruct (Util.trimEnd r) as [| d t].
  - destruct (Util.is_space c); simpl; [ reflexivity | ].
    rewrite N.eqb_refl. destruct r; reflexivity.
  - simpl. rewrite N.eqb_refl. exact IH.
Qed.

Lemma prefix_str_trim (s : ustring) :
  head_ok s = true -> UString.prefix (Util.str_trim s) s = true.
Proof.
  intros H. unfold Util.str_trim. rewrite (trimStart_head_ok s H).
  apply prefix_trimEnd.
Qed.

Lemma length_str_trim (s : ustring) :
  UString.length (Util.str_trim s) <= UString.length s.
Proof.
  unfold Util.str_trim.
  pose proof (length_trimEnd (Util.trimStart s)).
  pose proof (length_trimStart s). lia.
Qed.

Lemma str_trim_empty (s : ustring) :
  head_ok s = true -> Util.str_trim s = "" -> s = "".
Proof.
  intros Hh H. unfold Util.str_trim in H. rewrite (trimStart_head_ok s Hh) in H.
  apply trimEnd_nil_blank in H.
  destruct s as [| c r]; [ reflexivity | ].
  simpl in Hh, H. destruct (Util.is_space c); discriminate.
Qed.

(** The match of the sentence pattern, when there is one. *)
Lemma sentence_some (plain m1 : ustring) :
  head_ok plain = true ->
  sentence plain = Some m1 ->
  exists k c,
    40 <= k <= 220
    /\ m1 = UString.substring 0 (S k) plain
    /\ UString.length m1 = S k
    /\ last_char m1 = Some c /\ is_stop c = true
    /\ S k < UString.length plain
    /\ head_ok m1 = true /\ last_ok m1 = true
    /\ (forall j, 40 <= j < k -> ends_at j plain = false).
Proof.
  intros Hh. unfold sentence.
  destruct (first_end 181 40 plain) as [k |] eqn:Ef; [ | discriminate ].
  cbn [option_map]. intros E. injection E as <-.
  pose proof (first_end_least _ _ _ _ Ef) as Hleast.
  apply first_end_some in Ef. destruct Ef as [Hk He].
  unfold ends_at in He. apply andb_prop in He. destruct He as [_ He].
  destruct (UString.get k plain) as [c |] eqn:Ec; [ | discriminate ].
  destruct (UString.get (S k) plain) as [d |] eqn:Ed; [ | discriminate ].
  apply andb_prop in He. destruct He as [Hs _].
  destruct (substring_stop plain k c Ec (is_stop_not_space c Hs))
    as [H1 [H2 H3]].
  exists k, c. repeat split; try lia; auto.
  - apply get_some_lt in Ed. exact Ed.
  - apply head_ok_substring0, Hh.
Qed.

Lemma quickTake_eq (md : ustring) :
  md <> "" ->
  quickTake md
  = Util.str_trim (match sentence (Util.trim md) with
                   | Some m1 => m1
                   | None => UString.substring 0 220 (Util.trim md)
                   end).
Proof. destruct md; [ congruence | reflexivity ]. Qed.

Lemma first_end_short (s : ustring) :
  UString.length s <= 41 -> first_end 181 40 s = None.
Proof.
  intros Hl. destruct (first_end 181 40 s) as [k |] eqn:E; [ | reflexivity ].
  apply first_end_some in E. destruct E as [Hk He].
  unfold ends_at in He. apply andb_prop in He. destruct He as [_ He].
  destruct (UString.get k s); [ | discriminate ].
  destruct (UString.get (S k) s) eqn:Ed; [ | discriminate ].
  apply get_some_lt in Ed. lia.
Qed.

Lemma first_end_found (s : ustring) :
  forall n lo k,
    lo <= k < lo + n -> ends_at k s = true ->
    (forall j, lo <= j < k -> ends_at j s = false) ->
    first_end n lo s = Some k.
Proof.
  induction n as [| n IH]; intros lo k Hk He Hl; [ lia | ].
  cbn [first_end]. destruct (Nat.eq_dec k lo) as [-> | Hne].
  - rewrite He. reflexivity.
  - rewrite (Hl lo) by lia. apply IH; [ lia | exact He | ].
    intros j Hj. apply Hl. lia.
Qed.

Lemma first_end_absent (s : ustring) :
  forall n lo,
    (forall j, lo <= j < lo + n -> ends_at j s = false) ->
    first_end n lo s = None.
Proof.
  induction n as [| n IH]; intros lo Hl; [ reflexivity | ].
  cbn [first_end]. rewrite (Hl lo) by lia. apply IH.
  intros j Hj. apply Hl. lia.
Qed.

(** A tidied text has no line terminator: the pattern [.] matches each of
    its characters. *)
Lemma spaced_is_dot (c : codeunit) :
  (Util.is_space c = true -> c = 32%N) -> is_dot c = true.
Proof.
  intros H. unfold is_dot.
  destruct (N.eqb c 10) eqn:E1;
    [ apply N.eqb_eq in E1; subst c; specialize (H eq_refl); discriminate | ].
  destruct (N.eqb c 13) eqn:E2;
    [ apply N.eqb_eq in E2; subst c; specialize (H eq_refl); discriminate | ].
  destruct (N.eqb c 8232) eqn:E3;
    [ apply N.eqb_eq in E3; subst c; specialize (H eq_refl); discriminate | ].
  destruct (N.eqb c 8233) eqn:E4;
    [ apply N.eqb_eq in E4; subst c; specialize (H eq_refl); discriminate | ].
  reflexivity.
Qed.

Lemma dots_spaced (s : ustring) :
  forall b k, spaced b s = true -> k <= UString.length s -> dots k s = true.
Proof.
  induction s as [| c r IH]; intros b k Hs Hk.
  - destruct k; [ reflexivity | simpl in Hk; lia ].
  - destruct k as [| k]; [ reflexivity | ].
    cbn [dots]. cbn [spaced] in Hs. cbn [UString.length] in Hk.
    destruct (Util.is_space c) eqn:Ec.
    + apply andb_prop in Hs. destruct Hs as [Hs Hr].
      apply andb_prop in Hs. destruct Hs as [Hc _]. apply N.eqb_eq in Hc.
      rewrite (spaced_is_dot c (fun _ => Hc)). apply (IH true); [ exact Hr | lia ].
    + rewrite (spaced_is_dot c); [ | congruence ].
      apply (IH false); [ exact Hs | lia ].
Qed.

Lemma is_stop_iff (c : codeunit) :
  is_stop c = true <-> (c = 46 \/ c = 33 \/ c = 63)%N.
Proof.
  unfold is_stop. rewrite !orb_true_iff, !N.eqb_eq. tauto.
Qed.

(** In a tidied text the pattern matches with [k] characters before the stop
    exactly when the text has a sentence end at position [k]. *)
Lemma ends_at_sentence_end (k : nat) (s : ustring) :
  spaced false s = true ->
  (ends_at k s = true <-> sentence_end k s).
Proof.
  intros Hs. unfold ends_at, sentence_end. split.
  - intros H. apply andb_prop in H. destruct H as [_ H].
    destruct (UString.get k s) as [c |]; [ | discriminate ].
    destruct (UString.get (S k) s) as [d |]; [ | discriminate ].
    apply andb_prop in H. destruct H as [Hc Hd].
    exists c, d. apply is_stop_iff in Hc. auto.
  - intros [c [d [Ec [Ed [Hc Hd]]]]].
    rewrite (dots_spaced s false k Hs).
    + rewrite Ec, Ed. apply is_stop_iff in Hc. rewrite Hc, Hd. reflexivity.
    + apply get_some_lt in Ec. lia.
Qed.

Lemma ends_at_false (k : nat) (s : ustring) :
  spaced false s = true -> ~ sentence_end k s -> ends_at k s = false.
Proof.
  intros Hs Hn. destruct (ends_at k s) eqn:E; [ | reflexivity ].
  exfalso. apply Hn. apply (ends_at_sentence_end k s Hs), E.
Qed.

(** The first sentence end from position 40 to 220 is where the match
    ends. *)
Lemma sentence_first (plain : ustring) (k : nat) :
  spaced false plain = true ->
  40 <= k <= 220 -> sentence_end k plain ->
  (forall j, 40 <= j < k -> ~ sentence_end j plain) ->
  sentence plain = Some (UString.substring 0 (S k) plain).
Proof.
  intros Hs Hk He Hl. unfold sentence.
  rewrite (first_end_found plain 181 40 k); [ reflexivity | lia | | ].
  - apply (ends_at_sentence_end k plain Hs), He.
  - intros j Hj. apply (ends_at_false j plain Hs), Hl, Hj.
Qed.

Lemma sentence_none (plain : ustring) :
  spaced false plain = true ->
  (forall j, 40 <= j <= 220 -> ~ sentence_end j plain) ->
  sentence plain = None.
Proof.
  intros Hs Hl. unfold sentence.
  rewrite (first_end_absent plain 181 40); [ reflexivity | ].
  intros j Hj. apply (ends_at_false j plain Hs), Hl. lia.
Qed.

End QuickTake.

(** X20.  The summary line of an answer is a prefix of the tidied answer
    (white space collapsed and trimmed), at most 221 UTF-16 code units long
    and without white space at either end; it is empty exactly for an answer
    of white space only.  When the tidied answer has a sentence end (one of
    [.!?] followed by white space) at a position from 40 to 220, the summary
    is the answer up to and including the first such stop; when it has none
    there, the summary is the first 220 code units of the tidied answer,
    trimmed at the end; an answer of at most 41 code units is its own
    summary. *)
Theorem quickTake_summary :
  forall md : ustring,
    let plain := Util.trim md in
    let take := ClaudeAnswer.quickTake md in
    UString.prefix take plain = true
    /\ UString.length take <= 221
    /\ trimmed take = true
    /\ (take = "" <-> blank md = true)
    /\ (forall m1, ClaudeAnswer.sentence plain = Some m1 ->
          take = m1
          /\ 41 <= UString.length m1
          /\ exists c, last_char m1 = Some c /\ ClaudeAnswer.is_stop c = true)
    /\ (UString.length plain <= 41 -> take = plain)
    /\ (forall k, 40 <= k <= 220 -> sentence_end k plain ->
          (forall j, 40 <= j < k -> ~ sentence_end j plain) ->
          take = UString.substring 0 (S k) plain
          /\ UString.length take = S k)
    /\ ((forall k, 40 <= k <= 220 -> ~ sentence_end k plain) ->
          take = Util.str_trim (UString.substring 0 220 plain)).
Proof.
  intros md plain take. subst plain take.
  destruct (trim_tidy md) as [Hsp [Hh Hl]].
  destruct md as [| c0 r0] eqn:Emd.
  { split; [ reflexivity | split; [ simpl; lia | split; [ reflexivity | ] ] ].
    split; [ split; reflexivity | split; [ | split; [ reflexivity | split ] ] ].
    - intros m1 H. vm_compute in H. discriminate.
    - intros k Hk [c [d [Hc _]]] _. vm_compute in Hc. discriminate.
    - intros _. reflexivity. }
  rewrite <- Emd in *. assert (Hne : md <> "") by (rewrite Emd; discriminate).
  clear Emd c0 r0. rewrite (quickTake_eq md Hne).
  assert (Hfirst : forall k, 40 <= k <= 220 -> sentence_end k (Util.trim md) ->
            (forall j, 40 <= j < k -> ~ sentence_end j (Util.trim md)) ->
            Util.str_trim
              (match ClaudeAnswer.sentence (Util.trim md) with
               | Some m1 => m1
               | None => UString.substring 0 220 (Util.trim md)
               end) = UString.substring 0 (S k) (Util.trim md)
            /\ UString.length (UString.substring 0 (S k) (Util.trim md)) = S k).
  { intros k Hk He Hleast.
    pose proof (sentence_first _ k Hsp Hk He Hleast) as Es. rewrite Es.
    destruct (sentence_some _ _ Hh Es)
      as [k' [c [_ [_ [Hlen [_ [_ [_ [Hh1 [Hl1 _]]]]]]]]]].
    rewrite (str_trim_fixed _ Hh1 Hl1). split; [ reflexivity | ].
    destruct He as [c' [d' [_ [Hd' _]]]]. apply get_some_lt in Hd'.
    rewrite length_substring0. lia. }
  assert (Hnone : (forall k, 40 <= k <= 220 -> ~ sentence_end k (Util.trim md)) ->
            Util.str_trim
              (match ClaudeAnswer.sentence (Util.trim md) with
               | Some m1 => m1
               | None => UString.substring 0 220 (Util.trim md)
               end) = Util.str_trim (UString.substring 0 220 (Util.trim md))).
  { intros Hno. rewrite (sentence_none _ Hsp Hno). reflexivity. }
  destruct (ClaudeAnswer.sentence (Util.trim md)) as [m1 |] eqn:Es.
  - destruct (sentence_some _ _ Hh Es)
      as [k [c [Hk [Em [Hlen [Hlast [Hstop [Hlt [Hh1 [Hl1 _]]]]]]]]]].
    rewrite (str_trim_fixed m1 Hh1 Hl1) in *.
    split; [ rewrite Em; apply prefix_substring0 | ].
    split; [ lia | ].
    split; [ unfold trimmed; rewrite Hh1, Hl1; reflexivity | ].
    split; [ | split; [ | split; [ | split ] ] ].
    + split.
      * intros E. rewrite E in Hlen. simpl in Hlen. lia.
      * intros Hb. apply trim_empty_iff in Hb. rewrite Hb in Hlt.
        simpl in Hlt. lia.
    + intros m Hm. injection Hm as <-. split; [ reflexivity | ].
      split; [ lia | eauto ].
    + intros Hshort. lia.
    + intros k0 Hk0 He0 Hl0.
      destruct (Hfirst k0 Hk0 He0 Hl0) as [E1 E2]. rewrite E1, E2. auto.
    + intros Hno. apply Hnone, Hno.
  - pose proof (head_ok_substring0 220 _ Hh) as Hh2.
    split; [ | split; [ | split; [ | split; [ | split; [ | split; [ | split ] ] ] ] ] ].
    + eapply prefix_trans; [ apply prefix_str_trim, Hh2 | apply prefix_substring0 ].
    + pose proof (length_str_trim (UString.substring 0 220 (Util.trim md))).
      pose proof (length_substring0 220 (Util.trim md)). lia.
    + apply trimmed_str_trim.
    + split.
      * intros E. apply (str_trim_empty _ Hh2) in E.
        apply trim_empty_iff.
        destruct (Util.trim md); [ reflexivity | discriminate ].
      * intros Hb. apply trim_empty_iff in Hb. rewrite Hb. reflexivity.
    + discriminate.
    + intros Hshort. rewrite substring0_all by lia.
      apply str_trim_fixed; assumption.
    + intros k0 Hk0 He0 Hl0.
      destruct (Hfirst k0 Hk0 He0 Hl0) as [E1 E2]. rewrite E1, E2. auto.
    + intros _. reflexivity.
Qed.

(** ** Linked citations *)

Section MarkdownFacts.
Import Markdown.

Lemma digits_value_acc (d : Decimal.uint) :
  forall acc : positive,
    digits_value (Npos acc) (Util.digits d) = Npos (Pos.of_uint_acc d acc).
Proof.
  induction d; intros acc;
    cbn [Util.digits digits_value Pos.of_uint_acc];
    try reflexivity;
    rewrite <- IHd; f_equal; lia.
Qed.

Lemma digits_value_uint (d : Decimal.uint) :
  digits_value 0 (Util.digits d) = Pos.of_uint d.
Proof.
  induction d; cbn [Util.digits digits_value Pos.of_uint];
    try reflexivity; try exact IHd;
    apply (digits_value_acc d).
Qed.

Lemma parseInt_dec (n : N) : parseInt (Util.dec n) = n.
Proof.
  unfold parseInt, Util.dec.
  rewrite <- (DecimalN.Unsigned.of_to n) at 2. unfold N.of_uint.
  apply digits_value_uint.
Qed.

Lemma span_digits_all (n : ustring) :
  forall rest,
    all_digits n = true ->
    match rest with
    | EmptyUString => True
    | UString c _ => is_digit c = false
    end ->
    span_digits (n ++ rest) = (n, rest).
Proof.
  induction n as [| c r IH]; intros rest Hn Hr;
    cbn [UString.append span_digits].
  - destruct rest as [| c t]; [ reflexivity | ].
    cbn [span_digits]. rewrite Hr. reflexivity.
  - cbn [all_digits] in Hn. apply andb_prop in Hn. destruct Hn as [Hc Hn].
    rewrite Hc, (IH rest Hn Hr). reflexivity.
Qed.

Lemma cite_at_ref (n rest : ustring) :
  n <> "" -> all_digits n = true ->
  cite_at ("[" ++ n ++ "]" ++ rest) = Some (n, UString.length n + 2).
Proof.
  intros Hne Hn.
  change ("[" ++ n ++ "]" ++ rest) with (UString 91 (n ++ UString 93 rest)).
  unfold cite_at. rewrite N.eqb_refl.
  rewrite (span_digits_all n (UString 93 rest) Hn eq_refl).
  destruct n as [| d ds]; [ congruence | ].
  rewrite N.eqb_refl. reflexivity.
Qed.

Lemma linked_skip (cits : list ustring) (a : ustring) :
  forall s, linked (UString.length a) cits (a ++ s) = linked 0 cits s.
Proof.
  induction a as [| c r IH]; intros s; simpl; [ reflexivity | apply IH ].
Qed.

Lemma linked_ref (cits : list ustring) (n rest : ustring) :
  n <> "" -> all_digits n = true ->
  linked 0 cits ("[" ++ n ++ "]" ++ rest) = link n cits ++ linked 0 cits rest.
Proof.
  intros Hne Hn.
  pose proof (cite_at_ref n rest Hne Hn) as Hc.
  change ("[" ++ n ++ "]" ++ rest) with (UString 91 (n ++ UString 93 rest)) in *.
  cbn [linked]. rewrite Hc. f_equal.
  replace (UString.length n + 2 - 1) with (UString.length (n ++ "]")).
  - change (n ++ UString 93 rest) with (n ++ "]" ++ rest).
    rewrite <- (linked_skip cits (n ++ "]") rest).
    rewrite UStringFacts.append_assoc. reflexivity.
  - rewrite UStringFacts.length_append. simpl. lia.
Qed.

Lemma span_digits_split (r : ustring) :
  forall ds rest,
    span_digits r = (ds, rest) -> r = ds ++ rest /\ all_digits ds = true.
Proof.
  induction r as [| c r IH]; intros ds rest; cbn [span_digits].
  - intros H. injection H as <- <-. auto.
  - destruct (is_digit c) eqn:Ec.
    + destruct (span_digits r) as [d' rest'].
      intros H. injection H as <- <-.
      destruct (IH d' rest' eq_refl) as [-> Hd].
      cbn [all_digits UString.append]. rewrite Ec, Hd. auto.
    + intros H. injection H as <- <-. auto.
Qed.

Lemma cite_at_some (s n : ustring) (len : nat) :
  cite_at s = Some (n, len) ->
  exists t, s = "[" ++ n ++ "]" ++ t
            /\ len = UString.length n + 2
            /\ all_digits n = true /\ n <> "".
Proof.
  unfold cite_at. destruct s as [| c r]; [ discriminate | ].
  destruct (N.eqb c 91) eqn:Ec; [ | discriminate ].
  apply N.eqb_eq in Ec. subst c.
  destruct (span_digits r) as [ds rest] eqn:Es.
  apply span_digits_split in Es. destruct Es as [-> Hd].
  destruct ds as [| d ds]; [ discriminate | ].
  destruct rest as [| e t]; [ discriminate | ].
  destruct (N.eqb e 93) eqn:Ee; [ | discriminate ].
  apply N.eqb_eq in Ee. subst e.
  intros H. injection H as <- <-. exists t.
  split; [ reflexivity | split; [ reflexivity | split; [ exact Hd | discriminate ] ] ].
Qed.

(** The pattern matches at the head of a text exactly when the text starts
    with a reference. *)
Lemma cite_at_none (s : ustring) : ~ starts_reference s -> cite_at s = None.
Proof.
  intros Hn. destruct (cite_at s) as [[n len] |] eqn:E; [ | reflexivity ].
  exfalso. apply Hn. destruct (cite_at_some _ _ _ E) as [t [Hs [_ [Hd Hne]]]].
  exists n, t. auto.
Qed.

Lemma linked_keep (cits : list ustring) (c : codeunit) (s : ustring) :
  ~ starts_reference (UString c s) ->
  linked 0 cits (UString c s) = UString c (linked 0 cits s).
Proof. intros Hn. cbn [linked]. rewrite (cite_at_none _ Hn). reflexivity. Qed.

Lemma link_nothing (n : ustring) : link n [] = "[" ++ n ++ "]".
Proof.
  unfold link, url_of. destruct (parseInt n) as [| p]; [ reflexivity | ].
  destruct (Pos.to_nat p - 1); reflexivity.
Qed.

(** When no reference resolves, the pass gives back what it was given:
    what is passed over is what is put out. *)
Lemma linked_plain (cits : list ustring) :
  (forall n, all_digits n = true -> n <> "" -> link n cits = "[" ++ n ++ "]") ->
  forall s, linked 0 cits s = s.
Proof.
  intros Hl s.
  assert (H : forall m s, UString.length s <= m -> linked 0 cits s = s).
  { clear s. induction m as [| m IH]; intros s Hm.
    - destruct s; [ reflexivity | simpl in Hm; lia ].
    - destruct (cite_at s) as [[n len] |] eqn:Ec.
      + destruct (cite_at_some _ _ _ Ec) as [t [-> [_ [Hn Hne]]]].
        rewrite (linked_ref cits n t Hne Hn), (Hl n Hn Hne).
        rewrite IH.
        * rewrite !UStringFacts.append_assoc. reflexivity.
        * cbn [UString.append UString.length] in Hm.
          rewrite UStringFacts.length_append in Hm.
          cbn [UString.length] in Hm. lia.
      + destruct s as [| c r]; [ reflexivity | ].
        cbn [linked]. rewrite Ec. rewrite IH; [ reflexivity | simpl in Hm; lia ]. }
  apply (H (UString.length s)). lia.
Qed.

(** A stretch of text without an opening bracket is passed as it is, and
    the scan goes on behind it. *)
Lemma linked_app (cits : list ustring) (a : ustring) :
  forall s, occurs 91 a = false -> linked 0 cits (a ++ s) = a ++ linked 0 cits s.
Proof.
  induction a as [| c r IH]; intros s; [ reflexivity | ].
  cbn [occurs]. intros H. apply orb_false_elim in H. destruct H as [Hc Hr].
  cbn [UString.append linked]. unfold cite_at. rewrite N.eqb_sym, Hc.
  rewrite (IH s Hr). reflexivity.
Qed.

Lemma append_empty_r (s : ustring) : s ++ "" = s.
Proof. induction s as [| c r IH]; simpl; [ reflexivity | rewrite IH; reflexivity ]. Qed.

Lemma linked_no_bracket (cits : list ustring) (s : ustring) :
  occurs 91 s = false -> linked 0 cits s = s.
Proof.
  intros H. rewrite <- (append_empty_r s) at 1.
  rewrite (linked_app cits s "" H). apply append_empty_r.
Qed.

Lemma url_of_value (n : ustring) (k : nat) (cits : list ustring) :
  parseInt n = N.of_nat (S k) ->
  url_of n cits
  = match nth_error cits k with
    | Some u => Util.or_else u ""
    | None => ""
    end.
Proof.
  unfold url_of. intros ->.
  change (N.of_nat (S k)) with (Npos (Pos.of_succ_nat k)). cbv iota.
  rewrite SuccNat2Pos.id_succ.
  replace (S k - 1) with k by lia. reflexivity.
Qed.

Lemma starts_ci_eq_ci (p : ustring) :
  forall m rest, eq_ci p m = true -> starts_ci p (m ++ rest) = true.
Proof.
  induction p as [| a p IH]; intros m rest; [ reflexivity | ].
  destruct m as [| b m]; [ discriminate | ].
  cbn [eq_ci starts_ci UString.append]. intros H.
  apply andb_prop in H. destruct H as [-> H]. apply (IH m rest H).
Qed.

Lemma starts_ci_split (p : ustring) :
  forall s, starts_ci p s = true ->
            exists m rest, eq_ci p m = true /\ s = m ++ rest.
Proof.
  induction p as [| a p IH]; intros s.
  - intros _. exists "", s. split; reflexivity.
  - destruct s as [| b s]; [ discriminate | ].
    cbn [starts_ci]. intros H. apply andb_prop in H. destruct H as [Hab H].
    destruct (IH s H) as [m [rest [Hm ->]]].
    exists (UString b m), rest. cbn [eq_ci]. rewrite Hab, Hm.
    split; reflexivity.
Qed.

Lemma eq_ci_length (p : ustring) :
  forall m, eq_ci p m = true -> UString.length m = UString.length p.
Proof.
  induction p as [| a p IH]; intros [| b m]; simpl; try discriminate;
    [ reflexivity | ].
  intros H. apply andb_prop in H. destruct H as [_ H].
  rewrite (IH m H). reflexivity.
Qed.

Lemma starts_ci_none (s : ustring) :
  ~ starts_marker s -> starts_ci marker s = false.
Proof.
  intros Hn. destruct (starts_ci marker s) eqn:E; [ | reflexivity ].
  exfalso. apply Hn. apply starts_ci_split, E.
Qed.

Lemma softened_skip (a : ustring) :
  forall s, softened (UString.length a) (a ++ s) = softened 0 s.
Proof.
  induction a as [| c r IH]; intros s; simpl; [ reflexivity | apply IH ].
Qed.

(** The marker, in any case of its letters, is replaced by the warning. *)
Lemma softened_hit (m rest : ustring) :
  eq_ci marker m = true ->
  softened 0 (m ++ rest) = unverified ++ softened 0 rest.
Proof.
  intros Hm. pose proof (eq_ci_length _ _ Hm) as Hlen.
  pose proof (starts_ci_eq_ci marker m rest Hm) as Hs.
  destruct m as [| c tl]; [ discriminate | ].
  cbn [UString.append] in *. cbn [softened]. rewrite Hs.
  replace (UString.length marker - 1) with (UString.length tl)
    by (rewrite <- Hlen; simpl; lia).
  rewrite softened_skip. reflexivity.
Qed.

Lemma softened_keep (c : codeunit) (s : ustring) :
  ~ starts_marker (UString c s) ->
  softened 0 (UString c s) = UString c (softened 0 s).
Proof. intros Hn. cbn [softened]. rewrite (starts_ci_none _ Hn). reflexivity. Qed.

Lemma upper_underscore (c : codeunit) :
  N.eqb (upper 95) (upper c) = N.eqb 95 c.
Proof.
  unfold upper. change ((97 <=? 95) && (95 <=? 122))%N with false. cbv iota.
  destruct ((97 <=? c) && (c <=? 122))%N eqn:E.
  - apply andb_prop in E. destruct E as [E1 E2].
    apply N.leb_le in E1, E2.
    transitivity false; [ | symmetry ]; apply N.eqb_neq; lia.
  - reflexivity.
Qed.

(** A stretch of text without an underscore is passed as it is. *)
Lemma softened_app (a : ustring) :
  forall s, occurs 95 a = false -> softened 0 (a ++ s) = a ++ softened 0 s.
Proof.
  induction a as [| c r IH]; intros s; [ reflexivity | ].
  cbn [occurs]. intros H. apply orb_false_elim in H. destruct H as [Hc Hr].
  cbn [UString.append softened].
  replace (starts_ci marker (UString c (r ++ s))) with false.
  - rewrite (IH s Hr). reflexivity.
  - symmetry. unfold marker. cbn [starts_ci].
    rewrite upper_underscore, Hc. reflexivity.
Qed.

Lemma softened_no_underscore (s : ustring) :
  occurs 95 s = false -> softened 0 s = s.
Proof.
  intros H. rewrite <- (append_empty_r s) at 1.
  rewrite (softened_app s "" H). apply append_empty_r.
Qed.

Lemma eq_ci_marker : eq_ci marker marker = true.
Proof. reflexivity. Qed.

End MarkdownFacts.


(** ** The elapsed time, the mode and the title of a run *)

Lemma onTick_live (t : nat) (st : State) :
  interval_live t st = true ->
  elapsed (run (onTick t st))
  = (Z.of_N (now (env st) - t0Ref (refs st)) # 1000)%Q.
Proof.
  unfold onTick. intros ->. destruct_state st. reflexivity.
Qed.

(** X22.  The elapsed-time display measures the run: a submit sets it to 0,
    and when [d] milliseconds have passed since the submit, the tick of the
    run's interval sets it to [d / 1000] seconds, whatever timeouts came due
    in between. *)
Theorem elapsed_measures_run :
  forall (st : State) (d : N),
    Util.truthy (Util.trim (question (composer st))) = true ->
    let st1 := step (Advance d) (step Submit st) in
    elapsed (run (step Submit st)) = 0%Q
    /\ exists t,
         timerRef (refs st1) = Some t
         /\ interval_live t st1 = true
         /\ elapsed (run (step (Tick t) st1)) = (Z.of_N d # 1000)%Q.
Proof.
  intros st d Ht st1. subst st1. cbn [step].
  destruct (send_shape st Ht) as [id [ss0 [ctr0 [cid' [E _]]]]].
  destruct (advance_frame d (send st)) as [Hn [Hr _]].
  destruct (same_run_advance d (send st)) as [_ [_ [_ [Hiv _]]]].
  split; [ rewrite E; reflexivity | ].
  exists (List.length (intervals (env st))).
  assert (Hlive : interval_live (List.length (intervals (env st)))
                    (advance d (send st)) = true).
  { unfold interval_live. rewrite Hiv, E. cbn [env intervals].
    rewrite app_nth2; [ | destruct (timerRef (refs st));
                            rewrite ?length_update; lia ].
    replace (List.length (intervals (env st)) - _) with 0;
      [ reflexivity
      | destruct (timerRef (refs st)); rewrite ?length_update; lia ]. }
  split; [ rewrite Hr, E; reflexivity | split; [ exact Hlive | ] ].
  rewrite (onTick_live _ _ Hlive), Hn, Hr, E. cbn [env refs now t0Ref].
  replace (now (env st) + d - now (env st))%N with d by lia. reflexivity.
Qed.

Lemma elapsed_measures_run_witness :
  let st := step (TextChange "why is the sky blue") (init [] 1000) in
  let st1 := step (Advance 2500) (step Submit st) in
  elapsed (run (step Submit st)) = 0%Q
  /\ exists t,
       timerRef (refs st1) = Some t
       /\ interval_live t st1 = true
       /\ elapsed (run (step (Tick t) st1)) = (2500 # 1000)%Q.
Proof.
  apply (elapsed_measures_run
           (step (TextChange "why is the sky blue") (init [] 1000)) 2500).
  vm_compute. reflexivity.
Defined.

(** X23.  Picking the mode that is already set changes nothing, even when
    the selected session was created in the other mode.  Picking the other
    mode sets the mode, gives it to the sessions that the selection names and
    leaves every other session, the selection, the run, the composer, the
    refs and the browser's objects as they were.  Picking a mode twice is
    picking it once. *)
Theorem pick_mode_effect :
  forall (st : State) (m : Mode),
    let st' := step (PickMode m) st in
    mode (store st') = m
    /\ (mode (store st) = m -> st' = st)
    /\ (mode (store st) <> m ->
        forall c, currentId (store st) = Some c -> c <> "" ->
          sessions (store st')
          = map_session c (fun s =>
              Session.mk (Session.id s) (Session.title s) m
                (Session.messages s) (Session.trace s) (Session.createdAt s))
              (sessions (store st)))
    /\ (forall s, currentId (store st) <> Some (Session.id s) ->
          (In s (sessions (store st')) <-> In s (sessions (store st))))
    /\ ids st' = ids st
    /\ currentId (store st') = currentId (store st)
    /\ run st' = run st /\ composer st' = composer st
    /\ refs st' = refs st /\ env st' = env st
    /\ step (PickMode m) st' = st'.
Proof.
  intros st m st'. subst st'. cbn [step].
  assert (Hsame : forall x : State, mode (store x) = m -> pickMode m x = x).
  { intros x Hx. destruct x as [[s c md'] r co f e]. simpl in Hx. subst md'.
    unfold pickMode. app_red. destruct m; reflexivity. }
  assert (Hm : mode (store (pickMode m st)) = m).
  { destruct_state st. destruct md, m; try reflexivity; app_red;
      (destruct cid as [c |]; app_red; [ destruct (Util.truthy c) | ];
       reflexivity). }
  split; [ exact Hm | split; [ apply Hsame | ] ].
  split; [ | split; [ | split; [ | split; [ | split; [ | split; [ | split;
    [ | split ] ] ] ] ] ] ].
  - intros Hne c Hc Hcne. revert Hne Hc. destruct_state st. app_red.
    intros Hne Hc. subst cid.
    destruct md, m; try congruence; app_red;
      (destruct c as [| a r]; [ congruence | reflexivity ]).
  - intros s Hs. revert Hs. destruct_state st. app_red. intros Hs.
    destruct md, m; app_red; try tauto;
      (destruct cid as [c |]; app_red; [ destruct (Util.truthy c) | ];
       try tauto;
       unfold map_session; rewrite in_map_iff; split;
       [ intros [x [Hx Hin]];
         destruct (UString.eqb (Session.id x) c) eqn:E;
         [ exfalso; apply Hs; subst s; cbn [Session.id];
           apply UStringFacts.eqb_eq in E; congruence
         | subst x; exact Hin ]
       | intros Hin; exists s; split; [ | exact Hin ];
         destruct (UString.eqb (Session.id s) c) eqn:E;
         [ exfalso; apply Hs; apply UStringFacts.eqb_eq in E; congruence
         | reflexivity ] ]).
  - unfold ids. destruct_state st.
    destruct md, m; app_red; try reflexivity;
      (destruct cid as [c |]; app_red; [ destruct (Util.truthy c) | ];
       try reflexivity;
       unfold map_session; rewrite map_map; apply map_ext; intros s;
       destruct (UString.eqb _ _); reflexivity).
  - destruct_state st.
    destruct md, m; app_red; try reflexivity;
      (destruct cid as [c |]; app_red; [ destruct (Util.truthy c) | ];
       reflexivity).
  - destruct_state st.
    destruct md, m; app_red; try reflexivity;
      (destruct cid as [c |]; app_red; [ destruct (Util.truthy c) | ];
       reflexivity).
  - destruct_state st.
    destruct md, m; app_red; try reflexivity;
      (destruct cid as [c |]; app_red; [ destruct (Util.truthy c) | ];
       reflexivity).
  - destruct_state st.
    destruct md, m; app_red; try reflexivity;
      (destruct cid as [c |]; app_red; [ destruct (Util.truthy c) | ];
       reflexivity).
  - destruct_state st.
    destruct md, m; app_red; try reflexivity;
      (destruct cid as [c |]; app_red; [ destruct (Util.truthy c) | ];
       reflexivity).
  - apply Hsame, Hm.
Qed.

(** X24.  The first question names the chat.  After a submit, the session of
    the run is either a session that was in the list, with the title it had
    when it already held messages and the title made of the query when it
    held none, or the new session made for the run, titled by the query.  In
    both cases the title is not empty and has at most 64 characters when it
    is made of the query. *)
Theorem first_query_titles_session :
  forall (st : State) (s' : Session.t),
    Util.truthy (Util.trim (question (composer st))) = true ->
    let q := fst (resolve (autoCorrectOn (composer st))
                    (suggestion (composer st))
                    (Util.trim (question (composer st)))) in
    In s' (sessions (store (send st))) ->
    runIdRef (refs (send st)) = Some (Session.id s') ->
    (exists s, In s (sessions (store st))
               /\ Session.id s = Session.id s'
               /\ Session.title s'
                  = match Session.messages s with
                    | [] => Util.titleOf q
                    | _ => Session.title s
                    end)
    \/ (current st = None
        /\ Session.id s' = fst (Util.uid (now (env st)) (uidCounter (env st)))
        /\ Session.title s' = Util.titleOf q
        /\ List.length (Session.messages s') = 1
        /\ Session.createdAt s' = now (env st)).
Proof.
  intros st s' Ht q Hin Hrun.
  pose proof (send_store st Ht) as H. cbv zeta in H. fold q in H.
  destruct H as [H _].
  destruct (current st) as [c |] eqn:Ec.
  - destruct H as [Hs [_ [_ Hr]]]. rewrite Hr in Hrun. injection Hrun as Hid.
    rewrite Hs in Hin. apply map_fresh_In in Hin.
    destruct Hin as [[_ Hne] | [u [s0 [Hin0 [Hid0 ->]]]]]; [ congruence | ].
    left. exists s0. split; [ exact Hin0 | split; reflexivity ].
  - destruct H as [Hs [_ [_ Hr]]]. rewrite Hr in Hrun. injection Hrun as Hid.
    rewrite Hs in Hin. apply map_fresh_In in Hin.
    destruct Hin as [[_ Hne] | [u [s0 [Hin0 [Hid0 ->]]]]];
      [ exfalso; apply Hne; symmetry; exact Hid | ].
    destruct Hin0 as [<- | Hin0].
    + right. split; [ reflexivity | ]. repeat split.
    + left. exists s0. split; [ exact Hin0 | split; reflexivity ].
Qed.

Lemma first_query_titles_session_witness :
  let st := step (TextChange "  why is   the sky blue ") (init [] 1000) in
  let s' := Session.mk "m_1000_0" "why is the sky blue" thorough
              [Message.mk "m_1000_1" user "why is the sky blue" None] [] 1000 in
  (exists s, In s (sessions (store st))
             /\ Session.id s = Session.id s'
             /\ Session.title s'
                = match Session.messages s with
                  | [] => Util.titleOf "why is the sky blue"
                  | _ => Session.title s
                  end)
  \/ (current st = None
      /\ Session.id s' = fst (Util.uid (now (env st)) (uidCounter (env st)))
      /\ Session.title s' = Util.titleOf "why is the sky blue"
      /\ List.length (Session.messages s') = 1
      /\ Session.createdAt s' = now (env st)).
Proof.
  apply (first_query_titles_session
           (step (TextChange "  why is   the sky blue ") (init [] 1000))
           (Session.mk "m_1000_0" "why is the sky blue" thorough
              [Message.mk "m_1000_1" user "why is the sky blue" None] [] 1000)).
  - vm_compute. reflexivity.
  - vm_compute. left. reflexivity.
  - vm_compute. reflexivity.
Defined.
